(** * Knowledge-graph construction: [transformDataToGraph]

    A shallow embedding of the entity-to-graph transformation of the
    [KnowledgeGraph] React component (its callback [transformDataToGraph])
    together with the properties of the built graph.

    Modelling choices.
    - JavaScript strings are [string]s.  The source only compares strings
      ([===], [includes], map keys) and concatenates them, and on well-formed
      strings these agree whether a string is read as its code units or as
      its UTF-8 bytes.  [toLowerCase], a function of the runtime, is a
      parameter of the development.
    - Template literals [`func-${index}`] print the index in decimal with
      stdpp's [pretty].
    - The [Map<string,string>] called [nodeMap] is a [gmap string string];
      only [get], [has] and [set] are used by the source.
    - The arrays [nodes] and [edges] are lists; [push] appends at the end, so
      [find] returns the earliest pushed match as in the source.
    - [forEach] threads the three mutable locals through the callback as an
      explicit accumulator.
    - Optional fields of a relationship record ([caller?: string | null], ...)
      are [option string]; an omitted [relationships] prop is the record of
      four empty lists, as the default parameter of the component makes it.
      The [metrics] prop is not read by the transformation and is left out. *)

From Stdlib Require Import Ascii String.
From stdpp Require Import base option list gmap strings pretty.

Local Open Scope string_scope.
Local Open Scope list_scope.

(** ** Strings as JavaScript uses them *)

(** [includes s t] is [s.includes(t)]: [t] occurs in [s] as a substring. *)
Fixpoint includes (s t : string) : bool :=
  String.prefix t s ||
  match s with
  | EmptyString => false
  | String _ s' => includes s' t
  end.

(** Truthiness of a string value: only the empty string is falsy. *)
Definition truthy (s : string) : bool :=
  match s with
  | EmptyString => false
  | String _ _ => true
  end.

(** [String.prototype.toLowerCase] belongs to the runtime, not to the
    repository: the development takes it as a parameter.  Nothing is assumed
    about which characters it changes, in particular not that it works
    character by character; the one fact relied upon is that the lower-casing
    of a string is empty exactly when the string is. *)
Class LowerCase := {
  toLowerCase : string → string;
  toLowerCase_truthy : ∀ s, truthy (toLowerCase s) = truthy s
}.

(** On strings of ASCII characters the runtime's function lowers the letters
    [A] to [Z] and leaves every other character as it is. *)
Definition lowerChar (c : ascii) : ascii :=
  let n := nat_of_ascii c in
  if (65 <=? n)%nat && (n <=? 90)%nat then ascii_of_nat (n + 32) else c.

Fixpoint asciiToLowerCase (s : string) : string :=
  match s with
  | EmptyString => EmptyString
  | String c s' => String (lowerChar c) (asciiToLowerCase s')
  end.

(** The instance with which the sample inputs, all of them ASCII, are
    evaluated. *)
Definition asciiLowerCase : LowerCase :=
  {| toLowerCase := asciiToLowerCase;
     toLowerCase_truthy := λ s,
       match s with
       | EmptyString => eq_refl
       | String _ _ => eq_refl
       end |}.

(** A closed membership goal is decided by evaluation. *)
Ltac elem_by_compute := apply (bool_decide_unpack _); vm_compute; exact I.

Section Graph.
Context {lowerCase : LowerCase}.

(** ** Data model (lib/api.ts and the component's interfaces) *)

Record ParsedFunction := {
  f_name : string;
  f_args : list string;
  f_returns : option string;
  f_docstring : option string
}.

Record ParsedClass := {
  c_name : string;
  c_bases : list string;
  c_docstring : option string;
  c_methods : list ParsedFunction
}.

Inductive RelationshipType := function_call | method_call | attribute_access_t.

Record Relationship := {
  caller : option string;
  callee : option string;
  object : option string;
  method : option string;
  attribute : option string;
  r_type : RelationshipType
}.

Record Relationships := {
  function_calls : list Relationship;
  class_inheritance : list Relationship;
  method_calls : list Relationship;
  attribute_access : list Relationship
}.

(** The payload of a node is the entity object itself; the stub literal of
    the inheritance branch has exactly the fields of a [ParsedClass]. *)
Inductive NodeData :=
| FunctionData (f : ParsedFunction)
| ClassData (c : ParsedClass).

Definition nd_name (d : NodeData) : string :=
  match d with
  | FunctionData f => f_name f
  | ClassData c => c_name c
  end.

Inductive NodeType := TFunction | TClass | TMethod.
Inductive EdgeType := Calls | Inherits | Contains.

Record GraphNode := {
  n_id : string;
  n_label : string;
  n_type : NodeType;
  n_nodeData : NodeData
}.

Record GraphEdge := {
  e_id : string;
  e_source : string;
  e_target : string;
  e_type : EdgeType
}.

Global Instance ParsedFunction_eq_dec : EqDecision ParsedFunction.
Proof. solve_decision. Defined.
Global Instance ParsedClass_eq_dec : EqDecision ParsedClass.
Proof. solve_decision. Defined.
Global Instance NodeData_eq_dec : EqDecision NodeData.
Proof. solve_decision. Defined.
Global Instance NodeType_eq_dec : EqDecision NodeType.
Proof. solve_decision. Defined.
Global Instance EdgeType_eq_dec : EqDecision EdgeType.
Proof. solve_decision. Defined.
Global Instance GraphNode_eq_dec : EqDecision GraphNode.
Proof. solve_decision. Defined.
Global Instance GraphEdge_eq_dec : EqDecision GraphEdge.
Proof. solve_decision. Defined.

(** The component's props and its filter state. *)
Record Props := {
  functions : list ParsedFunction;
  classes : list ParsedClass;
  relationships : Relationships
}.

Record FilterState := {
  searchTerm : string;
  showFunctions : bool;
  showClasses : bool;
  showMethods : bool;
  showRelationships : bool
}.

(** The three mutable locals of [transformDataToGraph]. *)
Record Acc := {
  nodes : list GraphNode;
  edges : list GraphEdge;
  nodeMap : gmap string string
}.

Definition emptyAcc : Acc := {| nodes := []; edges := []; nodeMap := ∅ |}.

Definition pushNode (n : GraphNode) (s : Acc) : Acc :=
  {| nodes := nodes s ++ [n]; edges := edges s; nodeMap := nodeMap s |}.

Definition pushEdge (e : GraphEdge) (s : Acc) : Acc :=
  {| nodes := nodes s; edges := edges s ++ [e]; nodeMap := nodeMap s |}.

Definition setName (k v : string) (s : Acc) : Acc :=
  {| nodes := nodes s; edges := edges s; nodeMap := <[k:=v]> (nodeMap s) |}.

(** [Array.prototype.forEach] with the element and its index. *)
Fixpoint forEachFrom {A St : Type} (f : A → nat → St → St) (i : nat) (l : list A) (s : St) : St :=
  match l with
  | [] => s
  | x :: l' => forEachFrom f (S i) l' (f x i s)
  end.

Definition forEach {A St : Type} (f : A → nat → St → St) (l : list A) (s : St) : St :=
  forEachFrom f 0 l s.

(** ** The transformation *)

(** [!searchTerm || name.toLowerCase().includes(searchTerm.toLowerCase())] *)
Definition matchesSearch (st : FilterState) (name : string) : bool :=
  negb (truthy (searchTerm st)) ||
  includes (toLowerCase name) (toLowerCase (searchTerm st)).

Definition funcId (index : nat) : string := "func-" +:+ pretty index.
Definition classId (classIndex : nat) : string := "class-" +:+ pretty classIndex.
Definition methodId (classIndex methodIndex : nat) : string :=
  "method-" +:+ pretty classIndex +:+ "-" +:+ pretty methodIndex.
Definition baseStubId (base : string) : string := "base-" +:+ base.

Definition functionNode (index : nat) (func : ParsedFunction) : GraphNode :=
  {| n_id := funcId index; n_label := f_name func;
     n_type := TFunction; n_nodeData := FunctionData func |}.

Definition classNode (classIndex : nat) (cls : ParsedClass) : GraphNode :=
  {| n_id := classId classIndex; n_label := c_name cls;
     n_type := TClass; n_nodeData := ClassData cls |}.

Definition methodNode (classIndex methodIndex : nat) (m : ParsedFunction) : GraphNode :=
  {| n_id := methodId classIndex methodIndex; n_label := f_name m;
     n_type := TMethod; n_nodeData := FunctionData m |}.

Definition stubPayload (base : string) : ParsedClass :=
  {| c_name := base; c_bases := []; c_docstring := None; c_methods := [] |}.

Definition stubNode (baseId base : string) : GraphNode :=
  {| n_id := baseId; n_label := base;
     n_type := TClass; n_nodeData := ClassData (stubPayload base) |}.

Definition containsEdge (cid mid : string) : GraphEdge :=
  {| e_id := "edge-" +:+ cid +:+ "-" +:+ mid;
     e_source := cid; e_target := mid; e_type := Contains |}.

Definition inheritsEdge (cid baseId : string) (baseIndex : nat) : GraphEdge :=
  {| e_id := "inherit-" +:+ cid +:+ "-" +:+ baseId +:+ "-" +:+ pretty baseIndex;
     e_source := cid; e_target := baseId; e_type := Inherits |}.

Definition callEdge (index : nat) (callerId calleeId : string) : GraphEdge :=
  {| e_id := "call-" +:+ pretty index;
     e_source := callerId; e_target := calleeId; e_type := Calls |}.

Definition methodCallEdge (index : nat) (objectId mid : string) : GraphEdge :=
  {| e_id := "method-call-" +:+ pretty index;
     e_source := objectId; e_target := mid; e_type := Calls |}.

(** Callback of [functions.forEach]. *)
Definition addFunction (st : FilterState) (func : ParsedFunction) (index : nat) (s : Acc) : Acc :=
  if matchesSearch st (f_name func) then
    setName (f_name func) (funcId index) (pushNode (functionNode index func) s)
  else s.

(** Callback of [cls.methods.forEach]. *)
Definition addMethod (st : FilterState) (classIndex : nat) (cid : string)
    (m : ParsedFunction) (methodIndex : nat) (s : Acc) : Acc :=
  if matchesSearch st (f_name m) then
    pushEdge (containsEdge cid (methodId classIndex methodIndex))
      (pushNode (methodNode classIndex methodIndex m) s)
  else s.

(** [nodeMap.get(base) || `base-${base}`] *)
Definition resolveBase (reg : gmap string string) (base : string) : string :=
  match reg !! base with
  | Some v => if truthy v then v else baseStubId base
  | None => baseStubId base
  end.

Definition hasId (i : string) (n : GraphNode) : bool := bool_decide (n_id n = i).

(** Callback of [cls.bases.forEach]. *)
Definition addBase (cid : string) (base : string) (baseIndex : nat) (s : Acc) : Acc :=
  let baseId := resolveBase (nodeMap s) base in
  let s' :=
    match List.find (hasId baseId) (nodes s) with
    | Some _ => s
    | None => setName base baseId (pushNode (stubNode baseId base) s)
    end in
  pushEdge (inheritsEdge cid baseId baseIndex) s'.

(** Callback of [classes.forEach]. *)
Definition addClass (st : FilterState) (cls : ParsedClass) (classIndex : nat) (s : Acc) : Acc :=
  if matchesSearch st (c_name cls) then
    let cid := classId classIndex in
    let s1 := setName (c_name cls) cid (pushNode (classNode classIndex cls) s) in
    let s2 :=
      if showMethods st
      then forEach (addMethod st classIndex cid) (c_methods cls) s1
      else s1 in
    if (0 <? length (c_bases cls))%nat
    then forEach (addBase cid) (c_bases cls) s2
    else s2
  else s.

(** [x && nodeMap.has(x)] for an optional string field [x]. *)
Definition present (reg : gmap string string) (x : option string) : option string :=
  match x with
  | Some k => if truthy k && bool_decide (is_Some (reg !! k)) then Some k else None
  | None => None
  end.

(** Callback of [relationships.function_calls.forEach]. *)
Definition addFunctionCall (call : Relationship) (index : nat) (s : Acc) : Acc :=
  match present (nodeMap s) (callee call) with
  | Some ce =>
      let callerId :=
        match present (nodeMap s) (caller call) with
        | Some cr => nodeMap s !! cr
        | None => None
        end in
      let calleeId := nodeMap s !! ce in
      match callerId, calleeId with
      | Some a, Some b =>
          if truthy a && truthy b && negb (bool_decide (a = b))
          then pushEdge (callEdge index a b) s
          else s
      | _, _ => s
      end
  | None => s
  end.

(** The predicate of [nodes.find] in the method-call branch. *)
Definition isMethodNamed (name : string) (n : GraphNode) : bool :=
  bool_decide (n_type n = TMethod) &&
  bool_decide (nd_name (n_nodeData n) = name) &&
  includes (n_id n) "method-".

(** Callback of [relationships.method_calls.forEach]. *)
Definition addMethodCall (call : Relationship) (index : nat) (s : Acc) : Acc :=
  match object call, method call with
  | Some o, Some mn =>
      if truthy o && truthy mn && bool_decide (is_Some (nodeMap s !! o)) then
        match nodeMap s !! o, List.find (isMethodNamed mn) (nodes s) with
        | Some objectId, Some methodNode =>
            if truthy objectId
            then pushEdge (methodCallEdge index objectId (n_id methodNode)) s
            else s
        | _, _ => s
        end
      else s
  | _, _ => s
  end.

(** The accumulator after the function and class passes. *)
Definition buildEntities (p : Props) (st : FilterState) : Acc :=
  let s1 :=
    if showFunctions st then forEach (addFunction st) (functions p) emptyAcc
    else emptyAcc in
  if showClasses st then forEach (addClass st) (classes p) s1 else s1.

Definition buildRelationships (p : Props) (s : Acc) : Acc :=
  forEach addMethodCall (method_calls (relationships p))
    (forEach addFunctionCall (function_calls (relationships p)) s).

Definition transformDataToGraph (p : Props) (st : FilterState) : Acc :=
  let s := buildEntities p st in
  if showRelationships st then buildRelationships p s else s.

(** The name registry that relationship endpoints are resolved against. *)
Definition registry (p : Props) (st : FilterState) : gmap string string :=
  nodeMap (buildEntities p st).

Definition ids (ns : list GraphNode) : list string := n_id <$> ns.

(** ** Well-formedness of the accumulator

    Every node, registry entry and edge that the build ever holds has one of
    the shapes below; none of the shapes mentions the position of an entity
    among the currently visible ones. *)

Section Forms.
Variable p : Props.
Variable st : FilterState.

Inductive nodeForm : GraphNode → Prop :=
| form_function i f :
    functions p !! i = Some f →
    showFunctions st = true → matchesSearch st (f_name f) = true →
    nodeForm (functionNode i f)
| form_class ci c :
    classes p !! ci = Some c →
    showClasses st = true → matchesSearch st (c_name c) = true →
    nodeForm (classNode ci c)
| form_method ci c mi m :
    classes p !! ci = Some c → c_methods c !! mi = Some m →
    showClasses st = true → matchesSearch st (c_name c) = true →
    showMethods st = true → matchesSearch st (f_name m) = true →
    nodeForm (methodNode ci mi m)
| form_stub ci c b :
    classes p !! ci = Some c → b ∈ c_bases c →
    showClasses st = true → matchesSearch st (c_name c) = true →
    nodeForm (stubNode (baseStubId b) b).

Inductive regEntry (k : string) : string → Prop :=
| reg_function i f :
    functions p !! i = Some f → f_name f = k →
    showFunctions st = true → matchesSearch st k = true →
    regEntry k (funcId i)
| reg_class ci c :
    classes p !! ci = Some c → c_name c = k →
    regEntry k (classId ci)
| reg_base : regEntry k (baseStubId k).

Inductive edgeForm : GraphEdge → Prop :=
| form_contains ci mi :
    showMethods st = true →
    edgeForm (containsEdge (classId ci) (methodId ci mi))
| form_inherits ci t bi : edgeForm (inheritsEdge (classId ci) t bi)
| form_call i a b : a ≠ b → edgeForm (callEdge i a b)
| form_method_call i a b : a ≠ b → edgeForm (methodCallEdge i a b).

Record WF (s : Acc) : Prop := {
  wf_nodes : ∀ n, n ∈ nodes s → nodeForm n;
  wf_reg : ∀ k v, nodeMap s !! k = Some v → regEntry k v ∧ v ∈ ids (nodes s);
  wf_edges : ∀ e, e ∈ edges s →
    edgeForm e ∧ e_source e ∈ ids (nodes s) ∧ e_target e ∈ ids (nodes s);
  wf_stubs : ∀ b, (length (filter (λ n, n_id n = baseStubId b) (nodes s)) ≤ 1)%nat
}.

End Forms.

Arguments wf_nodes {p st s}.
Arguments wf_reg {p st s}.
Arguments wf_edges {p st s}.
Arguments wf_stubs {p st s}.

(** ** Vocabulary of the statements *)

(** An entity of the model, named by its position in the parsed arrays. *)
Inductive Origin :=
| OFunction (index : nat)
| OClass (classIndex : nat)
| OMethod (classIndex methodIndex : nat).

Definition originId (o : Origin) : string :=
  match o with
  | OFunction i => funcId i
  | OClass ci => classId ci
  | OMethod ci mi => methodId ci mi
  end.

(** The node that the callbacks push for entity [o] under the filter state
    [st]: the guards are those that enclose the [push] in the source. *)
Definition nodeFor (p : Props) (st : FilterState) (o : Origin) : option GraphNode :=
  match o with
  | OFunction i =>
      f ← functions p !! i;
      if showFunctions st && matchesSearch st (f_name f)
      then Some (functionNode i f) else None
  | OClass ci =>
      c ← classes p !! ci;
      if showClasses st && matchesSearch st (c_name c)
      then Some (classNode ci c) else None
  | OMethod ci mi =>
      c ← classes p !! ci;
      m ← c_methods c !! mi;
      if showClasses st && matchesSearch st (c_name c) &&
         showMethods st && matchesSearch st (f_name m)
      then Some (methodNode ci mi m) else None
  end.

(** Identifiers of synthetic stubs start with [base-]. *)
Definition isStubId (i : string) : bool := String.prefix "base-" i.

(** The accumulator after the function pass. *)
Definition functionsPass (p : Props) (st : FilterState) : Acc :=
  if showFunctions st then forEach (addFunction st) (functions p) emptyAcc
  else emptyAcc.

(** The accumulator of [addClass] once the class node and its method nodes
    are pushed, before the bases are visited. *)
Definition addClassMembers (st : FilterState) (cls : ParsedClass) (classIndex : nat)
    (s : Acc) : Acc :=
  let s1 := setName (c_name cls) (classId classIndex)
              (pushNode (classNode classIndex cls) s) in
  if showMethods st
  then forEach (addMethod st classIndex (classId classIndex)) (c_methods cls) s1
  else s1.

(** A class-kind node that is not a synthetic stub. *)
Definition isParsedClassNode (n : GraphNode) : Prop :=
  n_type n = TClass ∧ isStubId (n_id n) = false.

(** An inherits edge that leaves the class at position [ci]. *)
Definition inheritsFrom (ci : nat) (e : GraphEdge) : Prop :=
  e_type e = Inherits ∧ e_source e = classId ci.

(** A relationship endpoint [x] is a non-empty name that the registry maps
    to the id [v]. *)
Definition resolves (reg : gmap string string) (x : option string) (v : string) : Prop :=
  ∃ k, x = Some k ∧ k ≠ "" ∧ reg !! k = Some v.

(** The record [call] names a caller and a callee that the registry resolves
    to two different ids [a] and [b]. *)
Definition resolvesCall (reg : gmap string string) (call : Relationship)
    (a b : string) : Prop :=
  resolves reg (caller call) a ∧ resolves reg (callee call) b ∧ a ≠ b.

(** The edge carries the id [i]. *)
Definition hasEdgeId (i : string) (e : GraphEdge) : Prop := e_id e = i.

Global Instance hasEdgeId_dec i e : Decision (hasEdgeId i e).
Proof. unfold hasEdgeId. apply _. Defined.

(** [name.toLowerCase().includes(s.toLowerCase())]: the lower-cased [s]
    occurs in the lower-cased [name]. *)
Definition containsCI (name s : string) : bool :=
  includes (toLowerCase name) (toLowerCase s).

Definition setShowRelationships (b : bool) (st : FilterState) : FilterState :=
  {| searchTerm := searchTerm st; showFunctions := showFunctions st;
     showClasses := showClasses st; showMethods := showMethods st;
     showRelationships := b |}.

(** Number of methods of [c] that pass the search filter. *)
Definition filteredMethodCount (st : FilterState) (c : ParsedClass) : nat :=
  length (filter (λ m, matchesSearch st (f_name m) = true) (c_methods c)).

(** The classes that pass the class filter. *)
Definition visibleClasses (p : Props) (st : FilterState) : list ParsedClass :=
  filter (λ c, showClasses st = true ∧ matchesSearch st (c_name c) = true) (classes p).

(** [l'] is [l] followed by elements that all satisfy [R]: the effect of a
    run of [push]es. *)
Definition appends {X : Type} (R : X → Prop) (l l' : list X) : Prop :=
  ∃ ext, l' = l ++ ext ∧ Forall R ext.

(** ** Sample inputs *)

Definition mkFunction (name : string) : ParsedFunction :=
  {| f_name := name; f_args := []; f_returns := None; f_docstring := None |}.

Definition mkClass (name : string) (bases : list string) (ms : list ParsedFunction) : ParsedClass :=
  {| c_name := name; c_bases := bases; c_docstring := None; c_methods := ms |}.

Definition mkCall (cr ce : string) : Relationship :=
  {| caller := Some cr; callee := Some ce; object := None; method := None;
     attribute := None; r_type := function_call |}.

Definition noRelationships : Relationships :=
  {| function_calls := []; class_inheritance := [];
     method_calls := []; attribute_access := [] |}.

Definition allOn (term : string) : FilterState :=
  {| searchTerm := term; showFunctions := true; showClasses := true;
     showMethods := true; showRelationships := true |}.

(** All flags on except [showClasses]. *)
Definition classesHidden : FilterState :=
  {| searchTerm := ""; showFunctions := true; showClasses := false;
     showMethods := true; showRelationships := true |}.

(** All flags on except [showMethods]. *)
Definition methodsHidden : FilterState :=
  {| searchTerm := ""; showFunctions := true; showClasses := true;
     showMethods := false; showRelationships := true |}.

(** Functions [f], [g]; class [B] deriving from an unparsed [A] with one
    method [m]; one call from [f] to [g]. *)
Definition sample : Props :=
  {| functions := [mkFunction "f"; mkFunction "g"];
     classes := [mkClass "B" ["A"] [mkFunction "m"]];
     relationships :=
       {| function_calls := [mkCall "f" "g"]; class_inheritance := [];
          method_calls := []; attribute_access := [] |} |}.

(** A function and a base class that share the name [Unknown]. *)
Definition sampleShadowed : Props :=
  {| functions := [mkFunction "Unknown"];
     classes := [mkClass "C" ["Unknown"] []];
     relationships := noRelationships |}.

(** Functions [f] and [g] and one call from [f] to [g]. *)
Definition sampleCalls : Props :=
  {| functions := [mkFunction "f"; mkFunction "g"];
     classes := [];
     relationships :=
       {| function_calls := [mkCall "f" "g"]; class_inheritance := [];
          method_calls := []; attribute_access := [] |} |}.

(** Class [B] with the method [m], and a call of [m] on [B]. *)
Definition sampleMethodCall : Props :=
  {| functions := [];
     classes := [mkClass "B" ["A"] [mkFunction "m"]];
     relationships :=
       {| function_calls := []; class_inheritance := [];
          method_calls :=
            [ {| caller := None; callee := None; object := Some "B";
                 method := Some "m"; attribute := None; r_type := method_call |} ];
          attribute_access := [] |} |}.

(** One class deriving from [Unknown]; nothing else. *)
Definition sampleUnknown : Props :=
  {| functions := [];
     classes := [mkClass "C" ["Unknown"] []];
     relationships := noRelationships |}.

(** ** The controls of the component

    [setSearchTerm(e.target.value)] and the three checkboxes replace one
    field of the filter state. *)
Definition setSearchTerm (term : string) (st : FilterState) : FilterState :=
  {| searchTerm := term; showFunctions := showFunctions st;
     showClasses := showClasses st; showMethods := showMethods st;
     showRelationships := showRelationships st |}.

(** The nodes of kind [t] in a node list. *)
Definition nodesOfType (t : NodeType) (ns : list GraphNode) : list GraphNode :=
  filter (λ n, n_type n = t) ns.

(** The edges of kind [t] in an edge list. *)
Definition edgesOfType (t : EdgeType) (es : list GraphEdge) : list GraphEdge :=
  filter (λ e, e_type e = t) es.

(** The method nodes of the class at position [ci], one per method, in
    method order. *)
Definition methodTable (ci : nat) (c : ParsedClass) : list GraphNode :=
  imap (methodNode ci) (c_methods c).

(** The targets of the contains edges are, in order, the ids of the method
    nodes. *)
Definition containsPaired (s : Acc) : Prop :=
  e_target <$> edgesOfType Contains (edges s) = n_id <$> nodesOfType TMethod (nodes s).

(** Every class id held by the registry belongs to a visible class below
    position [j] that bears the registered name. *)
Definition classEntriesBelow (p : Props) (st : FilterState) (j : nat) (s : Acc) : Prop :=
  ∀ k cj, nodeMap s !! k = Some (classId cj) →
    cj < j ∧ ∃ c, classes p !! cj = Some c ∧ c_name c = k ∧
                  matchesSearch st k = true.

(** ** Decimal strings *)

Definition isDigitChar (c : ascii) : bool :=
  (48 <=? nat_of_ascii c)%nat && (nat_of_ascii c <=? 57)%nat.

(** Every character of [s] is a decimal digit. *)
Fixpoint digits (s : string) : Prop :=
  match s with
  | EmptyString => True
  | String c s' => isDigitChar c = true ∧ digits s'
  end.

(** ** Which ids the accumulator may hold during the passes *)

(** The node ids of [s] are pairwise distinct and all satisfy [U]. *)
Definition nodeIdsWithin (U : string → Prop) (s : Acc) : Prop :=
  NoDup (ids (nodes s)) ∧ ∀ x, x ∈ ids (nodes s) → U x.

Definition functionIdsBelow (j : nat) (x : string) : Prop :=
  ∃ i, i < j ∧ x = funcId i.

Definition entityIdsBelow (j : nat) (x : string) : Prop :=
  (∃ i, x = funcId i) ∨ (∃ ci, ci < j ∧ x = classId ci) ∨
  (∃ ci mi, ci < j ∧ x = methodId ci mi) ∨ (∃ b, x = baseStubId b).

Definition memberIdsBelow (j k : nat) (x : string) : Prop :=
  entityIdsBelow j x ∨ x = classId j ∨ ∃ mi, mi < k ∧ x = methodId j mi.

(** The edge ids of [s] are pairwise distinct and all satisfy [U]. *)
Definition edgeIdsWithin (U : string → Prop) (s : Acc) : Prop :=
  NoDup (e_id <$> edges s) ∧ ∀ x, x ∈ e_id <$> edges s → U x.

(** The id of a contains or inherits edge that leaves a class below [j]. *)
Definition structIdsBelow (j : nat) (x : string) : Prop :=
  ∃ ci rest, ci < j ∧
    (x = "edge-" +:+ classId ci +:+ String "-" rest ∨
     x = "inherit-" +:+ classId ci +:+ String "-" rest).

Definition containsIdsBelow (j k : nat) (x : string) : Prop :=
  structIdsBelow j x ∨
  ∃ mi, mi < k ∧ x = e_id (containsEdge (classId j) (methodId j mi)).

Definition inheritsIdsBelow (j k : nat) (x : string) : Prop :=
  structIdsBelow j x ∨
  (∃ mi, x = e_id (containsEdge (classId j) (methodId j mi))) ∨
  (∃ bi B, bi < k ∧ x = e_id (inheritsEdge (classId j) B bi)).

Definition callIdsBelow (j : nat) (x : string) : Prop :=
  (∃ ci, structIdsBelow ci x) ∨ ∃ i, i < j ∧ x = "call-" +:+ pretty i.

Definition methodCallIdsBelow (j : nat) (x : string) : Prop :=
  (∃ ci, structIdsBelow ci x) ∨ (∃ i : nat, x = "call-" +:+ pretty i) ∨
  ∃ i, i < j ∧ x = "method-call-" +:+ pretty i.

(** The ids of the element list [[...nodes, ...edges]] that the effect hands
    to the rendering engine. *)
Definition elementIds (g : Acc) : list string :=
  ids (nodes g) ++ (e_id <$> edges g).

(** The record [call] names an object that the registry resolves to [a] and
    a non-empty method name, and [t] is the id of the earliest pushed method
    node of that name in [ns]. *)
Definition resolvesMethodCall (reg : gmap string string) (ns : list GraphNode)
    (call : Relationship) (a t : string) : Prop :=
  resolves reg (object call) a ∧
  ∃ mn n, method call = Some mn ∧ mn ≠ "" ∧
          List.find (isMethodNamed mn) ns = Some n ∧ t = n_id n.

(** Every registry entry [k ↦ v] is backed by a node with id [v] and label
    [k]. *)
Definition registryLabelled (s : Acc) : Prop :=
  ∀ k v, nodeMap s !! k = Some v → ∃ n, n ∈ nodes s ∧ n_id n = v ∧ n_label n = k.

(** Every inherits edge leaves the node of a parsed class and targets a node
    that is labelled with the base name at the edge's base index. *)
Definition inheritsLabelled (p : Props) (s : Acc) : Prop :=
  ∀ e, e ∈ edges s → e_type e = Inherits →
    ∃ ci c bi b n, classes p !! ci = Some c ∧ c_bases c !! bi = Some b ∧
                   n ∈ nodes s ∧ n_label n = b ∧
                   e = inheritsEdge (classId ci) (n_id n) bi.

(** ** Style callbacks of the rendering engine

    The functions of the [style] table that the effect passes to the
    rendering engine; [type] is [ele.data("type")] and [nodeData] is
    [ele.data("nodeData")]. *)

Definition nodeTypeName (t : NodeType) : string :=
  match t with
  | TFunction => "function"
  | TClass => "class"
  | TMethod => "method"
  end.

Definition edgeTypeName (t : EdgeType) : string :=
  match t with
  | Calls => "calls"
  | Inherits => "inherits"
  | Contains => "contains"
  end.

Definition nd_methods (d : NodeData) : option (list ParsedFunction) :=
  match d with
  | ClassData c => Some (c_methods c)
  | FunctionData _ => None
  end.

Definition nd_args (d : NodeData) : option (list string) :=
  match d with
  | FunctionData f => Some (f_args f)
  | ClassData _ => None
  end.

(** [xs ? xs.length * k : 0] *)
Definition scaledLength {A : Type} (xs : option (list A)) (k : nat) : nat :=
  match xs with
  | Some l => length l * k
  | None => 0
  end.

Definition backgroundColor (type : string) : string :=
  if (type =? "function")%string then "#3B82F6"
  else if (type =? "class")%string then "#10B981"
  else if (type =? "method")%string then "#F59E0B"
  else "#6B7280".

Definition fontSize (type : string) (nodeData : NodeData) : string :=
  if (type =? "class")%string &&
     match nd_methods nodeData with
     | Some ms => (5 <? length ms)%nat
     | None => false
     end
  then "14px" else "12px".

Definition nodeWidth (type : string) (nodeData : NodeData) : nat :=
  let baseWidth :=
    if (type =? "class")%string then 60 + scaledLength (nd_methods nodeData) 3
    else if (type =? "function")%string then 50 + scaledLength (nd_args nodeData) 4
    else if (type =? "method")%string then 45 + scaledLength (nd_args nodeData) 3
    else 40 in
  Nat.min baseWidth 120.

Definition nodeHeight (type : string) (nodeData : NodeData) : nat :=
  let baseHeight :=
    if (type =? "class")%string then 45 + scaledLength (nd_methods nodeData) 2
    else 35 in
  Nat.min baseHeight 80.

Definition edgeWidth (type : string) : string :=
  if (type =? "calls")%string then "3px"
  else if (type =? "inherits")%string then "4px"
  else if (type =? "contains")%string then "2px"
  else "2px".

Definition lineColor (type : string) : string :=
  if (type =? "calls")%string then "#EF4444"
  else if (type =? "inherits")%string then "#8B5CF6"
  else if (type =? "contains")%string then "#06B6D4"
  else "#6B7280".

Definition targetArrowColor (type : string) : string :=
  if (type =? "calls")%string then "#EF4444"
  else if (type =? "inherits")%string then "#8B5CF6"
  else if (type =? "contains")%string then "#06B6D4"
  else "#6B7280".

Definition targetArrowShape (type : string) : string :=
  if (type =? "inherits")%string then "triangle"
  else if (type =? "contains")%string then "none"
  else "triangle".

Definition lineStyle (type : string) : string :=
  if (type =? "contains")%string then "dashed" else "solid".

(** ** The page that hosts the component *)

(** The fields of the parse result that the page counts and passes on. *)
Record ParseResult := {
  pr_functions : list ParsedFunction;
  pr_classes : list ParsedClass;
  pr_relationships : Relationships
}.

(** [classes.reduce((sum, cls) => sum + cls.methods.length, 0)], the "Total
    Methods" figure of the text view. *)
Definition totalMethods (cs : list ParsedClass) : nat :=
  foldl (λ sum cls, sum + length (c_methods cls)) 0 cs.

(** The default value of the [relationships] prop. *)
Definition defaultRelationships : Relationships :=
  {| function_calls := []; class_inheritance := [];
     method_calls := []; attribute_access := [] |}.

(** [<KnowledgeGraph functions={result.functions} classes={result.classes} />]:
    the page passes no [relationships], so the default applies. *)
Definition graphViewProps (r : ParseResult) : Props :=
  {| functions := pr_functions r; classes := pr_classes r;
     relationships := defaultRelationships |}.

(** ** The state of the component and its event handlers *)

Inductive Layout := cose | dagre | klay.

Record UiState := {
  layout : Layout;
  filterState : FilterState;
  selectedNode : option NodeData
}.

(** The initial values of the [useState] hooks. *)
Definition initialUi : UiState :=
  {| layout := cose;
     filterState :=
       {| searchTerm := ""; showFunctions := true; showClasses := true;
          showMethods := true; showRelationships := true |};
     selectedNode := None |}.

Definition setShowFunctions (b : bool) (st : FilterState) : FilterState :=
  {| searchTerm := searchTerm st; showFunctions := b;
     showClasses := showClasses st; showMethods := showMethods st;
     showRelationships := showRelationships st |}.

Definition setShowClasses (b : bool) (st : FilterState) : FilterState :=
  {| searchTerm := searchTerm st; showFunctions := showFunctions st;
     showClasses := b; showMethods := showMethods st;
     showRelationships := showRelationships st |}.

Definition setShowMethods (b : bool) (st : FilterState) : FilterState :=
  {| searchTerm := searchTerm st; showFunctions := showFunctions st;
     showClasses := showClasses st; showMethods := b;
     showRelationships := showRelationships st |}.

(** What the user can do: the layout selector, the search box, the three
    checkboxes, and taps on a node, on an edge or on the background. *)
Inductive UiEvent :=
| SelectLayout (l : Layout)
| TypeSearch (term : string)
| CheckFunctions (b : bool)
| CheckClasses (b : bool)
| CheckMethods (b : bool)
| TapNode (n : GraphNode)
| TapEdge (e : GraphEdge)
| TapBackground.

Definition withFilter (f : FilterState → FilterState) (u : UiState) : UiState :=
  {| layout := layout u; filterState := f (filterState u);
     selectedNode := selectedNode u |}.

Definition withSelection (sel : option NodeData) (u : UiState) : UiState :=
  {| layout := layout u; filterState := filterState u; selectedNode := sel |}.

(** The [onChange] handlers of the controls and the two [tap] handlers: a
    tap on a node selects its payload, a tap whose target is the engine
    itself clears the selection, any other tap changes nothing. *)
Definition handle (u : UiState) (ev : UiEvent) : UiState :=
  match ev with
  | SelectLayout l =>
      {| layout := l; filterState := filterState u; selectedNode := selectedNode u |}
  | TypeSearch term => withFilter (setSearchTerm term) u
  | CheckFunctions b => withFilter (setShowFunctions b) u
  | CheckClasses b => withFilter (setShowClasses b) u
  | CheckMethods b => withFilter (setShowMethods b) u
  | TapNode n => withSelection (Some (n_nodeData n)) u
  | TapEdge _ => u
  | TapBackground => withSelection None u
  end.

Definition isSelectionTap (ev : UiEvent) : bool :=
  match ev with
  | TapNode _ | TapBackground => true
  | _ => false
  end.

(** * Properties *)

(** ** Loop rules for [forEach] *)

(** Invariant rule: [P j s] holds of the accumulator before iteration [j]. *)
Lemma forEachFrom_inv {A St : Type} (f : A → nat → St → St) (P : nat → St → Prop) l i s :
  P i s →
  (∀ j x s', l !! j = Some x → P (i + j) s' → P (S (i + j)) (f x (i + j) s')) →
  P (i + length l) (forEachFrom f i l s).
Proof.
  revert i s. induction l as [|x l IH]; intros i s H0 Hstep; simpl.
  - by rewrite Nat.add_0_r.
  - replace (i + S (length l)) with (S i + length l) by lia.
    apply IH.
    + specialize (Hstep 0 x s). rewrite Nat.add_0_r in Hstep. by apply Hstep.
    + intros j y s' Hy HP.
      specialize (Hstep (S j) y s').
      replace (i + S j) with (S i + j) in Hstep by lia. by apply Hstep.
Qed.

Lemma forEach_inv {A St : Type} (f : A → nat → St → St) (P : nat → St → Prop) l s :
  P 0 s →
  (∀ j x s', l !! j = Some x → P j s' → P (S j) (f x j s')) →
  P (length l) (forEach f l s).
Proof. intros H0 Hstep. by apply (forEachFrom_inv f P l 0 s). Qed.

(** Index-free version. *)
Lemma forEach_preserve {A St : Type} (f : A → nat → St → St) (P : St → Prop) l s :
  P s →
  (∀ j x s', l !! j = Some x → P s' → P (f x j s')) →
  P (forEach f l s).
Proof. intros H0 Hstep. by apply (forEach_inv f (λ _, P) l s). Qed.

(** ** Identifiers *)

Lemma truthy_funcId i : truthy (funcId i) = true.
Proof. done. Qed.
Lemma truthy_classId i : truthy (classId i) = true.
Proof. done. Qed.
Lemma truthy_baseStubId b : truthy (baseStubId b) = true.
Proof. done. Qed.

Lemma funcId_inj i j : funcId i = funcId j → i = j.
Proof. unfold funcId. intros H. by apply String.app_inj, pretty_nat_inj in H. Qed.
Lemma classId_inj i j : classId i = classId j → i = j.
Proof. unfold classId. intros H. by apply String.app_inj, pretty_nat_inj in H. Qed.
Lemma baseStubId_inj a b : baseStubId a = baseStubId b → a = b.
Proof. unfold baseStubId. intros H. by apply String.app_inj in H. Qed.

Lemma isStubId_baseStubId b : isStubId (baseStubId b) = true.
Proof. unfold isStubId, baseStubId. simpl. by destruct b. Qed.
Lemma isStubId_funcId i : isStubId (funcId i) = false.
Proof. done. Qed.
Lemma isStubId_classId i : isStubId (classId i) = false.
Proof. done. Qed.
Lemma isStubId_methodId i j : isStubId (methodId i j) = false.
Proof. done. Qed.

Lemma funcId_not_base i b : funcId i ≠ baseStubId b.
Proof. done. Qed.
Lemma classId_not_base i b : classId i ≠ baseStubId b.
Proof. done. Qed.
Lemma methodId_not_base i j b : methodId i j ≠ baseStubId b.
Proof. done. Qed.
Lemma methodId_not_func i j k : methodId i j ≠ funcId k.
Proof. done. Qed.
Lemma methodId_not_class i j k : methodId i j ≠ classId k.
Proof. done. Qed.
Lemma funcId_not_class i j : funcId i ≠ classId j.
Proof. done. Qed.

Lemma filter_none {A} (P : A → Prop) `{∀ x, Decision (P x)} (l : list A) :
  (∀ x, x ∈ l → ¬ P x) → filter P l = [].
Proof.
  induction l as [|x l IH]; intros Hl; [done|].
  rewrite filter_cons_False by (apply Hl, list_elem_of_here).
  apply IH. intros y Hy. apply Hl. by apply list_elem_of_further.
Qed.

Lemma ids_app ns ms : ids (ns ++ ms) = ids ns ++ ids ms.
Proof. apply fmap_app. Qed.

Lemma elem_of_ids ns n : n ∈ ns → n_id n ∈ ids ns.
Proof. intros H. by apply list_elem_of_fmap_2. Qed.

Lemma find_hasId_None i ns : List.find (hasId i) ns = None ↔ i ∉ ids ns.
Proof.
  induction ns as [|n ns IH]; simpl.
  - split; [intros _; apply not_elem_of_nil|done].
  - unfold hasId at 1. case_bool_decide as Hn.
    + split; [done|]. intros []. rewrite <- Hn. apply list_elem_of_here.
    + rewrite IH, not_elem_of_cons. split; [intros ?; split; [congruence|done]|by intros [_ ?]].
Qed.

Lemma find_hasId_Some i ns n : List.find (hasId i) ns = Some n → i ∈ ids ns.
Proof.
  intros H. destruct (decide (i ∈ ids ns)) as [|Hn]; [done|].
  apply find_hasId_None in Hn. congruence.
Qed.

(** ** The invariant is established and preserved *)

Section Invariant.
Variable p : Props.
Variable st : FilterState.

Local Abbreviation nodeForm := (nodeForm p st).
Local Abbreviation regEntry := (regEntry p st).
Local Abbreviation WF := (WF p st).
Local Abbreviation edgeForm := (edgeForm st).

Lemma regEntry_truthy k v : regEntry k v → truthy v = true.
Proof. by destruct 1. Qed.

Lemma regEntry_not_method k v ci mi : regEntry k v → v ≠ methodId ci mi.
Proof. by destruct 1. Qed.

Lemma nodeForm_method n :
  nodeForm n → n_type n = TMethod → ∃ ci mi, n_id n = methodId ci mi.
Proof. destruct 1; try done. eauto. Qed.

Lemma nodeForm_base n b :
  nodeForm n → n_id n = baseStubId b → n = stubNode (baseStubId b) b.
Proof.
  destruct 1 as [| | |ci c b' ? ? ? ?]; try done.
  simpl. intros Heq%baseStubId_inj. by subst.
Qed.

Lemma WF_empty : WF emptyAcc.
Proof.
  split; simpl.
  - intros n H. by apply elem_of_nil in H.
  - intros k v H. by rewrite lookup_empty in H.
  - intros e H. by apply elem_of_nil in H.
  - intros b. simpl. lia.
Qed.

(** Pushing a node that is not a stub. *)
Lemma WF_pushNode n s :
  WF s → nodeForm n → (∀ b, n_id n ≠ baseStubId b) → WF (pushNode n s).
Proof.
  intros [Hn Hr He Hs] Hform Hid. split; simpl.
  - intros m [Hm|Hm%list_elem_of_singleton]%elem_of_app; [by apply Hn|by subst].
  - intros k v Hk. destruct (Hr k v Hk) as [? ?]. split; [done|].
    rewrite ids_app. apply elem_of_app. by left.
  - intros e Hin. destruct (He e Hin) as (? & ? & ?).
    rewrite ids_app, !elem_of_app. auto.
  - intros b. rewrite filter_app, length_app.
    rewrite filter_cons_False by apply Hid. specialize (Hs b). simpl. lia.
Qed.

Lemma WF_setName k v s :
  WF s → regEntry k v → v ∈ ids (nodes s) → WF (setName k v s).
Proof.
  intros [Hn Hr He Hs] Hreg Hv. split; simpl; try done.
  intros k' v' Hk. destruct (decide (k = k')) as [->|Hne].
  - rewrite lookup_insert_eq in Hk. by simplify_eq.
  - rewrite lookup_insert_ne in Hk by done. by apply Hr.
Qed.

Lemma WF_pushEdge e s :
  WF s → edgeForm e → e_source e ∈ ids (nodes s) → e_target e ∈ ids (nodes s) →
  WF (pushEdge e s).
Proof.
  intros [Hn Hr He Hs] Hform Hsrc Htgt. split; simpl; try done.
  intros e' [Hin|Hin%list_elem_of_singleton]%elem_of_app; [by apply He|by subst].
Qed.

Lemma ids_pushNode n s : n_id n ∈ ids (nodes (pushNode n s)).
Proof. simpl. rewrite ids_app. apply elem_of_app. right. apply list_elem_of_here. Qed.

Lemma WF_addFunction f i s :
  WF s → functions p !! i = Some f → showFunctions st = true →
  WF (addFunction st f i s).
Proof.
  intros Hwf Hf Hshow. unfold addFunction.
  destruct (matchesSearch st (f_name f)) eqn:Hm; [|done].
  apply WF_setName.
  - apply WF_pushNode; [done|by eapply form_function|intros b; apply funcId_not_base].
  - by eapply reg_function.
  - apply (ids_pushNode (functionNode i f)).
Qed.

Lemma WF_addMethod ci c m mi s :
  WF s → classes p !! ci = Some c → c_methods c !! mi = Some m →
  showClasses st = true → matchesSearch st (c_name c) = true →
  showMethods st = true → classId ci ∈ ids (nodes s) →
  WF (addMethod st ci (classId ci) m mi s) ∧
  classId ci ∈ ids (nodes (addMethod st ci (classId ci) m mi s)).
Proof.
  intros Hwf Hc Hmth Hshow Hcm Hsm Hcid. unfold addMethod.
  destruct (matchesSearch st (f_name m)) eqn:Hm; [|done].
  split.
  - apply WF_pushEdge.
    + apply WF_pushNode; [done|by eapply form_method|intros b; apply methodId_not_base].
    + by constructor.
    + simpl. rewrite ids_app. apply elem_of_app. by left.
    + apply (ids_pushNode (methodNode ci mi m)).
  - simpl. rewrite ids_app. apply elem_of_app. by left.
Qed.

Lemma resolveBase_WF s base :
  WF s → resolveBase (nodeMap s) base ∉ ids (nodes s) →
  resolveBase (nodeMap s) base = baseStubId base.
Proof.
  intros Hwf. unfold resolveBase.
  destruct (nodeMap s !! base) as [v|] eqn:Hv; [|done].
  destruct (wf_reg Hwf base v Hv) as [Hreg Hin].
  by rewrite (regEntry_truthy _ _ Hreg).
Qed.

Lemma WF_addBase ci c base bi s :
  WF s → classes p !! ci = Some c → base ∈ c_bases c →
  showClasses st = true → matchesSearch st (c_name c) = true →
  classId ci ∈ ids (nodes s) →
  WF (addBase (classId ci) base bi s) ∧
  classId ci ∈ ids (nodes (addBase (classId ci) base bi s)).
Proof.
  intros Hwf Hc Hb Hshow Hcm Hcid. unfold addBase.
  destruct (List.find _ (nodes s)) as [n|] eqn:Hfind.
  - split; [|done]. apply WF_pushEdge; try done; [constructor|].
    by eapply find_hasId_Some.
  - apply find_hasId_None in Hfind.
    pose proof (resolveBase_WF s base Hwf Hfind) as Hres.
    rewrite Hres in Hfind |- *. clear Hres.
    split.
    + apply WF_pushEdge.
      * apply WF_setName; [|constructor|apply (ids_pushNode (stubNode _ _))].
        destruct Hwf as [Hn Hr He Hs]. split; simpl.
        -- intros m [Hm|Hm%list_elem_of_singleton]%elem_of_app; [by apply Hn|].
           subst. by eapply form_stub.
        -- intros k v Hk. destruct (Hr k v Hk) as [? ?]. split; [done|].
           rewrite ids_app. apply elem_of_app. by left.
        -- intros e Hin. destruct (He e Hin) as (? & ? & ?).
           rewrite ids_app, !elem_of_app. auto.
        -- intros b. rewrite filter_app, length_app.
           destruct (decide (base = b)) as [->|Hne].
           ++ rewrite filter_cons_True by done. simpl.
              assert (filter (λ n, n_id n = baseStubId b) (nodes s) = []) as ->; [|done].
              apply filter_none. intros x Hx Hid.
              apply Hfind. rewrite <- Hid. by apply elem_of_ids.
           ++ rewrite filter_cons_False.
              ** specialize (Hs b). simpl. lia.
              ** simpl. intros H%baseStubId_inj. done.
      * constructor.
      * simpl. rewrite ids_app. apply elem_of_app. by left.
      * apply (ids_pushNode (stubNode _ _)).
    + simpl. rewrite ids_app. apply elem_of_app. by left.
Qed.

Lemma WF_addClass c ci s :
  WF s → classes p !! ci = Some c → showClasses st = true →
  WF (addClass st c ci s).
Proof.
  intros Hwf Hc Hshow. unfold addClass.
  destruct (matchesSearch st (c_name c)) eqn:Hm; [|done].
  set (s1 := setName _ _ _).
  assert (WF s1 ∧ classId ci ∈ ids (nodes s1)) as H1.
  { split; [|apply (ids_pushNode (classNode ci c))].
    apply WF_setName.
    - apply WF_pushNode; [done|by eapply form_class|intros b; apply classId_not_base].
    - by eapply reg_class.
    - apply (ids_pushNode (classNode ci c)). }
  set (s2 := if showMethods st then _ else _).
  assert (WF s2 ∧ classId ci ∈ ids (nodes s2)) as H2.
  { subst s2. destruct (showMethods st) eqn:Hsm; [|done].
    apply (forEach_preserve _ (λ s, WF s ∧ classId ci ∈ ids (nodes s))); [done|].
    intros j x s' Hx [? ?]. by eapply WF_addMethod. }
  destruct (0 <? length _)%nat; [|by destruct H2].
  cut (WF (forEach (addBase (classId ci)) (c_bases c) s2) ∧
       classId ci ∈ ids (nodes (forEach (addBase (classId ci)) (c_bases c) s2))).
  { by intros [? _]. }
  apply (forEach_preserve _ (λ s, WF s ∧ classId ci ∈ ids (nodes s))); [done|].
  intros j x s' Hx [? ?]. eapply WF_addBase; eauto.
  by eapply list_elem_of_lookup_2.
Qed.

Lemma WF_addFunctionCall call i s : WF s → WF (addFunctionCall call i s).
Proof.
  intros Hwf. unfold addFunctionCall.
  destruct (present _ (callee call)) as [ce|]; [|done].
  destruct (present _ (caller call)) as [cr|]; [|done].
  destruct (nodeMap s !! cr) as [a|] eqn:Ha; [|done].
  destruct (nodeMap s !! ce) as [b|] eqn:Hb; [|done].
  destruct (truthy a && truthy b && negb (bool_decide (a = b))) eqn:Hcond; [|done].
  apply andb_prop in Hcond as [_ Hne].
  apply negb_true_iff, bool_decide_eq_false in Hne.
  apply WF_pushEdge; [done|by constructor| |].
  - apply (wf_reg Hwf cr a Ha).
  - apply (wf_reg Hwf ce b Hb).
Qed.

Lemma find_isMethodNamed mn ns n :
  List.find (isMethodNamed mn) ns = Some n →
  n ∈ ns ∧ n_type n = TMethod ∧ nd_name (n_nodeData n) = mn.
Proof.
  intros [Hin Hp]%find_some. apply list_elem_of_In in Hin.
  unfold isMethodNamed in Hp.
  apply andb_prop in Hp as [[Ht Hname]%andb_prop _].
  apply bool_decide_eq_true in Ht, Hname. done.
Qed.

Lemma WF_addMethodCall call i s : WF s → WF (addMethodCall call i s).
Proof.
  intros Hwf. unfold addMethodCall.
  destruct (object call) as [o|]; [|done].
  destruct (method call) as [mn|]; [|done].
  destruct (_ && _ && _); [|done].
  destruct (nodeMap s !! o) as [a|] eqn:Ha; [|done].
  destruct (List.find _ _) as [n|] eqn:Hfind; [|done].
  destruct (truthy a); [|done].
  apply find_isMethodNamed in Hfind as (Hin & Hty & _).
  destruct (wf_reg Hwf o a Ha) as [Hreg Hain].
  destruct (nodeForm_method n (wf_nodes Hwf n Hin) Hty) as (ci & mi & Hid).
  apply WF_pushEdge; [done| | done |by apply elem_of_ids].
  constructor. rewrite Hid. by eapply regEntry_not_method.
Qed.

Lemma WF_buildEntities : WF (buildEntities p st).
Proof.
  unfold buildEntities.
  set (s1 := if showFunctions st then _ else _).
  assert (WF s1) as H1.
  { subst s1. destruct (showFunctions st) eqn:Hsf; [|apply WF_empty].
    apply forEach_preserve; [apply WF_empty|].
    intros j x s' Hx Hwf. by apply WF_addFunction. }
  destruct (showClasses st) eqn:Hsc; [|done].
  apply forEach_preserve; [done|].
  intros j x s' Hx Hwf. by apply WF_addClass.
Qed.

Lemma WF_buildRelationships s : WF s → WF (buildRelationships p s).
Proof.
  intros Hwf. unfold buildRelationships.
  apply forEach_preserve.
  - apply forEach_preserve; [done|]. intros. by apply WF_addFunctionCall.
  - intros. by apply WF_addMethodCall.
Qed.

Lemma WF_transformDataToGraph : WF (transformDataToGraph p st).
Proof.
  unfold transformDataToGraph. destruct (showRelationships st).
  - apply WF_buildRelationships, WF_buildEntities.
  - apply WF_buildEntities.
Qed.

End Invariant.

(** ** Frame lemmas: what each callback appends *)

Section Appends.
Context {X : Type}.
Implicit Types (R : X → Prop) (l : list X).

Lemma appends_refl R l : appends R l l.
Proof. exists []. by rewrite app_nil_r. Qed.

Lemma appends_trans R l1 l2 l3 :
  appends R l1 l2 → appends R l2 l3 → appends R l1 l3.
Proof.
  intros (e1 & -> & H1) (e2 & -> & H2). exists (e1 ++ e2).
  split; [by rewrite app_assoc|by apply Forall_app].
Qed.

Lemma appends_snoc R l x : R x → appends R l (l ++ [x]).
Proof. intros Hx. exists [x]. split; [done|]. by apply Forall_singleton. Qed.

Lemma appends_mono R R' l l' :
  (∀ x, R x → R' x) → appends R l l' → appends R' l l'.
Proof.
  intros Himp (e & -> & He). exists e. split; [done|].
  eapply Forall_impl; eauto.
Qed.

Lemma appends_elem R l l' x : appends R l l' → x ∈ l → x ∈ l'.
Proof. intros (e & -> & _) Hx. apply elem_of_app. by left. Qed.

Lemma appends_new R l l' x : appends R l l' → x ∈ l' → x ∈ l ∨ R x.
Proof.
  intros (e & -> & He) [Hx|Hx]%elem_of_app; [by left|right].
  rewrite Forall_forall in He. by apply He.
Qed.

Lemma appends_nil R l' : appends R [] l' → ∀ x, x ∈ l' → R x.
Proof.
  intros Ha x Hx. destruct (appends_new _ _ _ _ Ha Hx) as [Hnil|]; [|done].
  by apply elem_of_nil in Hnil.
Qed.

Lemma appends_filter_out R (F : X → Prop) `{∀ x, Decision (F x)} l l' :
  appends R l l' → (∀ x, R x → ¬ F x) → filter F l' = filter F l.
Proof.
  intros (e & -> & He) Hout. rewrite filter_app.
  rewrite (filter_none F e), app_nil_r; [done|].
  rewrite Forall_forall in He. intros x Hx. by apply Hout, He.
Qed.

Lemma forEach_appends {A St : Type} (proj : St → list X) R
    (f : A → nat → St → St) (xs : list A) s :
  (∀ j x s', xs !! j = Some x → appends R (proj s') (proj (f x j s'))) →
  appends R (proj s) (proj (forEach f xs s)).
Proof.
  intros Hstep.
  apply (forEach_preserve f (λ s', appends R (proj s) (proj s'))).
  - apply appends_refl.
  - intros j x s' Hx Hs'. eapply appends_trans; [done|]. by eapply Hstep.
Qed.

End Appends.

Lemma addFunction_nodes st f i s :
  appends (λ n, n_type n = TFunction) (nodes s) (nodes (addFunction st f i s)).
Proof.
  unfold addFunction. destruct (matchesSearch st (f_name f)).
  - by apply appends_snoc.
  - apply appends_refl.
Qed.

Lemma addFunction_edges st f i s : edges (addFunction st f i s) = edges s.
Proof. unfold addFunction. by destruct (matchesSearch st (f_name f)). Qed.

Lemma addMethod_nodes st ci cid m mi s :
  appends (λ n, n_type n = TMethod) (nodes s) (nodes (addMethod st ci cid m mi s)).
Proof.
  unfold addMethod. destruct (matchesSearch st (f_name m)).
  - by apply appends_snoc.
  - apply appends_refl.
Qed.

Lemma addMethod_edges st ci cid m mi s :
  appends (λ e, e_type e = Contains ∧ e_source e = cid)
    (edges s) (edges (addMethod st ci cid m mi s)).
Proof.
  unfold addMethod. destruct (matchesSearch st (f_name m)).
  - by apply appends_snoc.
  - apply appends_refl.
Qed.

Lemma addBase_nodes cid base bi s :
  appends (λ n, n_type n = TClass) (nodes s) (nodes (addBase cid base bi s)).
Proof.
  unfold addBase. destruct (List.find _ (nodes s)); simpl.
  - apply appends_refl.
  - by apply appends_snoc.
Qed.

Lemma addBase_edges cid base bi s :
  edges (addBase cid base bi s) =
  edges s ++ [inheritsEdge cid (resolveBase (nodeMap s) base) bi].
Proof. unfold addBase. by destruct (List.find _ (nodes s)). Qed.

Lemma addBase_edges_appends cid base bi s :
  appends (λ e, e_type e = Inherits ∧ e_source e = cid)
    (edges s) (edges (addBase cid base bi s)).
Proof. rewrite addBase_edges. by apply appends_snoc. Qed.

Lemma addClass_unfold st c ci s :
  addClass st c ci s =
  if matchesSearch st (c_name c) then
    let s1 := setName (c_name c) (classId ci) (pushNode (classNode ci c) s) in
    let s2 := if showMethods st
              then forEach (addMethod st ci (classId ci)) (c_methods c) s1 else s1 in
    forEach (addBase (classId ci)) (c_bases c) s2
  else s.
Proof.
  unfold addClass. destruct (matchesSearch st (c_name c)); [|done].
  by destruct (c_bases c).
Qed.

Lemma addClass_nodes st c ci s :
  appends (λ n, n_type n = TClass ∨ (showMethods st = true ∧ n_type n = TMethod))
    (nodes s) (nodes (addClass st c ci s)).
Proof.
  rewrite addClass_unfold. destruct (matchesSearch st (c_name c)); [|apply appends_refl].
  cbv zeta. set (s1 := setName _ _ _). set (s2 := if showMethods st then _ else _).
  apply (appends_trans _ _ (nodes s1)); [|apply (appends_trans _ _ (nodes s2))].
  - apply (appends_snoc _ (nodes s) (classNode ci c)). by left.
  - subst s2. destruct (showMethods st) eqn:Hsm; [|apply appends_refl].
    apply (forEach_appends nodes). intros j x s' _.
    eapply appends_mono; [|apply addMethod_nodes]. intros n Hn. by right.
  - apply (forEach_appends nodes). intros j x s' _.
    eapply appends_mono; [|apply addBase_nodes]. intros n Hn. by left.
Qed.

Lemma addClass_edges st c ci s :
  appends (λ e, e_source e = classId ci ∧
                (e_type e = Inherits ∨ (showMethods st = true ∧ e_type e = Contains)))
    (edges s) (edges (addClass st c ci s)).
Proof.
  rewrite addClass_unfold. destruct (matchesSearch st (c_name c)); [|apply appends_refl].
  cbv zeta. set (s1 := setName _ _ _). set (s2 := if showMethods st then _ else _).
  apply (appends_trans _ _ (edges s2)).
  - change (edges s) with (edges s1).
    subst s2. destruct (showMethods st) eqn:Hsm; [|apply appends_refl].
    apply (forEach_appends edges). intros j x s' _.
    eapply appends_mono; [|apply addMethod_edges]. intros e [? ?]. by split; [|right].
  - apply (forEach_appends edges). intros j x s' _.
    eapply appends_mono; [|apply addBase_edges_appends]. intros e [? ?]. by split; [|left].
Qed.

Lemma addFunctionCall_frame call i s :
  nodes (addFunctionCall call i s) = nodes s ∧
  nodeMap (addFunctionCall call i s) = nodeMap s ∧
  appends (λ e, e_type e = Calls) (edges s) (edges (addFunctionCall call i s)).
Proof.
  assert (nodes s = nodes s ∧ nodeMap s = nodeMap s ∧
          appends (λ e, e_type e = Calls) (edges s) (edges s)) as Hskip.
  { split_and!; [done|done|apply appends_refl]. }
  unfold addFunctionCall.
  destruct (present _ (callee call)) as [ce|]; [|done].
  destruct (present _ (caller call)) as [cr|]; [|done].
  destruct (nodeMap s !! cr) as [a|]; [|done].
  destruct (nodeMap s !! ce) as [b|]; [|done].
  destruct (truthy a && truthy b && negb (bool_decide (a = b))); [|done].
  split_and!; [done|done|]. by apply appends_snoc.
Qed.

Lemma addMethodCall_frame call i s :
  nodes (addMethodCall call i s) = nodes s ∧
  nodeMap (addMethodCall call i s) = nodeMap s ∧
  appends (λ e, e_type e = Calls) (edges s) (edges (addMethodCall call i s)).
Proof.
  assert (nodes s = nodes s ∧ nodeMap s = nodeMap s ∧
          appends (λ e, e_type e = Calls) (edges s) (edges s)) as Hskip.
  { split_and!; [done|done|apply appends_refl]. }
  unfold addMethodCall.
  destruct (object call) as [o|]; [|done].
  destruct (method call) as [mn|]; [|done].
  destruct (_ && _ && _); [|done].
  destruct (nodeMap s !! o) as [a|]; [|done].
  destruct (List.find _ _) as [n|]; [|done].
  destruct (truthy a); [|done].
  split_and!; [done|done|]. by apply appends_snoc.
Qed.

Lemma buildRelationships_frame p s :
  nodes (buildRelationships p s) = nodes s ∧
  nodeMap (buildRelationships p s) = nodeMap s ∧
  appends (λ e, e_type e = Calls) (edges s) (edges (buildRelationships p s)).
Proof.
  unfold buildRelationships.
  set (P := λ s' : Acc, nodes s' = nodes s ∧ nodeMap s' = nodeMap s ∧
                        appends (λ e, e_type e = Calls) (edges s) (edges s')).
  apply (forEach_preserve _ P); [apply (forEach_preserve _ P)|].
  - split_and!; [done|done|apply appends_refl].
  - intros j x s' _ (Hn & Hm & He).
    destruct (addFunctionCall_frame x j s') as (Hn' & Hm' & He').
    split_and!; [congruence|congruence|by eapply appends_trans].
  - intros j x s' _ (Hn & Hm & He).
    destruct (addMethodCall_frame x j s') as (Hn' & Hm' & He').
    split_and!; [congruence|congruence|by eapply appends_trans].
Qed.

(** The function pass pushes function nodes only and no edge. *)
Lemma functions_pass_frame st fs :
  appends (λ n, n_type n = TFunction) [] (nodes (forEach (addFunction st) fs emptyAcc)) ∧
  edges (forEach (addFunction st) fs emptyAcc) = [].
Proof.
  split.
  - apply (forEach_appends nodes). intros. apply addFunction_nodes.
  - apply (forEach_preserve _ (λ s, edges s = [])); [done|].
    intros j x s' _ Hs'. by rewrite addFunction_edges.
Qed.

(** The entity passes push no [calls] edge. *)
Lemma buildEntities_edges p st e :
  e ∈ edges (buildEntities p st) → e_type e = Inherits ∨ e_type e = Contains.
Proof.
  unfold buildEntities. set (s1 := if showFunctions st then _ else _).
  assert (edges s1 = []) as Hs1.
  { subst s1. destruct (showFunctions st); [|done]. apply functions_pass_frame. }
  destruct (showClasses st).
  - assert (appends (λ e, e_type e = Inherits ∨ e_type e = Contains) (edges s1)
              (edges (forEach (addClass st) (classes p) s1))) as Ha.
    { apply (forEach_appends edges). intros j x s' _.
      eapply appends_mono; [|apply addClass_edges].
      intros e' [_ [?|[_ ?]]]; auto. }
    rewrite Hs1 in Ha. apply (appends_nil _ _ Ha).
  - rewrite Hs1. intros H. by apply elem_of_nil in H.
Qed.

(** [buildEntities] never reads [showRelationships]. *)
Lemma buildEntities_setShowRelationships p st b :
  buildEntities p (setShowRelationships b st) = buildEntities p st.
Proof. reflexivity. Qed.

(** ** Every visible entity gets its node *)

Lemma forEach_elem {A St X : Type} (proj : St → list X)
    (f : A → nat → St → St) (l : list A) s j x y :
  (∀ z k s' y', y' ∈ proj s' → y' ∈ proj (f z k s')) →
  l !! j = Some x →
  (∀ s', y ∈ proj (f x j s')) →
  y ∈ proj (forEach f l s).
Proof.
  intros Hmono Hj Hput.
  cut (j < length l → y ∈ proj (forEach f l s)).
  { intros H. apply H. by eapply lookup_lt_Some. }
  apply (forEach_inv f (λ k s', j < k → y ∈ proj s')); [lia|].
  intros k z s' Hz IH Hlt. destruct (decide (j = k)) as [->|Hne].
  - assert (z = x) as -> by congruence. apply Hput.
  - apply Hmono, IH. lia.
Qed.

Lemma addFunction_pushes st f i s :
  matchesSearch st (f_name f) = true → functionNode i f ∈ nodes (addFunction st f i s).
Proof.
  intros Hm. unfold addFunction. rewrite Hm. simpl.
  apply elem_of_app. right. apply list_elem_of_here.
Qed.

Lemma addClass_pushes_class st c ci s :
  matchesSearch st (c_name c) = true → classNode ci c ∈ nodes (addClass st c ci s).
Proof.
  intros Hm. rewrite addClass_unfold, Hm. cbv zeta.
  set (s1 := setName _ _ _). set (s2 := if showMethods st then _ else _).
  assert (classNode ci c ∈ nodes s2) as H2.
  { subst s2. assert (classNode ci c ∈ nodes s1) as H1.
    { simpl. apply elem_of_app. right. apply list_elem_of_here. }
    destruct (showMethods st); [|done].
    eapply appends_elem; [|done].
    apply (forEach_appends nodes). intros. apply addMethod_nodes. }
  eapply appends_elem; [|done].
  apply (forEach_appends nodes). intros. apply addBase_nodes.
Qed.

Lemma addClass_pushes_method st c ci s mi m :
  matchesSearch st (c_name c) = true → showMethods st = true →
  c_methods c !! mi = Some m → matchesSearch st (f_name m) = true →
  methodNode ci mi m ∈ nodes (addClass st c ci s).
Proof.
  intros Hm Hsm Hmi Hmm. rewrite addClass_unfold, Hm, Hsm. cbv zeta.
  eapply appends_elem.
  { apply (forEach_appends nodes). intros. apply addBase_nodes. }
  apply (forEach_elem nodes _ _ _ mi m); [|done|].
  - intros z k s' y' Hy'. eapply appends_elem; [apply addMethod_nodes|done].
  - intros s'. unfold addMethod. rewrite Hmm. simpl.
    apply elem_of_app. right. apply list_elem_of_here.
Qed.

Lemma nodes_transformDataToGraph p st :
  nodes (transformDataToGraph p st) = nodes (buildEntities p st).
Proof.
  unfold transformDataToGraph. destruct (showRelationships st); [|done].
  apply buildRelationships_frame.
Qed.

Lemma nodeMap_transformDataToGraph p st :
  nodeMap (transformDataToGraph p st) = registry p st.
Proof.
  unfold transformDataToGraph, registry. destruct (showRelationships st); [|done].
  apply buildRelationships_frame.
Qed.

Lemma addClass_mono st z k s y : y ∈ nodes s → y ∈ nodes (addClass st z k s).
Proof. intros Hy. eapply appends_elem; [apply addClass_nodes|done]. Qed.

Lemma addFunction_mono st z k s y : y ∈ nodes s → y ∈ nodes (addFunction st z k s).
Proof. intros Hy. eapply appends_elem; [apply addFunction_nodes|done]. Qed.

Lemma nodeFor_complete p st o n :
  nodeFor p st o = Some n → n ∈ nodes (transformDataToGraph p st).
Proof.
  rewrite nodes_transformDataToGraph. unfold buildEntities.
  destruct o as [i|ci|ci mi]; simpl; intros H.
  - destruct (functions p !! i) as [f|] eqn:Hf; [|done]. simpl in H.
    destruct (showFunctions st); [|done]. simpl in H.
    destruct (matchesSearch st (f_name f)) eqn:Hm; [|done]. simplify_eq.
    assert (functionNode i f ∈ nodes (forEach (addFunction st) (functions p) emptyAcc)) as H1.
    { apply (forEach_elem nodes _ _ _ i f); [apply addFunction_mono|done|].
      intros s'. by apply addFunction_pushes. }
    destruct (showClasses st); [|done].
    eapply appends_elem; [|done].
    apply (forEach_appends nodes). intros. apply addClass_nodes.
  - destruct (classes p !! ci) as [c|] eqn:Hc; [|done]. simpl in H.
    destruct (showClasses st); [|done]. simpl in H.
    destruct (matchesSearch st (c_name c)) eqn:Hm; [|done]. simplify_eq.
    apply (forEach_elem nodes _ _ _ ci c); [apply addClass_mono|done|].
    intros s'. by apply addClass_pushes_class.
  - destruct (classes p !! ci) as [c|] eqn:Hc; [|done]. simpl in H.
    destruct (c_methods c !! mi) as [m|] eqn:Hmi; [|done]. simpl in H.
    destruct (showClasses st); [|done]. simpl in H.
    destruct (matchesSearch st (c_name c)) eqn:Hm; [|done]. simpl in H.
    destruct (showMethods st) eqn:Hsm; [|done]. simpl in H.
    destruct (matchesSearch st (f_name m)) eqn:Hmm; [|done]. simplify_eq.
    apply (forEach_elem nodes _ _ _ ci c); [apply addClass_mono|done|].
    intros s'. by apply addClass_pushes_method.
Qed.

Lemma nodeFor_sound p st n :
  n ∈ nodes (transformDataToGraph p st) →
  (∃ o, nodeFor p st o = Some n) ∨ (∃ b, n = stubNode (baseStubId b) b).
Proof.
  intros Hn.
  destruct (wf_nodes (WF_transformDataToGraph p st) n Hn)
    as [i f Hf Hs Hm|ci c Hc Hs Hm|ci c mi m Hc Hmi Hs Hm Hsm Hmm|ci c b _ _ _ _].
  - left. exists (OFunction i). simpl. by rewrite Hf, Hs; simpl; rewrite Hm.
  - left. exists (OClass ci). simpl. by rewrite Hc; simpl; rewrite Hs, Hm.
  - left. exists (OMethod ci mi). simpl.
    by rewrite Hc; simpl; rewrite Hmi; simpl; rewrite Hs, Hm, Hsm, Hmm.
  - right. by exists b.
Qed.

Lemma nodeFor_id p st o n : nodeFor p st o = Some n → n_id n = originId o.
Proof.
  destruct o as [i|ci|ci mi]; simpl; intros H.
  - destruct (functions p !! i); [|done]. simpl in H. case_match; by simplify_eq.
  - destruct (classes p !! ci); [|done]. simpl in H. case_match; by simplify_eq.
  - destruct (classes p !! ci) as [c|]; [|done]. simpl in H.
    destruct (c_methods c !! mi); [|done]. simpl in H. case_match; by simplify_eq.
Qed.

(** ** Counting the contains edges *)

Lemma methods_loop_contains st ci cid ms i s :
  length (filter (λ e, e_type e = Contains)
            (edges (forEachFrom (addMethod st ci cid) i ms s))) =
  length (filter (λ e, e_type e = Contains) (edges s)) +
  length (filter (λ m, matchesSearch st (f_name m) = true) ms).
Proof.
  revert i s. induction ms as [|m ms IH]; intros i s; simpl; [lia|].
  rewrite IH. unfold addMethod.
  destruct (matchesSearch st (f_name m)) eqn:Hm.
  - rewrite (filter_cons_True _ m) by done. simpl.
    rewrite filter_app, length_app. simpl. lia.
  - rewrite (filter_cons_False _ m) by congruence. lia.
Qed.

Lemma addClass_contains st c ci s :
  showMethods st = true →
  length (filter (λ e, e_type e = Contains) (edges (addClass st c ci s))) =
  length (filter (λ e, e_type e = Contains) (edges s)) +
  (if matchesSearch st (c_name c) then filteredMethodCount st c else 0).
Proof.
  intros Hsm. rewrite addClass_unfold, Hsm.
  destruct (matchesSearch st (c_name c)); [|lia]. cbv zeta.
  rewrite (appends_filter_out (λ e, e_type e = Inherits ∧ e_source e = classId ci)
             (λ e, e_type e = Contains)
             (edges (forEach (addMethod st ci (classId ci)) (c_methods c)
                (setName (c_name c) (classId ci) (pushNode (classNode ci c) s))))).
  - unfold forEach. by rewrite methods_loop_contains.
  - apply (forEach_appends edges). intros. apply addBase_edges_appends.
  - intros e [? _]. congruence.
Qed.

Lemma classes_loop_contains st cs i s :
  showMethods st = true →
  length (filter (λ e, e_type e = Contains)
            (edges (forEachFrom (addClass st) i cs s))) =
  length (filter (λ e, e_type e = Contains) (edges s)) +
  sum_list (filteredMethodCount st <$>
              filter (λ c, matchesSearch st (c_name c) = true) cs).
Proof.
  intros Hsm. revert i s. induction cs as [|c cs IH]; intros i s; simpl; [lia|].
  rewrite IH, addClass_contains by done.
  destruct (matchesSearch st (c_name c)) eqn:Hm.
  - rewrite (filter_cons_True _ c) by done. simpl. by rewrite Nat.add_assoc.
  - rewrite (filter_cons_False _ c) by congruence. lia.
Qed.

Lemma visibleClasses_shown p st :
  showClasses st = true →
  visibleClasses p st = filter (λ c, matchesSearch st (c_name c) = true) (classes p).
Proof.
  intros Hsc. unfold visibleClasses. apply list_filter_iff. intros c. by rewrite Hsc; intuition.
Qed.

Lemma visibleClasses_hidden p st : showClasses st = false → visibleClasses p st = [].
Proof.
  intros Hsc. unfold visibleClasses. apply filter_none. intros c _ [? _]. congruence.
Qed.

(** ** The passes, one at a time *)

Lemma buildEntities_unfold p st :
  buildEntities p st =
  if showClasses st then forEach (addClass st) (classes p) (functionsPass p st)
  else functionsPass p st.
Proof. reflexivity. Qed.

Lemma addClass_members st c ci s :
  addClass st c ci s =
  if matchesSearch st (c_name c)
  then forEach (addBase (classId ci)) (c_bases c) (addClassMembers st c ci s)
  else s.
Proof. apply addClass_unfold. Qed.

Lemma WF_functionsPass p st : WF p st (functionsPass p st).
Proof.
  unfold functionsPass. destruct (showFunctions st) eqn:Hsf; [|apply WF_empty].
  apply forEach_preserve; [apply WF_empty|].
  intros j x s' Hx Hwf. by apply WF_addFunction.
Qed.

Lemma functionsPass_frame p st :
  (∀ n, n ∈ nodes (functionsPass p st) → n_type n = TFunction) ∧
  edges (functionsPass p st) = [].
Proof.
  unfold functionsPass. destruct (showFunctions st).
  - destruct (functions_pass_frame st (functions p)) as [Ha Hnil].
    split; [apply (appends_nil _ _ Ha)|done].
  - split; [|done]. intros n H. by apply elem_of_nil in H.
Qed.

Lemma WF_addClassMembers p st c ci s :
  WF p st s → classes p !! ci = Some c →
  showClasses st = true → matchesSearch st (c_name c) = true →
  WF p st (addClassMembers st c ci s) ∧
  classId ci ∈ ids (nodes (addClassMembers st c ci s)).
Proof.
  intros Hwf Hc Hshow Hm. unfold addClassMembers.
  set (s1 := setName _ _ _).
  assert (WF p st s1 ∧ classId ci ∈ ids (nodes s1)) as H1.
  { split; [|apply (ids_pushNode (classNode ci c))].
    apply WF_setName.
    - apply WF_pushNode; [done|by eapply form_class|intros b; apply classId_not_base].
    - by eapply reg_class.
    - apply (ids_pushNode (classNode ci c)). }
  destruct (showMethods st) eqn:Hsm; [|done].
  apply (forEach_preserve _ (λ s, WF p st s ∧ classId ci ∈ ids (nodes s))); [done|].
  intros j x s' Hx [? ?]. by eapply WF_addMethod.
Qed.

Lemma addClassMembers_nodes st c ci s :
  appends (λ n, n_type n = TMethod)
    (nodes s ++ [classNode ci c]) (nodes (addClassMembers st c ci s)).
Proof.
  unfold addClassMembers. destruct (showMethods st); [|apply appends_refl].
  apply (forEach_appends nodes _ _ _
           (setName (c_name c) (classId ci) (pushNode (classNode ci c) s))).
  intros. apply addMethod_nodes.
Qed.

Lemma addClassMembers_edges st c ci s :
  appends (λ e, e_type e = Contains ∧ e_source e = classId ci)
    (edges s) (edges (addClassMembers st c ci s)).
Proof.
  unfold addClassMembers. destruct (showMethods st); [|apply appends_refl].
  apply (forEach_appends edges _ _ _
           (setName (c_name c) (classId ci) (pushNode (classNode ci c) s))).
  intros. apply addMethod_edges.
Qed.

(** Under the invariant a pushed stub always carries the id [base-{name}]. *)
Lemma addBase_nodes_stub p st cid base bi s :
  WF p st s →
  appends (λ n, isStubId (n_id n) = true) (nodes s) (nodes (addBase cid base bi s)).
Proof.
  intros Hwf. unfold addBase.
  destruct (List.find _ (nodes s)) eqn:Hfind; simpl; [apply appends_refl|].
  apply find_hasId_None in Hfind.
  rewrite (resolveBase_WF p st s base Hwf Hfind). apply appends_snoc.
  apply isStubId_baseStubId.
Qed.

Lemma bases_loop_nodes_stub p st ci c s :
  WF p st s → classes p !! ci = Some c →
  showClasses st = true → matchesSearch st (c_name c) = true →
  classId ci ∈ ids (nodes s) →
  appends (λ n, isStubId (n_id n) = true)
    (nodes s) (nodes (forEach (addBase (classId ci)) (c_bases c) s)).
Proof.
  intros Hwf Hc Hsc Hm Hcid.
  cut (WF p st (forEach (addBase (classId ci)) (c_bases c) s) ∧
       classId ci ∈ ids (nodes (forEach (addBase (classId ci)) (c_bases c) s)) ∧
       appends (λ n, isStubId (n_id n) = true)
         (nodes s) (nodes (forEach (addBase (classId ci)) (c_bases c) s))).
  { by intros (_ & _ & ?). }
  apply (forEach_preserve _ (λ s', WF p st s' ∧ classId ci ∈ ids (nodes s') ∧
           appends (λ n, isStubId (n_id n) = true) (nodes s) (nodes s'))).
  - split_and!; [done|done|apply appends_refl].
  - intros j x s' Hx (Hwf' & Hcid' & Ha).
    destruct (WF_addBase p st ci c x j s') as [? ?]; try done.
    { by eapply list_elem_of_lookup_2. }
    split_and!; [done|done|].
    eapply appends_trans; [done|]. by eapply addBase_nodes_stub.
Qed.

(** ** Class nodes and the search term *)

Lemma toLowerCase_empty : toLowerCase "" = "".
Proof.
  pose proof (toLowerCase_truthy "") as H. by destruct (toLowerCase "").
Qed.

Lemma includes_empty s : includes s "" = true.
Proof. by destruct s. Qed.

Lemma matchesSearch_containsCI st name :
  matchesSearch st name = containsCI name (searchTerm st).
Proof.
  unfold matchesSearch, containsCI. destruct (searchTerm st); simpl; [|done].
  by rewrite toLowerCase_empty, includes_empty.
Qed.

Lemma addClass_class_nodes p st c ci s :
  WF p st s → classes p !! ci = Some c → showClasses st = true →
  filter isParsedClassNode (nodes (addClass st c ci s)) =
  filter isParsedClassNode (nodes s) ++
  (if matchesSearch st (c_name c) then [classNode ci c] else []).
Proof.
  intros Hwf Hc Hsc. rewrite addClass_members.
  destruct (matchesSearch st (c_name c)) eqn:Hm; [|by rewrite app_nil_r].
  destruct (WF_addClassMembers p st c ci s Hwf Hc Hsc Hm) as [Hwf2 Hcid].
  rewrite (appends_filter_out _ isParsedClassNode _ _
             (bases_loop_nodes_stub p st ci c _ Hwf2 Hc Hsc Hm Hcid)).
  - rewrite (appends_filter_out _ isParsedClassNode _ _
               (addClassMembers_nodes st c ci s)).
    + rewrite filter_app. f_equal.
    + intros n Hn [? _]. congruence.
  - intros n Hn [_ ?]. congruence.
Qed.

Lemma classes_loop_class_nodes p st :
  showClasses st = true →
  filter isParsedClassNode (nodes (forEach (addClass st) (classes p) (functionsPass p st))) =
  filter (λ n, containsCI (n_label n) (searchTerm st) = true)
    (imap classNode (classes p)).
Proof.
  intros Hsc.
  cut (WF p st (forEach (addClass st) (classes p) (functionsPass p st)) ∧
       filter isParsedClassNode
         (nodes (forEach (addClass st) (classes p) (functionsPass p st))) =
       filter (λ n, containsCI (n_label n) (searchTerm st) = true)
         (imap classNode (take (length (classes p)) (classes p)))).
  { intros [_ ->]. by rewrite firstn_all. }
  apply (forEach_inv (addClass st) (λ j s,
    WF p st s ∧
    filter isParsedClassNode (nodes s) =
    filter (λ n, containsCI (n_label n) (searchTerm st) = true)
      (imap classNode (take j (classes p))))).
  - split; [apply WF_functionsPass|]. simpl.
    apply filter_none. intros n Hn [Hty _].
    destruct (functionsPass_frame p st) as [Hf _]. rewrite (Hf n Hn) in Hty. done.
  - intros j c s' Hc [Hwf Hfilter]. split; [by apply WF_addClass|].
    rewrite (addClass_class_nodes p st c j s' Hwf Hc Hsc), Hfilter.
    rewrite (take_S_r _ _ _ Hc), imap_app, filter_app. f_equal.
    rewrite length_take_le by (apply Nat.lt_le_incl; by eapply lookup_lt_Some).
    simpl. rewrite Nat.add_0_r, matchesSearch_containsCI.
    destruct (containsCI (c_name c) (searchTerm st)) eqn:Hci.
    + by rewrite filter_cons_True.
    + rewrite filter_cons_False; [done|]. simpl. congruence.
Qed.

(** ** Stubs for bases that are not registered *)

Lemma resolveBase_unregistered p st s b :
  WF p st s →
  (∀ c', c' ∈ classes p → c_name c' ≠ b) →
  (∀ f, f ∈ functions p → showFunctions st = true →
        matchesSearch st (f_name f) = true → f_name f ≠ b) →
  resolveBase (nodeMap s) b = baseStubId b.
Proof.
  intros Hwf Hcls Hfun. unfold resolveBase.
  destruct (nodeMap s !! b) as [v|] eqn:Hv; [|done].
  destruct (wf_reg Hwf b v Hv) as [[i f Hf Hname Hsf Hm|ci c Hc Hname|] _].
  - exfalso. apply (Hfun f); [by eapply list_elem_of_lookup_2|done| |done].
    by rewrite Hname.
  - exfalso. apply (Hcls c); [by eapply list_elem_of_lookup_2|done].
  - done.
Qed.

Lemma addClass_inherits_other st c j s ci :
  j ≠ ci →
  filter (inheritsFrom ci) (edges (addClass st c j s)) = filter (inheritsFrom ci) (edges s).
Proof.
  intros Hne. apply (appends_filter_out _ _ _ _ (addClass_edges st c j s)).
  intros e [Hsrc _] [_ Hsrc']. rewrite Hsrc in Hsrc'. by apply classId_inj in Hsrc'.
Qed.

Lemma addClass_inherits_single p st c ci s b :
  WF p st s → classes p !! ci = Some c → c_bases c = [b] →
  showClasses st = true → matchesSearch st (c_name c) = true →
  (∀ c', c' ∈ classes p → c_name c' ≠ b) →
  (∀ f, f ∈ functions p → showFunctions st = true →
        matchesSearch st (f_name f) = true → f_name f ≠ b) →
  filter (inheritsFrom ci) (edges (addClass st c ci s)) =
  filter (inheritsFrom ci) (edges s) ++ [inheritsEdge (classId ci) (baseStubId b) 0].
Proof.
  intros Hwf Hc Hb Hsc Hm Hcls Hfun. rewrite addClass_members, Hm, Hb.
  change (forEach (addBase (classId ci)) [b] (addClassMembers st c ci s))
    with (addBase (classId ci) b 0 (addClassMembers st c ci s)).
  destruct (WF_addClassMembers p st c ci s Hwf Hc Hsc Hm) as [Hwf2 _].
  rewrite addBase_edges, filter_app.
  rewrite (resolveBase_unregistered p st _ b Hwf2 Hcls Hfun).
  rewrite (appends_filter_out _ (inheritsFrom ci) _ _ (addClassMembers_edges st c ci s)).
  - f_equal. by rewrite filter_cons_True by (by split).
  - intros e [? _] [? _]. congruence.
Qed.

Lemma classes_loop_inherits p st ci c b :
  classes p !! ci = Some c → c_bases c = [b] →
  showClasses st = true → matchesSearch st (c_name c) = true →
  (∀ c', c' ∈ classes p → c_name c' ≠ b) →
  (∀ f, f ∈ functions p → showFunctions st = true →
        matchesSearch st (f_name f) = true → f_name f ≠ b) →
  filter (inheritsFrom ci) (edges (forEach (addClass st) (classes p) (functionsPass p st))) =
  [inheritsEdge (classId ci) (baseStubId b) 0].
Proof.
  intros Hc Hb Hsc Hm Hcls Hfun.
  cut (WF p st (forEach (addClass st) (classes p) (functionsPass p st)) ∧
       filter (inheritsFrom ci)
         (edges (forEach (addClass st) (classes p) (functionsPass p st))) =
       if (ci <? length (classes p))%nat
       then [inheritsEdge (classId ci) (baseStubId b) 0] else []).
  { intros [_ ->]. apply lookup_lt_Some in Hc. apply Nat.ltb_lt in Hc. by rewrite Hc. }
  apply (forEach_inv (addClass st) (λ j s,
    WF p st s ∧
    filter (inheritsFrom ci) (edges s) =
    if (ci <? j)%nat then [inheritsEdge (classId ci) (baseStubId b) 0] else [])).
  - split; [apply WF_functionsPass|].
    by destruct (functionsPass_frame p st) as [_ ->].
  - intros j x s' Hx [Hwf Hfilter]. split; [by apply WF_addClass|].
    destruct (decide (j = ci)) as [->|Hne].
    + assert (x = c) as -> by congruence.
      rewrite (addClass_inherits_single p st c ci s' b) by done.
      rewrite Hfilter, Nat.ltb_irrefl.
      by rewrite (proj2 (Nat.ltb_lt ci (S ci))) by lia.
    + rewrite addClass_inherits_other, Hfilter by done.
      destruct (Nat.ltb_spec ci j), (Nat.ltb_spec ci (S j)); done || lia.
Qed.

Lemma filter_single {A} (P : A → Prop) `{∀ x, Decision (P x)} (l : list A) v :
  (length (filter P l) ≤ 1)%nat →
  (∀ x, x ∈ l → P x → x = v) →
  (∃ x, x ∈ l ∧ P x) →
  filter P l = [v].
Proof.
  intros Hlen Hall (x & Hx & HPx).
  assert (x ∈ filter P l) as Hin by by apply list_elem_of_filter.
  destruct (filter P l) as [|y [|z r]] eqn:Hf.
  - by apply elem_of_nil in Hin.
  - f_equal. assert (y ∈ filter P l) as Hy by (rewrite Hf; apply list_elem_of_here).
    apply list_elem_of_filter in Hy as [? ?]. by apply Hall.
  - simpl in Hlen. lia.
Qed.

Lemma inherits_edges_of_build p st ci :
  filter (inheritsFrom ci) (edges (transformDataToGraph p st)) =
  filter (inheritsFrom ci) (edges (buildEntities p st)).
Proof.
  unfold transformDataToGraph. destruct (showRelationships st); [|done].
  destruct (buildRelationships_frame p (buildEntities p st)) as (_ & _ & Ha).
  apply (appends_filter_out _ _ _ _ Ha). intros e ? [? _]. congruence.
Qed.

(** ** Function-call records *)

Lemma truthy_true k : truthy k = true ↔ k ≠ "".
Proof. by destruct k. Qed.

Lemma resolves_inj reg x v v' : resolves reg x v → resolves reg x v' → v = v'.
Proof. intros (k & ? & _ & ?) (k' & ? & _ & ?). congruence. Qed.

Lemma present_resolves reg x :
  match present reg x with
  | Some k => ∃ v, reg !! k = Some v ∧ resolves reg x v
  | None => ∀ v, ¬ resolves reg x v
  end.
Proof.
  unfold present. destruct x as [k|].
  - destruct (truthy k) eqn:Hk; simpl.
    + case_bool_decide as Hin.
      * destruct Hin as [v Hv]. exists v. split; [done|].
        exists k. by rewrite <- truthy_true.
      * intros v (k' & ? & _ & Hv). simplify_eq. apply Hin. by exists v.
    + intros v (k' & ? & Hne & _). simplify_eq. apply truthy_true in Hne. congruence.
  - intros v (k' & ? & _). done.
Qed.

Lemma addFunctionCall_edges call i s :
  (∀ k v, nodeMap s !! k = Some v → truthy v = true) →
  (∃ a b, resolvesCall (nodeMap s) call a b ∧
          edges (addFunctionCall call i s) = edges s ++ [callEdge i a b]) ∨
  ((∀ a b, ¬ resolvesCall (nodeMap s) call a b) ∧
   edges (addFunctionCall call i s) = edges s).
Proof.
  intros Htruthy. unfold addFunctionCall.
  pose proof (present_resolves (nodeMap s) (callee call)) as Hce.
  destruct (present _ (callee call)) as [ce|].
  2: { right. split; [|done]. intros a b (_ & Hb & _). by apply (Hce b). }
  destruct Hce as (b & Hb & Hrb).
  pose proof (present_resolves (nodeMap s) (caller call)) as Hcr.
  destruct (present _ (caller call)) as [cr|].
  2: { right. split; [|done]. intros a b' (Ha & _). by apply (Hcr a). }
  destruct Hcr as (a & Ha & Hra).
  rewrite Ha, Hb, (Htruthy _ _ Ha), (Htruthy _ _ Hb). simpl.
  case_bool_decide as Hab; simpl.
  - right. split; [|done]. intros a' b' (Ha' & Hb' & Hne).
    rewrite (resolves_inj _ _ _ _ Ha' Hra), (resolves_inj _ _ _ _ Hb' Hrb) in Hne. done.
  - left. by exists a, b.
Qed.

Lemma callEdge_id_inj i j a b : e_id (callEdge j a b) = "call-" +:+ pretty i → j = i.
Proof. simpl. intros H. by apply String.app_inj, pretty_nat_inj in H. Qed.

(** The edges with id [call-i] once the [function_calls] loop has run
    against the registry [reg]. *)
Lemma function_calls_loop reg fcs s0 i call :
  (∀ k v, reg !! k = Some v → truthy v = true) →
  nodeMap s0 = reg →
  filter (hasEdgeId ("call-" +:+ pretty i)) (edges s0) = [] →
  fcs !! i = Some call →
  (∀ a b, resolvesCall reg call a b →
     filter (hasEdgeId ("call-" +:+ pretty i))
       (edges (forEach addFunctionCall fcs s0)) = [callEdge i a b]) ∧
  ((∀ a b, ¬ resolvesCall reg call a b) →
     filter (hasEdgeId ("call-" +:+ pretty i))
       (edges (forEach addFunctionCall fcs s0)) = []).
Proof.
  intros Htruthy Hreg H0 Hcall.
  cut (nodeMap (forEach addFunctionCall fcs s0) = reg ∧
       (i < length fcs →
        (∀ a b, resolvesCall reg call a b →
           filter (hasEdgeId ("call-" +:+ pretty i))
             (edges (forEach addFunctionCall fcs s0)) = [callEdge i a b]) ∧
        ((∀ a b, ¬ resolvesCall reg call a b) →
           filter (hasEdgeId ("call-" +:+ pretty i))
             (edges (forEach addFunctionCall fcs s0)) = [])) ∧
       ((length fcs ≤ i)%nat →
        filter (hasEdgeId ("call-" +:+ pretty i))
          (edges (forEach addFunctionCall fcs s0)) = [])).
  { intros (_ & H & _). apply H. by eapply lookup_lt_Some. }
  apply (forEach_inv addFunctionCall (λ j s,
    nodeMap s = reg ∧
    (i < j →
     (∀ a b, resolvesCall reg call a b →
        filter (hasEdgeId ("call-" +:+ pretty i)) (edges s) = [callEdge i a b]) ∧
     ((∀ a b, ¬ resolvesCall reg call a b) →
        filter (hasEdgeId ("call-" +:+ pretty i)) (edges s) = [])) ∧
    ((j ≤ i)%nat → filter (hasEdgeId ("call-" +:+ pretty i)) (edges s) = []))).
  { split_and!; [done|lia|done]. }
  intros j x s Hj (Hm & Hlt & Hge).
  destruct (addFunctionCall_frame x j s) as (_ & Hm' & _).
  split; [congruence|].
  assert (∀ k v, nodeMap s !! k = Some v → truthy v = true) as Htr.
  { rewrite Hm. exact Htruthy. }
  destruct (decide (j = i)) as [->|Hne].
  - assert (x = call) as -> by congruence.
    split; [intros _|lia].
    specialize (Hge (le_n i)).
    destruct (addFunctionCall_edges call i s Htr) as [(a & b & Hres & ->)|[Hnone ->]];
      rewrite Hm in *.
    + split.
      * intros a' b' (Ha' & Hb' & _). destruct Hres as (Ha & Hb & _).
        rewrite (resolves_inj _ _ _ _ Ha' Ha), (resolves_inj _ _ _ _ Hb' Hb).
        rewrite filter_app, Hge. by rewrite filter_cons_True.
      * intros Hno. by destruct (Hno a b).
    + split; [|done]. intros a b Hres. by destruct (Hnone a b).
  - assert (filter (hasEdgeId ("call-" +:+ pretty i)) (edges (addFunctionCall x j s)) =
            filter (hasEdgeId ("call-" +:+ pretty i)) (edges s)) as ->.
    { destruct (addFunctionCall_edges x j s Htr) as [(a & b & _ & ->)|[_ ->]]; [|done].
      rewrite filter_app, filter_cons_False, filter_nil, app_nil_r; [done|].
      intros Hid%callEdge_id_inj. done. }
    split; intros ?; [apply Hlt|apply Hge]; lia.
Qed.

Lemma addMethodCall_edges call j s :
  appends (λ e, ∃ a b, e = methodCallEdge j a b)
    (edges s) (edges (addMethodCall call j s)).
Proof.
  unfold addMethodCall.
  destruct (object call) as [o|]; [|apply appends_refl].
  destruct (method call) as [mn|]; [|apply appends_refl].
  destruct (_ && _ && _); [|apply appends_refl].
  destruct (nodeMap s !! o) as [a|]; [|apply appends_refl].
  destruct (List.find _ _) as [n|]; [|apply appends_refl].
  destruct (truthy a); [|apply appends_refl].
  apply appends_snoc. eauto.
Qed.

Lemma registry_truthy p st k v : registry p st !! k = Some v → truthy v = true.
Proof.
  intros Hk. destruct (wf_reg (WF_buildEntities p st) k v Hk) as [Hreg _].
  by eapply regEntry_truthy.
Qed.

Lemma buildEntities_no_call_id p st (i : nat) :
  filter (hasEdgeId ("call-" +:+ pretty i)) (edges (buildEntities p st)) = [].
Proof.
  apply filter_none. intros e He Hid. unfold hasEdgeId in Hid.
  destruct (wf_edges (WF_buildEntities p st) e He) as (Hform & _).
  destruct (buildEntities_edges p st e He) as [Hty|Hty]; by destruct Hform.
Qed.

Lemma resolvesCall_dec reg call :
  (∃ a b, resolvesCall reg call a b) ∨ (∀ a b, ¬ resolvesCall reg call a b).
Proof.
  pose proof (present_resolves reg (callee call)) as Hce.
  destruct (present reg (callee call)) as [ce|].
  2: { right. intros a b (_ & Hb & _). by apply (Hce b). }
  destruct Hce as (b & _ & Hrb).
  pose proof (present_resolves reg (caller call)) as Hcr.
  destruct (present reg (caller call)) as [cr|].
  2: { right. intros a b' (Ha & _). by apply (Hcr a). }
  destruct Hcr as (a & _ & Hra).
  destruct (decide (a = b)) as [->|Hne].
  - right. intros a' b' (Ha' & Hb' & Hne).
    rewrite (resolves_inj _ _ _ _ Ha' Hra), (resolves_inj _ _ _ _ Hb' Hrb) in Hne. done.
  - left. by exists a, b.
Qed.

Lemma call_edges_of_build p st (i : nat) call :
  showRelationships st = true →
  function_calls (relationships p) !! i = Some call →
  (∀ a b, resolvesCall (registry p st) call a b →
     filter (hasEdgeId ("call-" +:+ pretty i)) (edges (transformDataToGraph p st)) =
     [callEdge i a b]) ∧
  ((∀ a b, ¬ resolvesCall (registry p st) call a b) →
     filter (hasEdgeId ("call-" +:+ pretty i)) (edges (transformDataToGraph p st)) = []).
Proof.
  intros Hsr Hcall. unfold transformDataToGraph. rewrite Hsr. unfold buildRelationships.
  set (s3 := forEach addFunctionCall _ _).
  assert (filter (hasEdgeId ("call-" +:+ pretty i))
            (edges (forEach addMethodCall (method_calls (relationships p)) s3)) =
          filter (hasEdgeId ("call-" +:+ pretty i)) (edges s3)) as ->.
  { apply (appends_filter_out (λ e, ∃ j a b, e = methodCallEdge j a b)).
    - apply (forEach_appends edges). intros j x s' _.
      eapply appends_mono; [|apply addMethodCall_edges]. intros e (a & b & ->). eauto.
    - intros e (j & a & b & ->). by unfold hasEdgeId. }
  apply function_calls_loop; try done.
  - apply registry_truthy.
  - apply buildEntities_no_call_id.
Qed.

(** ** Referential integrity and self-loops *)

(** C9. In every built graph the source id and the target id of every edge
    (contains, inherits, and both flavours of calls) are ids of nodes of the
    same build. *)
Theorem edge_endpoints_are_nodes p st e :
  e ∈ edges (transformDataToGraph p st) →
  e_source e ∈ ids (nodes (transformDataToGraph p st)) ∧
  e_target e ∈ ids (nodes (transformDataToGraph p st)).
Proof.
  intros He.
  by destruct (wf_edges (WF_transformDataToGraph p st) e He) as (_ & ? & ?).
Qed.

(** C4. No edge of kind calls, whether it comes from [function_calls] or
    from [method_calls], has its source equal to its target. *)
Theorem calls_edges_have_no_self_loop p st e :
  e ∈ edges (transformDataToGraph p st) →
  e_type e = Calls →
  e_source e ≠ e_target e.
Proof.
  intros He Hty.
  destruct (wf_edges (WF_transformDataToGraph p st) e He) as (Hform & _).
  by destruct Hform.
Qed.

(** ** Visibility flags *)

(** C10. With [showClasses = false] the class branch is skipped as a whole:
    every node of the build is a function node (so there is no class node,
    no method node and no synthetic stub) and every edge is a calls edge (so
    there is no contains and no inherits edge), whatever the bases of the
    classes and the flags [showMethods] and [showRelationships] are. *)
Theorem hidden_classes_suppress_class_branch p st :
  showClasses st = false →
  (∀ n, n ∈ nodes (transformDataToGraph p st) → n_type n = TFunction) ∧
  (∀ e, e ∈ edges (transformDataToGraph p st) → e_type e = Calls).
Proof.
  intros Hsc.
  assert (buildEntities p st =
          if showFunctions st then forEach (addFunction st) (functions p) emptyAcc
          else emptyAcc) as Hbuild.
  { unfold buildEntities. by rewrite Hsc. }
  assert ((∀ n, n ∈ nodes (buildEntities p st) → n_type n = TFunction) ∧
          edges (buildEntities p st) = []) as [Hn He].
  { rewrite Hbuild. destruct (showFunctions st).
    - destruct (functions_pass_frame st (functions p)) as [Ha Hnil].
      split; [apply (appends_nil _ _ Ha)|done].
    - split; [|done]. intros n H. by apply elem_of_nil in H. }
  unfold transformDataToGraph. destruct (showRelationships st).
  - destruct (buildRelationships_frame p (buildEntities p st)) as (Hn' & _ & He').
    rewrite Hn', He in *. split; [done|]. apply (appends_nil _ _ He').
  - split; [done|]. rewrite He. intros e H. by apply elem_of_nil in H.
Qed.

(** C6. [showRelationships = false] suppresses every edge derived from the
    [function_calls] and [method_calls] collections (no calls edge is left),
    and never a contains or inherits edge: the edges built with the flag on
    are the edges built with the flag off followed by calls edges only, so the
    contains and the inherits edges of the two builds coincide. *)
Theorem relationships_flag_only_hides_calls p st :
  (∀ e, e ∈ edges (transformDataToGraph p (setShowRelationships false st)) →
        e_type e ≠ Calls) ∧
  appends (λ e, e_type e = Calls)
    (edges (transformDataToGraph p (setShowRelationships false st)))
    (edges (transformDataToGraph p (setShowRelationships true st))) ∧
  filter (λ e, e_type e = Contains)
    (edges (transformDataToGraph p (setShowRelationships true st))) =
  filter (λ e, e_type e = Contains)
    (edges (transformDataToGraph p (setShowRelationships false st))) ∧
  filter (λ e, e_type e = Inherits)
    (edges (transformDataToGraph p (setShowRelationships true st))) =
  filter (λ e, e_type e = Inherits)
    (edges (transformDataToGraph p (setShowRelationships false st))).
Proof.
  assert (transformDataToGraph p (setShowRelationships false st) = buildEntities p st) as ->.
  { reflexivity. }
  assert (transformDataToGraph p (setShowRelationships true st) =
          buildRelationships p (buildEntities p st)) as ->.
  { reflexivity. }
  destruct (buildRelationships_frame p (buildEntities p st)) as (_ & _ & Ha).
  split_and!.
  - intros e He Hty. destruct (buildEntities_edges p st e He); congruence.
  - done.
  - apply (appends_filter_out _ _ _ _ Ha). intros e ??. congruence.
  - apply (appends_filter_out _ _ _ _ Ha). intros e ??. congruence.
Qed.

(** ** Identity of nodes *)

(** C1. For a fixed entity model the id of a function, class or method node
    depends only on the entity's position in the parsed arrays.  Every node of
    a build is the node [nodeFor] of an entity at some position (or a
    synthetic stub), every such node is in the build, and for any two filter
    states the nodes built for the same position [o] carry the same id
    [originId o] ([func-i], [class-ci], [method-ci-mi]), whatever the flags
    and the search term are. *)
Theorem node_id_depends_on_position_only p st1 st2 :
  (∀ n, n ∈ nodes (transformDataToGraph p st1) →
        (∃ o, nodeFor p st1 o = Some n) ∨ (∃ b, n = stubNode (baseStubId b) b)) ∧
  (∀ o n1 n2,
     nodeFor p st1 o = Some n1 → nodeFor p st2 o = Some n2 →
     n1 ∈ nodes (transformDataToGraph p st1) ∧
     n2 ∈ nodes (transformDataToGraph p st2) ∧
     n_id n1 = n_id n2 ∧ n_id n1 = originId o).
Proof.
  split; [apply nodeFor_sound|].
  intros o n1 n2 H1 H2. split_and!.
  - by eapply nodeFor_complete.
  - by eapply nodeFor_complete.
  - by rewrite (nodeFor_id _ _ _ _ H1), (nodeFor_id _ _ _ _ H2).
  - by eapply nodeFor_id.
Qed.

(** ** Methods and contains edges *)

Lemma contains_edges_of_build p st :
  filter (λ e, e_type e = Contains) (edges (transformDataToGraph p st)) =
  filter (λ e, e_type e = Contains) (edges (buildEntities p st)).
Proof.
  unfold transformDataToGraph. destruct (showRelationships st); [|done].
  destruct (buildRelationships_frame p (buildEntities p st)) as (_ & _ & Ha).
  apply (appends_filter_out _ _ _ _ Ha). intros e ??. congruence.
Qed.

(** C7. With [showMethods = true] the number of contains edges is the sum,
    over the classes that pass the class filter, of the number of their
    methods that pass the search filter.  With [showMethods = false] the build
    has no method node and no contains edge, and still a class node for
    every class that passes the class filter. *)
Theorem contains_edges_follow_methods p st :
  (showMethods st = true →
   length (filter (λ e, e_type e = Contains) (edges (transformDataToGraph p st))) =
   sum_list (filteredMethodCount st <$> visibleClasses p st)) ∧
  (showMethods st = false →
   (∀ n, n ∈ nodes (transformDataToGraph p st) → n_type n ≠ TMethod) ∧
   (∀ e, e ∈ edges (transformDataToGraph p st) → e_type e ≠ Contains) ∧
   (∀ ci c, classes p !! ci = Some c →
            showClasses st = true → matchesSearch st (c_name c) = true →
            classNode ci c ∈ nodes (transformDataToGraph p st))).
Proof.
  split.
  - intros Hsm. rewrite contains_edges_of_build. unfold buildEntities.
    set (s1 := if showFunctions st then _ else _).
    assert (edges s1 = []) as Hs1.
    { subst s1. destruct (showFunctions st); [|done]. apply functions_pass_frame. }
    destruct (showClasses st) eqn:Hsc.
    + unfold forEach. rewrite classes_loop_contains, Hs1 by done.
      by rewrite visibleClasses_shown.
    + by rewrite Hs1, visibleClasses_hidden.
  - intros Hsm. split_and!.
    + intros n Hn Hty.
      destruct (wf_nodes (WF_transformDataToGraph p st) n Hn); try done. congruence.
    + intros e He Hty.
      destruct (wf_edges (WF_transformDataToGraph p st) e He) as (Hform & _).
      destruct Hform; try done. congruence.
    + intros ci c Hc Hsc Hm. apply (nodeFor_complete p st (OClass ci)).
      simpl. by rewrite Hc; simpl; rewrite Hsc, Hm.
Qed.

(** ** Search and class nodes *)

(** C2, amended.  With [showClasses = true] and search term [s], the
    class-kind nodes other than synthetic stubs are exactly, in order, one
    node [class-i] for each parsed class at position [i] whose lower-cased
    name includes the lower-cased [s], as [toLowerCase] and [includes]
    compute it; every other class-kind node is the stub [base-b] of a base
    [b] of such a class. *)
Theorem class_nodes_match_search p st :
  showClasses st = true →
  filter isParsedClassNode (nodes (transformDataToGraph p st)) =
  filter (λ n, containsCI (n_label n) (searchTerm st) = true)
    (imap classNode (classes p)) ∧
  (∀ n, n ∈ nodes (transformDataToGraph p st) →
        n_type n = TClass → ¬ isParsedClassNode n →
        ∃ ci c b, classes p !! ci = Some c ∧
                  containsCI (c_name c) (searchTerm st) = true ∧
                  b ∈ c_bases c ∧ n = stubNode (baseStubId b) b).
Proof.
  intros Hsc. split.
  - rewrite nodes_transformDataToGraph, buildEntities_unfold, Hsc.
    by apply classes_loop_class_nodes.
  - intros n Hn Hty Hnot.
    destruct (wf_nodes (WF_transformDataToGraph p st) n Hn)
      as [| |ci c mi m|ci c b Hc Hb _ Hm]; try done.
    + destruct Hnot. by split.
    + exists ci, c, b. by rewrite <- matchesSearch_containsCI.
Qed.

(** ** Synthetic stubs *)

(** C3, amended.  Let a class at position [ci] pass the class filter and
    have the single base [b], where [b] is the name of no parsed class and of
    no function that is visible in the build.  Then the build has exactly
    one node with id [base-b], the stub, and exactly one inherits edge
    leaving [class-ci], which targets it.  In every build a stub [base-b] is
    pushed at most once, is of kind class, and carries the degenerate
    payload: empty bases, empty methods, null docstring. *)
Theorem stub_for_unparsed_base p st :
  (∀ ci c b,
     classes p !! ci = Some c → c_bases c = [b] →
     showClasses st = true → matchesSearch st (c_name c) = true →
     (∀ c', c' ∈ classes p → c_name c' ≠ b) →
     (∀ f, f ∈ functions p → showFunctions st = true →
           matchesSearch st (f_name f) = true → f_name f ≠ b) →
     filter (λ n, n_id n = baseStubId b) (nodes (transformDataToGraph p st)) =
       [stubNode (baseStubId b) b] ∧
     filter (inheritsFrom ci) (edges (transformDataToGraph p st)) =
       [inheritsEdge (classId ci) (baseStubId b) 0]) ∧
  (∀ b, (length (filter (λ n, n_id n = baseStubId b)
                   (nodes (transformDataToGraph p st))) ≤ 1)%nat) ∧
  (∀ n b, n ∈ nodes (transformDataToGraph p st) → n_id n = baseStubId b →
          n_type n = TClass ∧ n_label n = b ∧
          n_nodeData n =
            ClassData {| c_name := b; c_bases := []; c_docstring := None;
                         c_methods := [] |}).
Proof.
  pose proof (WF_transformDataToGraph p st) as Hwf.
  split_and!.
  - intros ci c b Hc Hb Hsc Hm Hcls Hfun.
    assert (filter (inheritsFrom ci) (edges (transformDataToGraph p st)) =
            [inheritsEdge (classId ci) (baseStubId b) 0]) as Hedge.
    { rewrite inherits_edges_of_build, buildEntities_unfold, Hsc.
      by eapply classes_loop_inherits. }
    split; [|done].
    apply filter_single.
    + apply (wf_stubs Hwf).
    + intros n Hn Hid.
      apply (nodeForm_base p st); [apply (wf_nodes Hwf n Hn)|done].
    + assert (inheritsEdge (classId ci) (baseStubId b) 0 ∈
              edges (transformDataToGraph p st)) as Hin.
      { eapply (proj1 (list_elem_of_filter (inheritsFrom ci) _ _)).
        rewrite Hedge. apply list_elem_of_here. }
      destruct (wf_edges Hwf _ Hin) as (_ & _ & Htgt).
      apply list_elem_of_fmap in Htgt as (n & Hid & Hn). by exists n.
  - apply (wf_stubs Hwf).
  - intros n b Hn Hid.
    by rewrite (nodeForm_base p st n b (wf_nodes Hwf n Hn) Hid).
Qed.

(** ** Function calls *)

(** C5.  With [showRelationships = true] the [function_calls] record at
    index [i] yields an edge with id [call-i] if and only if its callee is a
    non-empty name that the registry resolves, its caller is present (a
    non-empty, non-null name) and resolved by the registry, and the two
    resolved ids differ; the edge is then the only one with that id and is
    the calls edge from the caller's id to the callee's id.  Otherwise the
    record leaves no edge.  For the call from [f] to [g] between the two
    function nodes the build has the single edge [func-0 → func-1]. *)
Theorem function_call_edge_iff :
  (∀ p st (i : nat) call,
     showRelationships st = true →
     function_calls (relationships p) !! i = Some call →
     ((∃ e, e ∈ edges (transformDataToGraph p st) ∧ e_id e = "call-" +:+ pretty i) ↔
      (∃ a b, resolvesCall (registry p st) call a b)) ∧
     (∀ a b, resolvesCall (registry p st) call a b →
        filter (hasEdgeId ("call-" +:+ pretty i)) (edges (transformDataToGraph p st)) =
        [callEdge i a b])) ∧
  edges (transformDataToGraph sampleCalls (allOn "")) = [callEdge 0 "func-0" "func-1"].
Proof.
  split; [|reflexivity].
  intros p st i call Hsr Hcall.
  destruct (call_edges_of_build p st i call Hsr Hcall) as [Hyes Hno].
  split; [|done]. split.
  - intros (e & He & Hid).
    destruct (resolvesCall_dec (registry p st) call) as [|Hnone]; [done|].
    assert (e ∈ filter (hasEdgeId ("call-" +:+ pretty i))
                  (edges (transformDataToGraph p st))) as Hin.
    { by apply list_elem_of_filter. }
    rewrite (Hno Hnone) in Hin. by apply elem_of_nil in Hin.
  - intros (a & b & Hres). exists (callEdge i a b). split; [|done].
    eapply (proj1 (list_elem_of_filter (hasEdgeId ("call-" +:+ pretty i)) _ _)).
    rewrite (Hyes a b Hres). apply list_elem_of_here.
Qed.

(** * Further properties of the build *)

(** ** The search predicate *)

Lemma prefix_empty s : String.prefix "" s = true.
Proof. by destruct s. Qed.

Lemma append_cons c s t : String c s +:+ t = String c (s +:+ t).
Proof. reflexivity. Qed.

Lemma append_nil_l t : "" +:+ t = t.
Proof. reflexivity. Qed.

Lemma append_empty_r s : s +:+ "" = s.
Proof. induction s as [|c s IH]; [done|]. by rewrite append_cons, IH. Qed.

Lemma append_assoc (a b c : string) : (a +:+ b) +:+ c = a +:+ (b +:+ c).
Proof.
  induction a as [|x a IH]; [done|]. by rewrite !append_cons, IH.
Qed.

Lemma prefix_iff t s : String.prefix t s = true ↔ ∃ b, s = t +:+ b.
Proof.
  revert s. induction t as [|c t IH]; intros s.
  - rewrite prefix_empty. split; [|done]. intros _. by exists s.
  - destruct s as [|d s]; simpl.
    + split; [done|]. intros (b & Hb). by rewrite append_cons in Hb.
    + destruct (ascii_dec c d) as [->|Hne].
      * rewrite IH. split.
        -- intros (b & ->). by exists b.
        -- intros (b & Hb). exists b. rewrite append_cons in Hb. by simplify_eq.
      * split; [done|]. intros (b & Hb). rewrite append_cons in Hb. by simplify_eq.
Qed.

Lemma includes_iff s t : includes s t = true ↔ ∃ a b, s = a +:+ t +:+ b.
Proof.
  induction s as [|c s IH].
  - cbn [includes]. rewrite orb_false_r, prefix_iff. split.
    + intros (b & ->). by exists "", b.
    + intros ([|x a] & b & Hb); [by exists b|by rewrite append_cons in Hb].
  - cbn [includes]. rewrite orb_true_iff, prefix_iff, IH. split.
    + intros [(b & ->)|(a & b & ->)]; [by exists "", b|by exists (String c a), b].
    + intros ([|x a] & b & Hb); [left; by exists b|right].
      rewrite append_cons in Hb. simplify_eq. by exists a, b.
Qed.

Lemma matchesSearch_iff_occurs_aux st name :
  matchesSearch st name = true ↔
  ∃ a b, toLowerCase name = a +:+ toLowerCase (searchTerm st) +:+ b.
Proof.
  rewrite matchesSearch_containsCI. unfold containsCI. apply includes_iff.
Qed.

Lemma truthy_toLowerCase s : truthy (toLowerCase s) = truthy s.
Proof. apply toLowerCase_truthy. Qed.

Lemma matchesSearch_same_lower st1 st2 name :
  toLowerCase (searchTerm st1) = toLowerCase (searchTerm st2) →
  matchesSearch st1 name = matchesSearch st2 name.
Proof.
  intros H. unfold matchesSearch. rewrite H. f_equal.
  by rewrite <- (truthy_toLowerCase (searchTerm st1)), H, truthy_toLowerCase.
Qed.

Lemma forEach_ext {A St : Type} (f g : A → nat → St → St) l s :
  (∀ x i s', f x i s' = g x i s') → forEach f l s = forEach g l s.
Proof.
  intros Hfg. unfold forEach. generalize 0. revert s.
  induction l as [|x l IH]; intros s i; simpl; [done|]. by rewrite Hfg, IH.
Qed.

Lemma transformDataToGraph_ext p st1 st2 :
  (∀ name, matchesSearch st1 name = matchesSearch st2 name) →
  showFunctions st1 = showFunctions st2 → showClasses st1 = showClasses st2 →
  showMethods st1 = showMethods st2 → showRelationships st1 = showRelationships st2 →
  transformDataToGraph p st1 = transformDataToGraph p st2.
Proof.
  intros Hm Hsf Hsc Hsm Hsr.
  unfold transformDataToGraph, buildEntities. rewrite Hsf, Hsc, Hsr.
  assert (∀ s, forEach (addFunction st1) (functions p) s =
               forEach (addFunction st2) (functions p) s) as Hf.
  { intros s. apply forEach_ext. intros x i s'. unfold addFunction. by rewrite Hm. }
  assert (∀ s, forEach (addClass st1) (classes p) s =
               forEach (addClass st2) (classes p) s) as Hc.
  { intros s. apply forEach_ext. intros x i s'. unfold addClass. rewrite Hm, Hsm.
    destruct (matchesSearch st2 (c_name x)); [|done].
    rewrite (forEach_ext (addMethod st1 i (classId i)) (addMethod st2 i (classId i))); [done|].
    intros m mi s''. unfold addMethod. by rewrite Hm. }
  by rewrite Hf, Hc.
Qed.

(** X2. The search is case-insensitive in the term: two search terms with
    the same lower-casing (such as [Foo] and [fOO]) give the same nodes,
    edges and registry. *)
Theorem search_term_case_is_irrelevant p st t1 t2 :
  toLowerCase t1 = toLowerCase t2 →
  transformDataToGraph p (setSearchTerm t1 st) =
  transformDataToGraph p (setSearchTerm t2 st).
Proof.
  intros H. apply transformDataToGraph_ext; try done.
  intros name. by apply matchesSearch_same_lower.
Qed.

Lemma matchesSearch_narrow st st' name :
  includes (toLowerCase (searchTerm st')) (toLowerCase (searchTerm st)) = true →
  matchesSearch st' name = true → matchesSearch st name = true.
Proof.
  rewrite !matchesSearch_iff_occurs_aux, includes_iff.
  intros (c & d & Hin) (a & b & Hname).
  exists (a +:+ c), (d +:+ b). rewrite Hname, Hin. by rewrite !append_assoc.
Qed.

Lemma nodeFor_narrow p st t t' o n :
  includes (toLowerCase t') (toLowerCase t) = true →
  nodeFor p (setSearchTerm t' st) o = Some n →
  nodeFor p (setSearchTerm t st) o = Some n.
Proof.
  intros Hin.
  assert (∀ name, matchesSearch (setSearchTerm t' st) name = true →
                  matchesSearch (setSearchTerm t st) name = true) as Hm.
  { intros name. by apply matchesSearch_narrow. }
  destruct o as [i|ci|ci mi]; simpl.
  - destruct (functions p !! i) as [f|]; [|done]. simpl.
    destruct (showFunctions st); [|done]. simpl.
    destruct (matchesSearch (setSearchTerm t' st) (f_name f)) eqn:H1; [|done].
    by rewrite (Hm _ H1).
  - destruct (classes p !! ci) as [c|]; [|done]. simpl.
    destruct (showClasses st); [|done]. simpl.
    destruct (matchesSearch (setSearchTerm t' st) (c_name c)) eqn:H1; [|done].
    by rewrite (Hm _ H1).
  - destruct (classes p !! ci) as [c|]; [|done]. simpl.
    destruct (c_methods c !! mi) as [m|]; [|done]. simpl.
    destruct (showClasses st); [|done]. simpl.
    destruct (matchesSearch (setSearchTerm t' st) (c_name c)) eqn:H1; [|done].
    rewrite (Hm _ H1). simpl.
    destruct (showMethods st); [|done]. simpl.
    destruct (matchesSearch (setSearchTerm t' st) (f_name m)) eqn:H2; [|done].
    by rewrite (Hm _ H2).
Qed.

(** X3. Narrowing the search never brings an entity in: when the
    lower-casing of the term [t] occurs in the lower-casing of the term [t'],
    every function, class and method node of the build for [t'] is a node of
    the build for [t].  Only synthetic stubs are excepted. *)
Theorem narrowing_search_keeps_entities p st t t' n :
  includes (toLowerCase t') (toLowerCase t) = true →
  n ∈ nodes (transformDataToGraph p (setSearchTerm t' st)) →
  isStubId (n_id n) = false →
  n ∈ nodes (transformDataToGraph p (setSearchTerm t st)).
Proof.
  intros Hin Hn Hstub.
  destruct (nodeFor_sound _ _ _ Hn) as [(o & Ho)|(b & ->)].
  - apply (nodeFor_complete _ _ o). by eapply nodeFor_narrow.
  - simpl in Hstub. by rewrite isStubId_baseStubId in Hstub.
Qed.

(** ** The node tables of the three entity kinds *)

Lemma forEach_collect {A St X : Type} (proj : St → list X)
    (f : A → nat → St → St) (g : nat → A → list X) l s :
  (∀ j x s', l !! j = Some x → proj (f x j s') = proj s' ++ g j x) →
  proj (forEach f l s) = proj s ++ concat (imap g l).
Proof.
  intros Hstep.
  cut (proj (forEach f l s) = proj s ++ concat (imap g (take (length l) l))).
  { by rewrite firstn_all. }
  apply (forEach_inv f (λ j s', proj s' = proj s ++ concat (imap g (take j l)))).
  - simpl. by rewrite app_nil_r.
  - intros j x s' Hx Hs'. rewrite (Hstep j x s' Hx), Hs'.
    rewrite (take_S_r _ _ _ Hx), imap_app, concat_app, app_assoc.
    rewrite length_take_le by (apply Nat.lt_le_incl; by eapply lookup_lt_Some).
    simpl. by rewrite Nat.add_0_r, app_nil_r.
Qed.

Lemma concat_imap_filter {A B : Type} (h : nat → A → B) (P : A → bool)
    (Q : B → Prop) `{∀ y, Decision (Q y)} (l : list A) :
  (∀ i x, Q (h i x) ↔ P x = true) →
  concat (imap (λ i x, if P x then [h i x] else []) l) = filter Q (imap h l).
Proof.
  revert h. induction l as [|x l IH]; intros h HQ; [done|].
  rewrite !imap_cons. simpl.
  rewrite (imap_ext _ (λ i y, if P y then [(h ∘ S) i y] else [])) by done.
  rewrite (IH (h ∘ S)) by (intros i y; apply HQ).
  destruct (P x) eqn:HP.
  - rewrite filter_cons_True by by apply HQ. done.
  - rewrite filter_cons_False; [done|]. rewrite HQ. congruence.
Qed.

Lemma addFunction_nodes_eq st f i s :
  nodes (addFunction st f i s) =
  nodes s ++ (if matchesSearch st (f_name f) then [functionNode i f] else []).
Proof.
  unfold addFunction. destruct (matchesSearch st (f_name f)); simpl; [done|].
  by rewrite app_nil_r.
Qed.

Lemma functionsPass_nodes p st :
  nodes (functionsPass p st) =
  if showFunctions st
  then filter (λ n, containsCI (n_label n) (searchTerm st) = true)
         (imap functionNode (functions p))
  else [].
Proof.
  unfold functionsPass. destruct (showFunctions st); [|done].
  rewrite (forEach_collect nodes _
             (λ i f, if matchesSearch st (f_name f) then [functionNode i f] else [])).
  - simpl. apply (concat_imap_filter functionNode (λ f, matchesSearch st (f_name f))).
    intros i f. simpl. by rewrite matchesSearch_containsCI.
  - intros j x s' _. apply addFunction_nodes_eq.
Qed.

Lemma nodesOfType_functions_classes p st s :
  nodesOfType TFunction (nodes (forEach (addClass st) (classes p) s)) =
  nodesOfType TFunction (nodes s).
Proof.
  apply (appends_filter_out
           (λ n, n_type n = TClass ∨ (showMethods st = true ∧ n_type n = TMethod))).
  - apply (forEach_appends nodes). intros. apply addClass_nodes.
  - intros n [?|[_ ?]]; congruence.
Qed.

Lemma filter_all {A} (P : A → Prop) `{∀ x, Decision (P x)} (l : list A) :
  (∀ x, x ∈ l → P x) → filter P l = l.
Proof.
  induction l as [|x l IH]; intros Hl; [done|].
  rewrite filter_cons_True by (apply Hl, list_elem_of_here).
  f_equal. apply IH. intros y Hy. apply Hl. by apply list_elem_of_further.
Qed.

(** X4. The function nodes of a build are, in array order, the nodes
    [func-i] of the functions whose lower-cased name includes the lower-cased
    search term; classes, methods and stubs add no function node, and with
    [showFunctions = false] the build has no function node at all. *)
Theorem function_nodes_match_search p st :
  nodesOfType TFunction (nodes (transformDataToGraph p st)) =
  if showFunctions st
  then filter (λ n, containsCI (n_label n) (searchTerm st) = true)
         (imap functionNode (functions p))
  else [].
Proof.
  rewrite nodes_transformDataToGraph, buildEntities_unfold.
  assert (nodesOfType TFunction (nodes (functionsPass p st)) =
          nodes (functionsPass p st)) as Hall.
  { apply filter_all. intros n Hn. by apply (functionsPass_frame p st). }
  destruct (showClasses st).
  - by rewrite nodesOfType_functions_classes, Hall, functionsPass_nodes.
  - by rewrite Hall, functionsPass_nodes.
Qed.

Lemma addMethod_nodes_eq st ci cid m mi s :
  nodes (addMethod st ci cid m mi s) =
  nodes s ++ (if matchesSearch st (f_name m) then [methodNode ci mi m] else []).
Proof.
  unfold addMethod. destruct (matchesSearch st (f_name m)); simpl; [done|].
  by rewrite app_nil_r.
Qed.

Lemma methods_loop_nodes st ci cid ms s :
  nodes (forEach (addMethod st ci cid) ms s) =
  nodes s ++ filter (λ n, containsCI (n_label n) (searchTerm st) = true)
               (imap (methodNode ci) ms).
Proof.
  rewrite (forEach_collect nodes _
             (λ mi m, if matchesSearch st (f_name m) then [methodNode ci mi m] else [])).
  - f_equal. apply (concat_imap_filter (methodNode ci) (λ m, matchesSearch st (f_name m))).
    intros i m. simpl. by rewrite matchesSearch_containsCI.
  - intros j x s' _. apply addMethod_nodes_eq.
Qed.

Lemma methodTable_types st ci c n :
  n ∈ filter (λ n, containsCI (n_label n) (searchTerm st) = true) (methodTable ci c) →
  n_type n = TMethod.
Proof.
  intros [_ Hn]%list_elem_of_filter. unfold methodTable in Hn.
  apply elem_of_lookup_imap in Hn as (i & m & -> & _). done.
Qed.

Lemma addClass_method_nodes st c ci s :
  nodesOfType TMethod (nodes (addClass st c ci s)) =
  nodesOfType TMethod (nodes s) ++
  (if matchesSearch st (c_name c) && showMethods st
   then filter (λ n, containsCI (n_label n) (searchTerm st) = true) (methodTable ci c)
   else []).
Proof.
  rewrite addClass_members. unfold nodesOfType.
  destruct (matchesSearch st (c_name c)); simpl; [|by rewrite app_nil_r].
  rewrite (appends_filter_out (λ n, n_type n = TClass) (λ n, n_type n = TMethod)
             (nodes (addClassMembers st c ci s))).
  - unfold addClassMembers. destruct (showMethods st).
    + rewrite methods_loop_nodes. simpl. rewrite !filter_app.
      rewrite filter_cons_False by done. rewrite filter_nil, app_nil_r. f_equal.
      apply filter_all. intros n Hn. by eapply methodTable_types.
    + simpl. rewrite filter_app, filter_cons_False by done. done.
  - apply (forEach_appends nodes). intros. apply addBase_nodes.
  - intros n ??. congruence.
Qed.

Lemma concat_imap_nil {A B : Type} (g : nat → A → list B) (l : list A) :
  (∀ i x, g i x = []) → concat (imap g l) = [].
Proof.
  revert g. induction l as [|x l IH]; intros g Hg; [done|].
  rewrite imap_cons. simpl. rewrite Hg. apply IH. intros i y. apply Hg.
Qed.

Lemma method_nodes_table_aux p st :
  nodesOfType TMethod (nodes (transformDataToGraph p st)) =
  if showClasses st && showMethods st
  then concat (imap (λ ci c,
         if containsCI (c_name c) (searchTerm st)
         then filter (λ n, containsCI (n_label n) (searchTerm st) = true)
                (methodTable ci c)
         else []) (classes p))
  else [].
Proof.
  rewrite nodes_transformDataToGraph, buildEntities_unfold.
  assert (nodesOfType TMethod (nodes (functionsPass p st)) = []) as Hnil.
  { apply filter_none. intros n Hn Hty.
    rewrite (proj1 (functionsPass_frame p st) n Hn) in Hty. done. }
  destruct (showClasses st); simpl; [|done].
  rewrite (forEach_collect (λ s, nodesOfType TMethod (nodes s)) _
             (λ ci c, if matchesSearch st (c_name c) && showMethods st
                      then filter (λ n, containsCI (n_label n) (searchTerm st) = true)
                             (methodTable ci c)
                      else [])).
  - rewrite Hnil. simpl. destruct (showMethods st).
    + f_equal. apply imap_ext. intros i c _. simpl.
      by rewrite matchesSearch_containsCI, andb_true_r.
    + apply concat_imap_nil. intros i c. by rewrite andb_false_r.
  - intros j x s' _. apply addClass_method_nodes.
Qed.

(** X5. The method nodes of a build are, class by class in array order and
    method by method, the nodes [method-ci-mi] of the methods whose
    lower-cased name includes the lower-cased search term, inside the classes
    whose lower-cased name includes it too: a matching method of a class that
    fails the filter has no node.  The build has no method node unless both
    [showClasses] and [showMethods] are set. *)
Theorem method_nodes_match_search p st :
  nodesOfType TMethod (nodes (transformDataToGraph p st)) =
  if showClasses st && showMethods st
  then concat (imap (λ ci c,
         if containsCI (c_name c) (searchTerm st)
         then filter (λ n, containsCI (n_label n) (searchTerm st) = true)
                (methodTable ci c)
         else []) (classes p))
  else [].
Proof. apply method_nodes_table_aux. Qed.

(** ** Contains edges and method nodes go in pairs *)

Lemma contains_targets_snoc_node (s : Acc) n :
  n_type n ≠ TMethod →
  n_id <$> nodesOfType TMethod (nodes s ++ [n]) = n_id <$> nodesOfType TMethod (nodes s).
Proof.
  intros Hty. unfold nodesOfType. rewrite filter_app, filter_cons_False by done.
  by rewrite filter_nil, app_nil_r.
Qed.

Lemma contains_targets_snoc_edge (s : Acc) e :
  e_type e ≠ Contains →
  e_target <$> edgesOfType Contains (edges s ++ [e]) =
  e_target <$> edgesOfType Contains (edges s).
Proof.
  intros Hty. unfold edgesOfType. rewrite filter_app, filter_cons_False by done.
  by rewrite filter_nil, app_nil_r.
Qed.

Lemma containsPaired_addFunction st f i s :
  containsPaired s → containsPaired (addFunction st f i s).
Proof.
  unfold containsPaired, addFunction. intros H.
  destruct (matchesSearch st (f_name f)); [|done]. simpl.
  by rewrite contains_targets_snoc_node.
Qed.

Lemma containsPaired_addMethod st ci cid m mi s :
  containsPaired s → containsPaired (addMethod st ci cid m mi s).
Proof.
  unfold containsPaired, addMethod. intros H.
  destruct (matchesSearch st (f_name m)); [|done]. simpl.
  unfold edgesOfType, nodesOfType in *.
  rewrite !filter_app, !fmap_app, H.
  rewrite (filter_cons_True _ (containsEdge _ _)) by done.
  by rewrite (filter_cons_True _ (methodNode _ _ _)) by done.
Qed.

Lemma containsPaired_addBase cid base bi s :
  containsPaired s → containsPaired (addBase cid base bi s).
Proof.
  unfold containsPaired, addBase. intros H.
  destruct (List.find _ (nodes s)); simpl.
  - by rewrite contains_targets_snoc_edge.
  - rewrite contains_targets_snoc_edge by done.
    by rewrite contains_targets_snoc_node.
Qed.

Lemma containsPaired_addClass st c ci s :
  containsPaired s → containsPaired (addClass st c ci s).
Proof.
  intros H. rewrite addClass_members.
  destruct (matchesSearch st (c_name c)); [|done].
  apply forEach_preserve; [|intros; by apply containsPaired_addBase].
  unfold addClassMembers.
  assert (containsPaired (setName (c_name c) (classId ci)
                            (pushNode (classNode ci c) s))) as H1.
  { unfold containsPaired in *. simpl. by rewrite contains_targets_snoc_node. }
  destruct (showMethods st); [|done].
  apply forEach_preserve; [done|]. intros. by apply containsPaired_addMethod.
Qed.

Lemma containsPaired_build p st : containsPaired (transformDataToGraph p st).
Proof.
  assert (containsPaired (buildEntities p st)) as Hb.
  { rewrite buildEntities_unfold.
    assert (containsPaired (functionsPass p st)) as Hf.
    { unfold functionsPass. destruct (showFunctions st); [|done].
      apply forEach_preserve; [done|]. intros. by apply containsPaired_addFunction. }
    destruct (showClasses st); [|done].
    apply forEach_preserve; [done|]. intros. by apply containsPaired_addClass. }
  unfold transformDataToGraph. destruct (showRelationships st); [|done].
  destruct (buildRelationships_frame p (buildEntities p st)) as (Hn & _ & Ha).
  unfold containsPaired, edgesOfType in *. rewrite Hn.
  rewrite (appends_filter_out _ _ _ _ Ha); [done|]. intros e ??. congruence.
Qed.

Lemma node_with_classId p st s ci :
  WF p st s → classId ci ∈ ids (nodes s) →
  ∃ c, classes p !! ci = Some c ∧ classNode ci c ∈ nodes s.
Proof.
  intros Hwf (n & Hid & Hn)%list_elem_of_fmap.
  destruct (wf_nodes Hwf n Hn) as [| ci' c Hc _ _| |]; simpl in Hid; try done.
  apply classId_inj in Hid. subst. by exists c.
Qed.

(** X6. Contains edges and method nodes go in pairs: the targets of the
    contains edges of a build are, in order, the ids of its method nodes, and
    every contains edge leaves the node [class-ci] of a parsed class that is
    in the same build and has the id [edge-{source}-{target}]. *)
Theorem contains_edges_pair_with_method_nodes p st :
  e_target <$> edgesOfType Contains (edges (transformDataToGraph p st)) =
  n_id <$> nodesOfType TMethod (nodes (transformDataToGraph p st)) ∧
  (∀ e, e ∈ edges (transformDataToGraph p st) → e_type e = Contains →
        ∃ ci c, classes p !! ci = Some c ∧
                classNode ci c ∈ nodes (transformDataToGraph p st) ∧
                e = containsEdge (classId ci) (e_target e)).
Proof.
  split; [apply containsPaired_build|].
  intros e He Hty. pose proof (WF_transformDataToGraph p st) as Hwf.
  destruct (wf_edges Hwf e He) as (Hform & Hsrc & _).
  destruct Hform as [ci mi _| | |]; try done.
  destruct (node_with_classId p st _ ci Hwf Hsrc) as (c & Hc & Hin).
  by exists ci, c.
Qed.

(** ** Counting the inherits edges *)

Lemma bases_loop_inherits_count cid bs i s :
  length (edgesOfType Inherits (edges (forEachFrom (addBase cid) i bs s))) =
  length (edgesOfType Inherits (edges s)) + length bs.
Proof.
  revert i s. induction bs as [|b bs IH]; intros i s; simpl; [lia|].
  rewrite IH, addBase_edges. unfold edgesOfType.
  rewrite filter_app, length_app, (filter_cons_True _ (inheritsEdge _ _ _)) by done.
  simpl. lia.
Qed.

Lemma addClass_inherits_count st c ci s :
  length (edgesOfType Inherits (edges (addClass st c ci s))) =
  length (edgesOfType Inherits (edges s)) +
  (if matchesSearch st (c_name c) then length (c_bases c) else 0).
Proof.
  rewrite addClass_members. destruct (matchesSearch st (c_name c)); [|lia].
  unfold forEach. rewrite bases_loop_inherits_count. f_equal.
  unfold edgesOfType. f_equal.
  apply (appends_filter_out _ _ _ _ (addClassMembers_edges st c ci s)).
  intros e [? _] ?. congruence.
Qed.

Lemma classes_loop_inherits_count st cs i s :
  length (edgesOfType Inherits (edges (forEachFrom (addClass st) i cs s))) =
  length (edgesOfType Inherits (edges s)) +
  sum_list ((λ c, length (c_bases c)) <$>
              filter (λ c, matchesSearch st (c_name c) = true) cs).
Proof.
  revert i s. induction cs as [|c cs IH]; intros i s; simpl; [lia|].
  rewrite IH, addClass_inherits_count.
  destruct (matchesSearch st (c_name c)) eqn:Hm.
  - rewrite (filter_cons_True _ c) by done. simpl. by rewrite Nat.add_assoc.
  - rewrite (filter_cons_False _ c) by congruence. lia.
Qed.

(** X7. The number of inherits edges of a build is the total number of
    bases of the classes that pass the class filter: every base of a visible
    class gets one edge, whether it resolves to a parsed entity or to a stub,
    and whatever [showFunctions], [showMethods] and [showRelationships] are. *)
Theorem inherits_edges_count p st :
  length (edgesOfType Inherits (edges (transformDataToGraph p st))) =
  sum_list ((λ c, length (c_bases c)) <$> visibleClasses p st).
Proof.
  assert (edgesOfType Inherits (edges (transformDataToGraph p st)) =
          edgesOfType Inherits (edges (buildEntities p st))) as ->.
  { unfold transformDataToGraph. destruct (showRelationships st); [|done].
    destruct (buildRelationships_frame p (buildEntities p st)) as (_ & _ & Ha).
    apply (appends_filter_out _ _ _ _ Ha). intros e ??. congruence. }
  rewrite buildEntities_unfold.
  destruct (functionsPass_frame p st) as [_ Hnil].
  destruct (showClasses st) eqn:Hsc.
  - unfold forEach. rewrite classes_loop_inherits_count, Hnil.
    by rewrite visibleClasses_shown.
  - by rewrite Hnil, visibleClasses_hidden.
Qed.

(** ** Who owns a name in the registry *)

Lemma addMethod_nodeMap st ci cid m mi s :
  nodeMap (addMethod st ci cid m mi s) = nodeMap s.
Proof. unfold addMethod. by destruct (matchesSearch st (f_name m)). Qed.

Lemma addClassMembers_nodeMap st c ci s :
  nodeMap (addClassMembers st c ci s) = <[c_name c := classId ci]> (nodeMap s).
Proof.
  unfold addClassMembers. destruct (showMethods st); [|done].
  apply (forEach_preserve _ (λ s', nodeMap s' = <[c_name c := classId ci]> (nodeMap s)));
    [done|].
  intros j x s' _ Hs'. by rewrite addMethod_nodeMap.
Qed.

(** Under the invariant [addBase] only ever adds the entry [base ↦ base-…]
    for a name that had no entry. *)
Lemma addBase_nodeMap p st cid base bi s :
  WF p st s →
  nodeMap (addBase cid base bi s) = nodeMap s ∨
  (nodeMap s !! base = None ∧
   nodeMap (addBase cid base bi s) = <[base := baseStubId base]> (nodeMap s)).
Proof.
  intros Hwf. unfold addBase.
  destruct (List.find _ (nodes s)) eqn:Hfind; simpl; [by left|].
  apply find_hasId_None in Hfind. right.
  rewrite (resolveBase_WF p st s base Hwf Hfind). split; [|done].
  destruct (nodeMap s !! base) as [v|] eqn:Hv; [|done].
  destruct (wf_reg Hwf base v Hv) as [Hreg Hin].
  destruct Hfind. unfold resolveBase. by rewrite Hv, (regEntry_truthy _ _ _ _ Hreg).
Qed.

Lemma addBase_nodeMap_keeps p st cid base bi s k v :
  WF p st s → nodeMap s !! k = Some v → nodeMap (addBase cid base bi s) !! k = Some v.
Proof.
  intros Hwf Hk. destruct (addBase_nodeMap p st cid base bi s Hwf) as [->|[Hnone ->]]; [done|].
  rewrite lookup_insert_ne; [done|]. intros ->. congruence.
Qed.

Lemma bases_loop_nodeMap_keeps p st ci c s k v :
  WF p st s → classes p !! ci = Some c →
  showClasses st = true → matchesSearch st (c_name c) = true →
  classId ci ∈ ids (nodes s) →
  nodeMap s !! k = Some v →
  nodeMap (forEach (addBase (classId ci)) (c_bases c) s) !! k = Some v.
Proof.
  intros Hwf Hc Hsc Hm Hcid Hk.
  cut (WF p st (forEach (addBase (classId ci)) (c_bases c) s) ∧
       classId ci ∈ ids (nodes (forEach (addBase (classId ci)) (c_bases c) s)) ∧
       nodeMap (forEach (addBase (classId ci)) (c_bases c) s) !! k = Some v).
  { by intros (_ & _ & ?). }
  apply (forEach_preserve _ (λ s', WF p st s' ∧ classId ci ∈ ids (nodes s') ∧
                                   nodeMap s' !! k = Some v)); [done|].
  intros j x s' Hx (Hwf' & Hcid' & Hk').
  destruct (WF_addBase p st ci c x j s') as [? ?]; try done.
  { by eapply list_elem_of_lookup_2. }
  split_and!; [done|done|]. by eapply addBase_nodeMap_keeps.
Qed.

Lemma addClass_nodeMap_own p st c ci s :
  WF p st s → classes p !! ci = Some c →
  showClasses st = true → matchesSearch st (c_name c) = true →
  nodeMap (addClass st c ci s) !! c_name c = Some (classId ci).
Proof.
  intros Hwf Hc Hsc Hm. rewrite addClass_members, Hm.
  destruct (WF_addClassMembers p st c ci s Hwf Hc Hsc Hm) as [Hwf2 Hcid].
  eapply bases_loop_nodeMap_keeps; try done.
  by rewrite addClassMembers_nodeMap, lookup_insert_eq.
Qed.

Lemma addClass_nodeMap_keeps p st c ci s k v :
  WF p st s → classes p !! ci = Some c → showClasses st = true →
  (matchesSearch st (c_name c) = true → c_name c ≠ k) →
  nodeMap s !! k = Some v →
  nodeMap (addClass st c ci s) !! k = Some v.
Proof.
  intros Hwf Hc Hsc Hne Hk. rewrite addClass_members.
  destruct (matchesSearch st (c_name c)) eqn:Hm; [|done].
  destruct (WF_addClassMembers p st c ci s Hwf Hc Hsc Hm) as [Hwf2 Hcid].
  eapply bases_loop_nodeMap_keeps; try done.
  rewrite addClassMembers_nodeMap, lookup_insert_ne; [done|]. by apply Hne.
Qed.

(** X8. The registry is last-write-wins in favour of classes: a visible
    class owns its name in the registry (over every function and every
    earlier class of that name) unless a later visible class bears the same
    name; stubs never take a name over. *)
Theorem registry_last_class_wins p st ci c :
  classes p !! ci = Some c →
  showClasses st = true → matchesSearch st (c_name c) = true →
  (∀ cj c', ci < cj → classes p !! cj = Some c' →
            matchesSearch st (c_name c') = true → c_name c' ≠ c_name c) →
  registry p st !! c_name c = Some (classId ci).
Proof.
  intros Hc Hsc Hm Hlast. unfold registry. rewrite buildEntities_unfold, Hsc.
  cut (WF p st (forEach (addClass st) (classes p) (functionsPass p st)) ∧
       (ci < length (classes p) →
        nodeMap (forEach (addClass st) (classes p) (functionsPass p st)) !! c_name c =
        Some (classId ci))).
  { intros [_ H]. apply H. by eapply lookup_lt_Some. }
  apply (forEach_inv (addClass st) (λ j s,
           WF p st s ∧ (ci < j → nodeMap s !! c_name c = Some (classId ci)))).
  - split; [apply WF_functionsPass|lia].
  - intros j x s' Hx [Hwf Hlook]. split; [by apply WF_addClass|]. intros Hlt.
    destruct (decide (j = ci)) as [->|Hne].
    + assert (x = c) as -> by congruence. by apply (addClass_nodeMap_own p).
    + apply (addClass_nodeMap_keeps p); try done.
      * intros Hmx. apply (Hlast j x); [lia|done|done].
      * apply Hlook. lia.
Qed.

Lemma functions_loop_registry st fs i f :
  fs !! i = Some f → matchesSearch st (f_name f) = true →
  (∀ i' f', i < i' → fs !! i' = Some f' →
            matchesSearch st (f_name f') = true → f_name f' ≠ f_name f) →
  nodeMap (forEach (addFunction st) fs emptyAcc) !! f_name f = Some (funcId i).
Proof.
  intros Hf Hm Hlast.
  cut (i < length fs →
       nodeMap (forEach (addFunction st) fs emptyAcc) !! f_name f = Some (funcId i)).
  { intros H. apply H. by eapply lookup_lt_Some. }
  apply (forEach_inv (addFunction st) (λ j s,
           i < j → nodeMap s !! f_name f = Some (funcId i))); [lia|].
  intros j x s' Hx Hlook Hlt. unfold addFunction.
  destruct (decide (j = i)) as [->|Hne].
  - assert (x = f) as -> by congruence. rewrite Hm. simpl. by rewrite lookup_insert_eq.
  - destruct (matchesSearch st (f_name x)) eqn:Hmx; [|apply Hlook; lia].
    simpl. rewrite lookup_insert_ne; [apply Hlook; lia|].
    apply (Hlast j x); [lia|done|done].
Qed.

(** X9. A visible function owns its name in the registry when no later
    visible function and no visible class bears the same name; among
    functions of one name the last one wins. *)
Theorem registry_last_function_wins p st i f :
  functions p !! i = Some f →
  showFunctions st = true → matchesSearch st (f_name f) = true →
  (∀ i' f', i < i' → functions p !! i' = Some f' →
            matchesSearch st (f_name f') = true → f_name f' ≠ f_name f) →
  (∀ c, c ∈ classes p → showClasses st = true →
        matchesSearch st (c_name c) = true → c_name c ≠ f_name f) →
  registry p st !! f_name f = Some (funcId i).
Proof.
  intros Hf Hsf Hm Hlast Hcls. unfold registry. rewrite buildEntities_unfold.
  assert (nodeMap (functionsPass p st) !! f_name f = Some (funcId i)) as H1.
  { unfold functionsPass. rewrite Hsf. by apply functions_loop_registry. }
  destruct (showClasses st) eqn:Hsc; [|done].
  cut (WF p st (forEach (addClass st) (classes p) (functionsPass p st)) ∧
       nodeMap (forEach (addClass st) (classes p) (functionsPass p st)) !! f_name f =
       Some (funcId i)).
  { by intros [_ ?]. }
  apply (forEach_preserve _ (λ s, WF p st s ∧ nodeMap s !! f_name f = Some (funcId i))).
  - split; [apply WF_functionsPass|done].
  - intros j x s' Hx [Hwf Hlook]. split; [by apply WF_addClass|].
    apply (addClass_nodeMap_keeps p); try done.
    intros Hmx. apply Hcls; [by eapply list_elem_of_lookup_2|done|done].
Qed.

(** ** Stubs for forward references *)

Lemma functionsPass_registry_values p st k v :
  nodeMap (functionsPass p st) !! k = Some v → ∃ i, v = funcId i.
Proof.
  unfold functionsPass. destruct (showFunctions st); [|simpl; by rewrite lookup_empty].
  revert k v.
  apply (forEach_preserve (addFunction st)
           (λ s, ∀ k v, nodeMap s !! k = Some v → ∃ i, v = funcId i)).
  - intros k v. simpl. by rewrite lookup_empty.
  - intros j x s' _ IH k v. unfold addFunction.
    destruct (matchesSearch st (f_name x)); [|apply IH]. simpl.
    destruct (decide (f_name x = k)) as [->|Hne].
    + rewrite lookup_insert_eq. intros [= <-]. by exists j.
    + rewrite lookup_insert_ne by done. apply IH.
Qed.

Lemma classEntriesBelow_functionsPass p st : classEntriesBelow p st 0 (functionsPass p st).
Proof.
  intros k cj Hk. destruct (functionsPass_registry_values p st k _ Hk) as (i & Hi).
  symmetry in Hi. by apply funcId_not_class in Hi.
Qed.

Lemma classEntriesBelow_mono p st (j j' : nat) s :
  (j ≤ j')%nat → classEntriesBelow p st j s → classEntriesBelow p st j' s.
Proof.
  intros Hle H k cj Hk. destruct (H k cj Hk) as [Hlt Hc]. split; [lia|done].
Qed.

Lemma classEntriesBelow_addBase p st j cid base bi s :
  WF p st s → classEntriesBelow p st j s →
  classEntriesBelow p st j (addBase cid base bi s).
Proof.
  intros Hwf H k cj.
  destruct (addBase_nodeMap p st cid base bi s Hwf) as [->|[_ ->]]; [apply H|].
  destruct (decide (base = k)) as [->|Hne].
  - rewrite lookup_insert_eq. intros Heq. exfalso.
    assert (baseStubId k = classId cj) as Heq' by congruence.
    symmetry in Heq'. by apply classId_not_base in Heq'.
  - rewrite lookup_insert_ne by done. apply H.
Qed.

Lemma classEntriesBelow_addClassMembers p st j c s :
  classEntriesBelow p st j s → classes p !! j = Some c →
  matchesSearch st (c_name c) = true →
  classEntriesBelow p st (S j) (addClassMembers st c j s).
Proof.
  intros H Hc Hm k cj. rewrite addClassMembers_nodeMap.
  destruct (decide (c_name c = k)) as [<-|Hne].
  - rewrite lookup_insert_eq. intros Heq.
    assert (classId j = classId cj) as Heq'%classId_inj by congruence. subst.
    split; [lia|]. by exists c.
  - rewrite lookup_insert_ne by done. intros Hk.
    destruct (H k cj Hk) as [Hlt Hex]. split; [lia|done].
Qed.

Lemma classEntriesBelow_addClass p st j c s :
  WF p st s → classEntriesBelow p st j s → classes p !! j = Some c →
  showClasses st = true →
  classEntriesBelow p st (S j) (addClass st c j s).
Proof.
  intros Hwf H Hc Hsc. rewrite addClass_members.
  destruct (matchesSearch st (c_name c)) eqn:Hm.
  2: { eapply classEntriesBelow_mono; [|done]. lia. }
  destruct (WF_addClassMembers p st c j s Hwf Hc Hsc Hm) as [Hwf2 Hcid].
  cut (WF p st (forEach (addBase (classId j)) (c_bases c) (addClassMembers st c j s)) ∧
       classId j ∈ ids (nodes (forEach (addBase (classId j)) (c_bases c)
                                 (addClassMembers st c j s))) ∧
       classEntriesBelow p st (S j)
         (forEach (addBase (classId j)) (c_bases c) (addClassMembers st c j s))).
  { by intros (_ & _ & ?). }
  apply (forEach_preserve _ (λ s', WF p st s' ∧ classId j ∈ ids (nodes s') ∧
                                   classEntriesBelow p st (S j) s')).
  - split_and!; [done|done|]. by apply classEntriesBelow_addClassMembers.
  - intros k x s' Hx (Hwf' & Hcid' & H').
    destruct (WF_addBase p st j c x k s') as [? ?]; try done.
    { by eapply list_elem_of_lookup_2. }
    split_and!; [done|done|]. by apply classEntriesBelow_addBase.
Qed.

Lemma resolveBase_forward p st ci s b :
  WF p st s → classEntriesBelow p st (S ci) s →
  (∀ f, f ∈ functions p → showFunctions st = true →
        matchesSearch st (f_name f) = true → f_name f ≠ b) →
  (∀ cj c', (cj ≤ ci)%nat → classes p !! cj = Some c' →
            matchesSearch st (c_name c') = true → c_name c' ≠ b) →
  resolveBase (nodeMap s) b = baseStubId b.
Proof.
  intros Hwf Hbelow Hfun Hcls. unfold resolveBase.
  destruct (nodeMap s !! b) as [v|] eqn:Hv; [|done].
  destruct (wf_reg Hwf b v Hv) as [Hreg _].
  destruct Hreg as [i f Hf Hname Hsf Hm|cj c' _ _|].
  - exfalso. apply (Hfun f); [by eapply list_elem_of_lookup_2|done| |done].
    by rewrite Hname.
  - exfalso. destruct (Hbelow b cj Hv) as (Hlt & c'' & Hc'' & Hname & Hm).
    apply (Hcls cj c''); [lia|done| |done]. by rewrite Hname.
  - done.
Qed.

Lemma addBase_gives_stub p st cid b bi s :
  WF p st s → resolveBase (nodeMap s) b = baseStubId b →
  stubNode (baseStubId b) b ∈ nodes (addBase cid b bi s) ∧
  inheritsEdge cid (baseStubId b) bi ∈ edges (addBase cid b bi s).
Proof.
  intros Hwf Hres. split.
  - unfold addBase. rewrite Hres.
    destruct (List.find _ (nodes s)) as [n|] eqn:Hfind; simpl.
    + apply find_some in Hfind as [Hin Hid]. apply list_elem_of_In in Hin.
      unfold hasId in Hid. apply bool_decide_eq_true in Hid.
      by rewrite <- (nodeForm_base p st n b (wf_nodes Hwf n Hin) Hid).
    + apply elem_of_app. right. apply list_elem_of_here.
  - rewrite addBase_edges, Hres. apply elem_of_app. right. apply list_elem_of_here.
Qed.

Lemma addClass_gives_stub p st ci c bi b s :
  WF p st s → classEntriesBelow p st ci s →
  classes p !! ci = Some c → c_bases c !! bi = Some b →
  showClasses st = true → matchesSearch st (c_name c) = true →
  (∀ f, f ∈ functions p → showFunctions st = true →
        matchesSearch st (f_name f) = true → f_name f ≠ b) →
  (∀ cj c', (cj ≤ ci)%nat → classes p !! cj = Some c' →
            matchesSearch st (c_name c') = true → c_name c' ≠ b) →
  stubNode (baseStubId b) b ∈ nodes (addClass st c ci s) ∧
  inheritsEdge (classId ci) (baseStubId b) bi ∈ edges (addClass st c ci s).
Proof.
  intros Hwf Hbelow Hc Hb Hsc Hm Hfun Hcls. rewrite addClass_members, Hm.
  destruct (WF_addClassMembers p st c ci s Hwf Hc Hsc Hm) as [Hwf2 Hcid].
  pose proof (classEntriesBelow_addClassMembers p st ci c s Hbelow Hc Hm) as Hbelow2.
  cut (WF p st (forEach (addBase (classId ci)) (c_bases c) (addClassMembers st c ci s)) ∧
       classId ci ∈ ids (nodes (forEach (addBase (classId ci)) (c_bases c)
                                  (addClassMembers st c ci s))) ∧
       classEntriesBelow p st (S ci)
         (forEach (addBase (classId ci)) (c_bases c) (addClassMembers st c ci s)) ∧
       (bi < length (c_bases c) →
        stubNode (baseStubId b) b ∈
          nodes (forEach (addBase (classId ci)) (c_bases c) (addClassMembers st c ci s)) ∧
        inheritsEdge (classId ci) (baseStubId b) bi ∈
          edges (forEach (addBase (classId ci)) (c_bases c) (addClassMembers st c ci s)))).
  { intros (_ & _ & _ & H). apply H. by eapply lookup_lt_Some. }
  apply (forEach_inv (addBase (classId ci)) (λ k s',
           WF p st s' ∧ classId ci ∈ ids (nodes s') ∧
           classEntriesBelow p st (S ci) s' ∧
           (bi < k → stubNode (baseStubId b) b ∈ nodes s' ∧
                     inheritsEdge (classId ci) (baseStubId b) bi ∈ edges s'))).
  - split_and!; [done|done|done|lia].
  - intros k x s' Hx (Hwf' & Hcid' & Hbelow' & Hdone).
    destruct (WF_addBase p st ci c x k s') as [? ?]; try done.
    { by eapply list_elem_of_lookup_2. }
    split_and!; [done|done|by apply classEntriesBelow_addBase|]. intros Hlt.
    destruct (decide (k = bi)) as [->|Hne].
    + assert (x = b) as -> by congruence.
      apply (addBase_gives_stub p st); [done|]. by eapply resolveBase_forward.
    + destruct Hdone as [Hn He]; [lia|]. split.
      * eapply appends_elem; [apply addBase_nodes|done].
      * eapply appends_elem; [apply addBase_edges_appends|done].
Qed.

(** X10. A base of a visible class that is the name of no visible function
    and of no visible class at or before that class's position gets the stub
    node [base-b], and the inherits edge of that base targets the stub.  A
    class of that name declared later does not prevent it (and then has a
    node [class-j] of its own beside the stub). *)
Theorem stub_for_forward_reference p st ci c bi b :
  classes p !! ci = Some c → c_bases c !! bi = Some b →
  showClasses st = true → matchesSearch st (c_name c) = true →
  (∀ f, f ∈ functions p → showFunctions st = true →
        matchesSearch st (f_name f) = true → f_name f ≠ b) →
  (∀ cj c', (cj ≤ ci)%nat → classes p !! cj = Some c' →
            matchesSearch st (c_name c') = true → c_name c' ≠ b) →
  stubNode (baseStubId b) b ∈ nodes (transformDataToGraph p st) ∧
  inheritsEdge (classId ci) (baseStubId b) bi ∈ edges (transformDataToGraph p st).
Proof.
  intros Hc Hb Hsc Hm Hfun Hcls.
  cut (stubNode (baseStubId b) b ∈ nodes (buildEntities p st) ∧
       inheritsEdge (classId ci) (baseStubId b) bi ∈ edges (buildEntities p st)).
  { intros [Hn He]. rewrite nodes_transformDataToGraph. split; [done|].
    unfold transformDataToGraph. destruct (showRelationships st); [|done].
    destruct (buildRelationships_frame p (buildEntities p st)) as (_ & _ & Ha).
    by eapply appends_elem. }
  rewrite buildEntities_unfold, Hsc.
  cut (WF p st (forEach (addClass st) (classes p) (functionsPass p st)) ∧
       classEntriesBelow p st (length (classes p))
         (forEach (addClass st) (classes p) (functionsPass p st)) ∧
       (ci < length (classes p) →
        stubNode (baseStubId b) b ∈
          nodes (forEach (addClass st) (classes p) (functionsPass p st)) ∧
        inheritsEdge (classId ci) (baseStubId b) bi ∈
          edges (forEach (addClass st) (classes p) (functionsPass p st)))).
  { intros (_ & _ & H). apply H. by eapply lookup_lt_Some. }
  apply (forEach_inv (addClass st) (λ j s,
           WF p st s ∧ classEntriesBelow p st j s ∧
           (ci < j → stubNode (baseStubId b) b ∈ nodes s ∧
                     inheritsEdge (classId ci) (baseStubId b) bi ∈ edges s))).
  - split_and!; [apply WF_functionsPass|apply classEntriesBelow_functionsPass|lia].
  - intros j x s' Hx (Hwf & Hbelow & Hdone).
    split_and!; [by apply WF_addClass|by apply classEntriesBelow_addClass|].
    intros Hlt. destruct (decide (j = ci)) as [->|Hne].
    + assert (x = c) as -> by congruence. by eapply addClass_gives_stub.
    + destruct Hdone as [Hn He]; [lia|]. split.
      * eapply appends_elem; [apply addClass_nodes|done].
      * eapply appends_elem; [apply addClass_edges|done].
Qed.

(** ** Identifiers are parsed back uniquely *)

Lemma digits_pretty_N_go x s : digits s → digits (pretty_N_go x s).
Proof.
  revert s. induction (N.lt_wf_0 x) as [x _ IH]; intros s Hs.
  destruct (decide (x = 0)%N) as [->|Hne]; [by rewrite pretty_N_go_0|].
  rewrite pretty_N_go_step by lia. apply IH.
  - apply N.div_lt; lia.
  - split; [|done]. unfold pretty_N_char. by repeat case_match.
Qed.

Lemma digits_pretty (n : nat) : digits (pretty n).
Proof.
  unfold pretty, pretty_nat, pretty, pretty_N. case_decide; [done|].
  by apply digits_pretty_N_go.
Qed.

(** Digits, a dash, anything: the split at the first dash is unique. *)
Lemma dash_split_l a b x y :
  digits a → digits b →
  a +:+ String "-" x = b +:+ String "-" y → a = b ∧ x = y.
Proof.
  revert b. induction a as [|c a IH]; intros [|d b] Ha Hb Heq.
  - rewrite !append_nil_l in Heq. split; [done|]. by simplify_eq.
  - rewrite append_cons, append_nil_l in Heq. destruct Hb as [Hd _].
    assert (d = "-"%char) as -> by congruence. done.
  - rewrite append_cons, append_nil_l in Heq. destruct Ha as [Hc _].
    assert (c = "-"%char) as -> by congruence. done.
  - rewrite !append_cons in Heq. destruct Ha as [_ Ha], Hb as [_ Hb].
    assert (c = d) as -> by congruence.
    destruct (IH b Ha Hb) as [-> ->]; [congruence|done].
Qed.

Lemma digits_no_dash x a : ¬ digits (x +:+ String "-" a).
Proof.
  induction x as [|c x IH].
  - rewrite append_nil_l. by intros [? _].
  - rewrite append_cons. intros [_ ?]. by apply IH.
Qed.

(** Anything, a dash, digits: the split at the last dash is unique. *)
Lemma dash_split_r x y a b :
  digits a → digits b →
  x +:+ String "-" a = y +:+ String "-" b → x = y ∧ a = b.
Proof.
  revert y. induction x as [|c x IH]; intros [|d y] Ha Hb Heq.
  - rewrite !append_nil_l in Heq. split; [done|]. by simplify_eq.
  - rewrite append_cons, !append_nil_l in Heq.
    assert (a = y +:+ String "-" b) as -> by congruence.
    by apply digits_no_dash in Ha.
  - rewrite append_cons, !append_nil_l in Heq.
    assert (b = x +:+ String "-" a) as -> by congruence.
    by apply digits_no_dash in Hb.
  - rewrite !append_cons in Heq.
    assert (c = d) as -> by congruence.
    destruct (IH y Ha Hb) as [-> ->]; [congruence|done].
Qed.

Lemma methodId_inj ci mi cj mj : methodId ci mi = methodId cj mj → ci = cj ∧ mi = mj.
Proof.
  unfold methodId. intros H%String.app_inj.
  change (pretty ci +:+ String "-" (pretty mi) = pretty cj +:+ String "-" (pretty mj)) in H.
  apply dash_split_l in H as [H1%pretty_nat_inj H2%pretty_nat_inj];
    [done|apply digits_pretty..].
Qed.

(** ** Node ids are pairwise distinct *)

Lemma nodeIdsWithin_push_fresh U n s :
  nodeIdsWithin U s → n_id n ∉ ids (nodes s) → U (n_id n) →
  nodeIdsWithin U (pushNode n s).
Proof.
  intros [Hnd HU] Hfresh Hn. split; simpl; rewrite ids_app.
  - apply NoDup_app. split_and!; [done| |apply NoDup_singleton].
    intros x Hx Hx'%list_elem_of_singleton. by subst.
  - intros x [Hx|Hx%list_elem_of_singleton]%elem_of_app; [by apply HU|by subst].
Qed.

Lemma nodeIdsWithin_weaken U U' s :
  (∀ x, U x → U' x) → nodeIdsWithin U s → nodeIdsWithin U' s.
Proof. intros Himp [Hnd HU]. split; [done|]. intros x Hx. by apply Himp, HU. Qed.

Lemma nodeIdsWithin_push U U' n s :
  nodeIdsWithin U s → ¬ U (n_id n) → (∀ x, U x → U' x) → U' (n_id n) →
  nodeIdsWithin U' (pushNode n s).
Proof.
  intros Hs Hnot Himp Hn. apply nodeIdsWithin_push_fresh; [|by intros ?%Hs|done].
  by eapply nodeIdsWithin_weaken.
Qed.

Lemma functionIdsBelow_fresh j : ¬ functionIdsBelow j (funcId j).
Proof. intros (i & Hlt & Heq%funcId_inj). lia. Qed.

Lemma entityIdsBelow_classId_fresh j : ¬ entityIdsBelow j (classId j).
Proof.
  intros [(i & Heq)|[(ci & Hlt & Heq%classId_inj)|[(ci & mi & _ & Heq)|(b & Heq)]]];
    [done|lia|done|done].
Qed.

Lemma memberIdsBelow_methodId_fresh j k : ¬ memberIdsBelow j k (methodId j k).
Proof.
  intros [[(i & Heq)|[(ci & _ & Heq)|[(ci & mi & Hlt & Heq%methodId_inj)|(b & Heq)]]]|
          [Heq|(mi & Hlt & Heq%methodId_inj)]]; try done; lia.
Qed.

Lemma memberIdsBelow_entity j k x : memberIdsBelow j k x → entityIdsBelow (S j) x.
Proof.
  intros [[?|[(ci & ? & ?)|[(ci & mi & ? & ?)|?]]]|[->|(mi & _ & ->)]].
  - by left.
  - right; left. exists ci. split; [lia|done].
  - right; right; left. exists ci, mi. split; [lia|done].
  - by repeat right.
  - right; left. exists j. split; [lia|done].
  - right; right; left. exists j, mi. split; [lia|done].
Qed.

Lemma entityIdsBelow_S j x : entityIdsBelow j x → entityIdsBelow (S j) x.
Proof. intros H. apply (memberIdsBelow_entity j 0). by left. Qed.

Lemma nodeIdsWithin_functionsPass p st :
  nodeIdsWithin (entityIdsBelow 0) (functionsPass p st).
Proof.
  unfold functionsPass. destruct (showFunctions st).
  2: { split; [apply NoDup_nil_2|]. intros x Hx. by apply elem_of_nil in Hx. }
  apply (nodeIdsWithin_weaken (functionIdsBelow (length (functions p)))).
  { intros x (i & _ & ->). left. by exists i. }
  apply (forEach_inv (addFunction st) (λ j s, nodeIdsWithin (functionIdsBelow j) s)).
  - split; [apply NoDup_nil_2|]. intros x Hx. by apply elem_of_nil in Hx.
  - intros j f s Hf Hs. unfold addFunction.
    destruct (matchesSearch st (f_name f)).
    + apply (nodeIdsWithin_push (functionIdsBelow j) _ (functionNode j f) s); [done|..].
      * apply functionIdsBelow_fresh.
      * intros x (i & ? & ->). exists i. split; [lia|done].
      * exists j. split; [lia|done].
    + eapply nodeIdsWithin_weaken; [|done].
      intros x (i & ? & ->). exists i. split; [lia|done].
Qed.

Lemma nodeIdsWithin_addClassMembers st c j s :
  nodeIdsWithin (entityIdsBelow j) s →
  nodeIdsWithin (entityIdsBelow (S j)) (addClassMembers st c j s).
Proof.
  intros Hs. unfold addClassMembers.
  assert (nodeIdsWithin (memberIdsBelow j 0)
            (setName (c_name c) (classId j) (pushNode (classNode j c) s))) as H1.
  { apply (nodeIdsWithin_push (entityIdsBelow j) _ (classNode j c) s); [done|..].
    - apply entityIdsBelow_classId_fresh.
    - intros x ?. by left.
    - right. by left. }
  destruct (showMethods st).
  - apply (nodeIdsWithin_weaken (memberIdsBelow j (length (c_methods c)))).
    { apply memberIdsBelow_entity. }
    apply (forEach_inv (addMethod st j (classId j))
             (λ k s', nodeIdsWithin (memberIdsBelow j k) s')); [done|].
    intros k m s' _ Hs'. unfold addMethod.
    destruct (matchesSearch st (f_name m)).
    + apply (nodeIdsWithin_push (memberIdsBelow j k) _ (methodNode j k m) s'); [done|..].
      * apply memberIdsBelow_methodId_fresh.
      * intros x [?|[?|(mi & ? & ?)]]; [by left|right; by left|].
        right; right. exists mi. split; [lia|done].
      * right; right. exists k. split; [lia|done].
    + eapply nodeIdsWithin_weaken; [|done].
      intros x [?|[?|(mi & ? & ?)]]; [by left|right; by left|].
      right; right. exists mi. split; [lia|done].
  - eapply nodeIdsWithin_weaken; [|done]. apply memberIdsBelow_entity.
Qed.

Lemma nodeIdsWithin_addBase p st j cid base bi s :
  WF p st s → nodeIdsWithin (entityIdsBelow j) s →
  nodeIdsWithin (entityIdsBelow j) (addBase cid base bi s).
Proof.
  intros Hwf Hs. unfold addBase.
  destruct (List.find _ (nodes s)) eqn:Hfind; [done|].
  apply find_hasId_None in Hfind.
  pose proof (resolveBase_WF p st s base Hwf Hfind) as Hres.
  rewrite Hres in Hfind |- *.
  apply (nodeIdsWithin_push_fresh _ (stubNode (baseStubId base) base) s); [done|done|].
  repeat right. by exists base.
Qed.

Lemma nodeIdsWithin_addClass p st c j s :
  WF p st s → classes p !! j = Some c → showClasses st = true →
  nodeIdsWithin (entityIdsBelow j) s →
  nodeIdsWithin (entityIdsBelow (S j)) (addClass st c j s).
Proof.
  intros Hwf Hc Hsc Hs. rewrite addClass_members.
  destruct (matchesSearch st (c_name c)) eqn:Hm.
  2: { eapply nodeIdsWithin_weaken; [apply entityIdsBelow_S|done]. }
  destruct (WF_addClassMembers p st c j s Hwf Hc Hsc Hm) as [Hwf2 Hcid].
  cut (WF p st (forEach (addBase (classId j)) (c_bases c) (addClassMembers st c j s)) ∧
       classId j ∈ ids (nodes (forEach (addBase (classId j)) (c_bases c)
                                 (addClassMembers st c j s))) ∧
       nodeIdsWithin (entityIdsBelow (S j))
         (forEach (addBase (classId j)) (c_bases c) (addClassMembers st c j s))).
  { by intros (_ & _ & ?). }
  apply (forEach_preserve _ (λ s', WF p st s' ∧ classId j ∈ ids (nodes s') ∧
                                   nodeIdsWithin (entityIdsBelow (S j)) s')).
  - split_and!; [done|done|by apply nodeIdsWithin_addClassMembers].
  - intros k x s' Hx (Hwf' & Hcid' & Hs').
    destruct (WF_addBase p st j c x k s') as [? ?]; try done.
    { by eapply list_elem_of_lookup_2. }
    split_and!; [done|done|by eapply nodeIdsWithin_addBase].
Qed.

Lemma nodeIds_distinct_aux p st :
  NoDup (ids (nodes (transformDataToGraph p st))).
Proof.
  rewrite nodes_transformDataToGraph, buildEntities_unfold.
  destruct (showClasses st) eqn:Hsc; [|apply nodeIdsWithin_functionsPass].
  cut (WF p st (forEach (addClass st) (classes p) (functionsPass p st)) ∧
       nodeIdsWithin (entityIdsBelow (length (classes p)))
         (forEach (addClass st) (classes p) (functionsPass p st))).
  { by intros [_ [? _]]. }
  apply (forEach_inv (addClass st) (λ j s,
           WF p st s ∧ nodeIdsWithin (entityIdsBelow j) s)).
  - split; [apply WF_functionsPass|apply nodeIdsWithin_functionsPass].
  - intros j c s Hc [Hwf Hs].
    split; [by apply WF_addClass|by eapply nodeIdsWithin_addClass].
Qed.

(** The node ids of a build are pairwise distinct. *)
Lemma node_ids_are_distinct p st :
  NoDup (ids (nodes (transformDataToGraph p st))).
Proof. apply nodeIds_distinct_aux. Qed.

(** ** Edge ids are pairwise distinct *)

Lemma edgeIdsWithin_push U U' e s :
  edgeIdsWithin U s → ¬ U (e_id e) → (∀ x, U x → U' x) → U' (e_id e) →
  edgeIdsWithin U' (pushEdge e s).
Proof.
  intros [Hnd HU] Hnot Himp He. split; simpl; rewrite fmap_app.
  - apply NoDup_app. split_and!; [done| |apply NoDup_singleton].
    intros x Hx Hx'%list_elem_of_singleton. subst. by apply Hnot, HU.
  - intros x [Hx|Hx%list_elem_of_singleton]%elem_of_app; [by apply Himp, HU|by subst].
Qed.

Lemma edgeIdsWithin_weaken U U' s :
  (∀ x, U x → U' x) → edgeIdsWithin U s → edgeIdsWithin U' s.
Proof. intros Himp [Hnd HU]. split; [done|]. intros x Hx. by apply Himp, HU. Qed.

Lemma edgeIdsWithin_same U s s' :
  edges s' = edges s → edgeIdsWithin U s → edgeIdsWithin U s'.
Proof. unfold edgeIdsWithin. by intros ->. Qed.

Lemma classId_dash_inj ci cj r r' :
  classId ci +:+ String "-" r = classId cj +:+ String "-" r' → ci = cj ∧ r = r'.
Proof.
  unfold classId. rewrite !append_assoc. intros H%String.app_inj.
  apply dash_split_l in H as [H1%pretty_nat_inj ?]; [done|apply digits_pretty..].
Qed.

Lemma structIdsBelow_S j x : structIdsBelow j x → structIdsBelow (S j) x.
Proof. intros (ci & rest & Hlt & H). exists ci, rest. split; [lia|done]. Qed.

Lemma containsId_fresh j k :
  ¬ containsIdsBelow j k (e_id (containsEdge (classId j) (methodId j k))).
Proof.
  intros [(ci & rest & Hlt & [Heq|Heq])|(mi & Hlt & Heq)]; simpl in Heq.
  - apply String.app_inj, classId_dash_inj in Heq as [? _]. lia.
  - done.
  - apply String.app_inj, classId_dash_inj in Heq as [_ Heq%methodId_inj]. lia.
Qed.

Lemma inheritsId_fresh j k B :
  ¬ inheritsIdsBelow j k (e_id (inheritsEdge (classId j) B k)).
Proof.
  intros [(ci & rest & Hlt & [Heq|Heq])|[(mi & Heq)|(bi & B' & Hlt & Heq)]];
    simpl in Heq.
  - done.
  - apply String.app_inj, classId_dash_inj in Heq as [? _]. lia.
  - done.
  - apply String.app_inj, classId_dash_inj in Heq as [_ Heq].
    apply dash_split_r in Heq as [_ Heq%pretty_nat_inj]; [lia|apply digits_pretty..].
Qed.

Lemma containsIdsBelow_step j k x : containsIdsBelow j k x → containsIdsBelow j (S k) x.
Proof.
  intros [?|(mi & ? & ?)]; [by left|]. right. exists mi. split; [lia|done].
Qed.

Lemma inheritsIdsBelow_step j k x : inheritsIdsBelow j k x → inheritsIdsBelow j (S k) x.
Proof.
  intros [?|[?|(bi & B & ? & ?)]]; [by left|right; by left|].
  right; right. exists bi, B. split; [lia|done].
Qed.

Lemma containsIdsBelow_inherits j k x : containsIdsBelow j k x → inheritsIdsBelow j 0 x.
Proof.
  intros [?|(mi & _ & ?)]; [by left|]. right; left. by exists mi.
Qed.

Lemma inheritsIdsBelow_struct j k x : inheritsIdsBelow j k x → structIdsBelow (S j) x.
Proof.
  intros [H|[(mi & ->)|(bi & B & _ & ->)]].
  - by apply structIdsBelow_S.
  - exists j, (methodId j mi). split; [lia|]. by left.
  - exists j, (B +:+ String "-" (pretty bi)). split; [lia|]. by right.
Qed.

Lemma edgeIdsWithin_addClassMembers st c j s :
  edgeIdsWithin (structIdsBelow j) s →
  edgeIdsWithin (inheritsIdsBelow j 0) (addClassMembers st c j s).
Proof.
  intros Hs. unfold addClassMembers.
  assert (edgeIdsWithin (containsIdsBelow j 0)
            (setName (c_name c) (classId j) (pushNode (classNode j c) s))) as H1.
  { apply (edgeIdsWithin_weaken (structIdsBelow j)); [by left|done]. }
  destruct (showMethods st).
  - apply (edgeIdsWithin_weaken (containsIdsBelow j (length (c_methods c)))).
    { apply containsIdsBelow_inherits. }
    apply (forEach_inv (addMethod st j (classId j))
             (λ k s', edgeIdsWithin (containsIdsBelow j k) s')); [done|].
    intros k m s' _ Hs'. unfold addMethod.
    destruct (matchesSearch st (f_name m)).
    + apply (edgeIdsWithin_push (containsIdsBelow j k)); [done|..].
      * apply containsId_fresh.
      * apply containsIdsBelow_step.
      * right. exists k. split; [lia|done].
    + eapply edgeIdsWithin_weaken; [apply containsIdsBelow_step|done].
  - eapply edgeIdsWithin_weaken; [apply containsIdsBelow_inherits|done].
Qed.

Lemma edgeIdsWithin_addBase j k base s :
  edgeIdsWithin (inheritsIdsBelow j k) s →
  edgeIdsWithin (inheritsIdsBelow j (S k)) (addBase (classId j) base k s).
Proof.
  intros Hs. unfold addBase.
  set (baseId := resolveBase (nodeMap s) base).
  assert (∀ s', edges s' = edges s →
            edgeIdsWithin (inheritsIdsBelow j (S k))
              (pushEdge (inheritsEdge (classId j) baseId k) s')) as Hpush.
  { intros s' Hs'.
    apply (edgeIdsWithin_push (inheritsIdsBelow j k)).
    - by apply (edgeIdsWithin_same _ s).
    - apply inheritsId_fresh.
    - apply inheritsIdsBelow_step.
    - right; right. exists k, baseId. split; [lia|done]. }
  destruct (List.find _ (nodes s)); by apply Hpush.
Qed.

Lemma edgeIdsWithin_addClass st c j s :
  edgeIdsWithin (structIdsBelow j) s →
  edgeIdsWithin (structIdsBelow (S j)) (addClass st c j s).
Proof.
  intros Hs. rewrite addClass_members.
  destruct (matchesSearch st (c_name c)).
  2: { eapply edgeIdsWithin_weaken; [apply structIdsBelow_S|done]. }
  apply (edgeIdsWithin_weaken (inheritsIdsBelow j (length (c_bases c)))).
  { apply inheritsIdsBelow_struct. }
  apply (forEach_inv (addBase (classId j))
           (λ k s', edgeIdsWithin (inheritsIdsBelow j k) s')).
  - by apply edgeIdsWithin_addClassMembers.
  - intros k x s' _ Hs'. by apply edgeIdsWithin_addBase.
Qed.

Lemma edgeIdsWithin_buildEntities p st :
  ∃ j, edgeIdsWithin (structIdsBelow j) (buildEntities p st).
Proof.
  rewrite buildEntities_unfold.
  assert (edgeIdsWithin (structIdsBelow 0) (functionsPass p st)) as H0.
  { destruct (functionsPass_frame p st) as [_ Hnil]. unfold edgeIdsWithin.
    rewrite Hnil. split; [apply NoDup_nil_2|]. intros x Hx. by apply elem_of_nil in Hx. }
  destruct (showClasses st); [|by exists 0].
  exists (length (classes p)).
  apply (forEach_inv (addClass st) (λ j s, edgeIdsWithin (structIdsBelow j) s)); [done|].
  intros j c s _ Hs. by apply edgeIdsWithin_addClass.
Qed.

Lemma addFunctionCall_pushes call j s :
  edges (addFunctionCall call j s) = edges s ∨
  ∃ a b, addFunctionCall call j s = pushEdge (callEdge j a b) s.
Proof.
  unfold addFunctionCall.
  destruct (present _ (callee call)) as [ce|]; [|by left].
  destruct (present _ (caller call)) as [cr|]; [|by left].
  destruct (nodeMap s !! cr) as [a|]; [|by left].
  destruct (nodeMap s !! ce) as [b|]; [|by left].
  destruct (truthy a && truthy b && negb (bool_decide (a = b))); [|by left].
  right. by exists a, b.
Qed.

Lemma addMethodCall_pushes call j s :
  edges (addMethodCall call j s) = edges s ∨
  ∃ a b, addMethodCall call j s = pushEdge (methodCallEdge j a b) s.
Proof.
  unfold addMethodCall.
  destruct (object call) as [o|]; [|by left].
  destruct (method call) as [mn|]; [|by left].
  destruct (_ && _ && _); [|by left].
  destruct (nodeMap s !! o) as [a|]; [|by left].
  destruct (List.find _ _) as [n|]; [|by left].
  destruct (truthy a); [|by left].
  right. by exists a, (n_id n).
Qed.

Lemma callId_fresh j : ¬ callIdsBelow j ("call-" +:+ pretty j).
Proof.
  intros [(ci & cj & rest & _ & [Heq|Heq])|(i & Hlt & Heq)]; [done|done|].
  apply String.app_inj, pretty_nat_inj in Heq. lia.
Qed.

Lemma methodCallId_fresh j : ¬ methodCallIdsBelow j ("method-call-" +:+ pretty j).
Proof.
  intros [(ci & cj & rest & _ & [Heq|Heq])|[(i & Heq)|(i & Hlt & Heq)]];
    [done|done|done|].
  apply String.app_inj, pretty_nat_inj in Heq. lia.
Qed.

Lemma edgeIds_distinct_aux p st :
  NoDup (e_id <$> edges (transformDataToGraph p st)).
Proof.
  destruct (edgeIdsWithin_buildEntities p st) as (j0 & H0).
  unfold transformDataToGraph. destruct (showRelationships st); [|apply H0].
  unfold buildRelationships.
  cut (edgeIdsWithin (methodCallIdsBelow (length (method_calls (relationships p))))
         (forEach addMethodCall (method_calls (relationships p))
            (forEach addFunctionCall (function_calls (relationships p))
               (buildEntities p st)))).
  { by intros [? _]. }
  apply (forEach_inv addMethodCall (λ j s, edgeIdsWithin (methodCallIdsBelow j) s)).
  - apply (edgeIdsWithin_weaken
             (callIdsBelow (length (function_calls (relationships p))))).
    { intros x [?|(i & _ & ?)]; [by left|]. right; left. by exists i. }
    apply (forEach_inv addFunctionCall (λ j s, edgeIdsWithin (callIdsBelow j) s)).
    + eapply edgeIdsWithin_weaken; [|done]. intros x Hx. left. by exists j0.
    + intros j call s _ Hs.
      destruct (addFunctionCall_pushes call j s) as [Heq|(a & b & ->)].
      * apply (edgeIdsWithin_same _ s); [done|]. eapply edgeIdsWithin_weaken; [|done].
        intros x [?|(i & ? & ?)]; [by left|]. right. exists i. split; [lia|done].
      * apply (edgeIdsWithin_push (callIdsBelow j)); [done|apply callId_fresh| |].
        -- intros x [?|(i & ? & ?)]; [by left|]. right. exists i. split; [lia|done].
        -- right. exists j. split; [lia|done].
  - intros j call s _ Hs.
    destruct (addMethodCall_pushes call j s) as [Heq|(a & b & ->)].
    + apply (edgeIdsWithin_same _ s); [done|]. eapply edgeIdsWithin_weaken; [|done].
      intros x [?|[?|(i & ? & ?)]]; [by left|right; by left|].
      right; right. exists i. split; [lia|done].
    + apply (edgeIdsWithin_push (methodCallIdsBelow j)); [done|apply methodCallId_fresh| |].
      * intros x [?|[?|(i & ? & ?)]]; [by left|right; by left|].
        right; right. exists i. split; [lia|done].
      * right; right. exists j. split; [lia|done].
Qed.

(** The edge ids of a build are pairwise distinct. *)
Lemma edge_ids_are_distinct p st :
  NoDup (e_id <$> edges (transformDataToGraph p st)).
Proof. apply edgeIds_distinct_aux. Qed.

(** ** The element list handed to the rendering engine *)

Lemma methodId_not_methodCall ci mi (i : nat) :
  methodId ci mi ≠ "method-call-" +:+ pretty i.
Proof.
  unfold methodId. intros Heq.
  assert (pretty ci +:+ "-" +:+ pretty mi = "call-" +:+ pretty i) as Heq'.
  { apply (String.app_inj "method-"). exact Heq. }
  pose proof (digits_pretty ci) as Hd.
  destruct (pretty ci) as [|d r]; [done|].
  rewrite append_cons in Heq'. destruct Hd as [Hd _].
  change ("call-" +:+ pretty i) with (String "c" ("all-" +:+ pretty i)) in Heq'.
  assert (d = "c"%char) as -> by congruence. done.
Qed.

Lemma node_id_is_no_edge_id p st s n e :
  WF p st s → n ∈ nodes s → e ∈ edges s → n_id n ≠ e_id e.
Proof.
  intros Hwf Hn He.
  destruct (wf_edges Hwf e He) as (Hform & _).
  destruct (wf_nodes Hwf n Hn) as [| |ci c mi m|]; destruct Hform; try done.
  simpl. apply methodId_not_methodCall.
Qed.

(** X11. The elements [[...nodes, ...edges]] that the effect hands to the
    rendering engine have pairwise distinct ids: no two nodes, no two edges,
    and no node and edge share an id. *)
Theorem element_ids_are_distinct p st :
  NoDup (elementIds (transformDataToGraph p st)).
Proof.
  unfold elementIds. apply NoDup_app. split_and!.
  - apply nodeIds_distinct_aux.
  - intros x (n & -> & Hn)%list_elem_of_fmap (e & Heq & He)%list_elem_of_fmap.
    by apply (node_id_is_no_edge_id p st _ n e (WF_transformDataToGraph p st)).
  - apply edgeIds_distinct_aux.
Qed.

(** ** Method-call records *)

Lemma resolvesMethodCall_inj reg ns call a t a' t' :
  resolvesMethodCall reg ns call a t → resolvesMethodCall reg ns call a' t' →
  a = a' ∧ t = t'.
Proof.
  intros [Ha (mn & n & Hmn & _ & Hn & ->)] [Ha' (mn' & n' & Hmn' & _ & Hn' & ->)].
  split; [by eapply resolves_inj|]. congruence.
Qed.

Lemma addMethodCall_edges_exact call i s :
  (∀ k v, nodeMap s !! k = Some v → truthy v = true) →
  (∃ a t, resolvesMethodCall (nodeMap s) (nodes s) call a t ∧
          edges (addMethodCall call i s) = edges s ++ [methodCallEdge i a t]) ∨
  ((∀ a t, ¬ resolvesMethodCall (nodeMap s) (nodes s) call a t) ∧
   edges (addMethodCall call i s) = edges s).
Proof.
  intros Htruthy. unfold addMethodCall, resolvesMethodCall, resolves.
  destruct (object call) as [o|].
  2: { right. split; [|done]. by intros a t [(k & ? & _) _]. }
  destruct (method call) as [mn|].
  2: { right. split; [|done]. by intros a t [_ (mn & n & ? & _)]. }
  destruct (truthy o) eqn:Ho; simpl.
  2: { right. split; [|done]. intros a t [(k & ? & Hk%truthy_true & _) _].
       simplify_eq. congruence. }
  destruct (truthy mn) eqn:Hmn; simpl.
  2: { right. split; [|done]. intros a t [_ (mn' & n & ? & Hk%truthy_true & _)].
       simplify_eq. congruence. }
  destruct (nodeMap s !! o) as [a|] eqn:Ha.
  2: { right. rewrite bool_decide_eq_false_2 by (by intros [? ?]). split; [|done].
       intros a t [(k & ? & _ & ?) _]. simplify_eq. }
  rewrite bool_decide_eq_true_2 by by exists a.
  rewrite (Htruthy _ _ Ha).
  destruct (List.find (isMethodNamed mn) (nodes s)) as [n|] eqn:Hfind.
  2: { right. split; [|done]. intros a' t [_ (mn' & n & ? & _ & ? & _)]. simplify_eq. }
  left. exists a, (n_id n). split; [|done]. split.
  - exists o. by rewrite <- truthy_true.
  - exists mn, n. by rewrite <- truthy_true.
Qed.

Lemma method_calls_loop reg ns mcs s0 (i : nat) call :
  (∀ k v, reg !! k = Some v → truthy v = true) →
  nodeMap s0 = reg → nodes s0 = ns →
  filter (hasEdgeId ("method-call-" +:+ pretty i)) (edges s0) = [] →
  mcs !! i = Some call →
  (∀ a t, resolvesMethodCall reg ns call a t →
     filter (hasEdgeId ("method-call-" +:+ pretty i))
       (edges (forEach addMethodCall mcs s0)) = [methodCallEdge i a t]) ∧
  ((∀ a t, ¬ resolvesMethodCall reg ns call a t) →
     filter (hasEdgeId ("method-call-" +:+ pretty i))
       (edges (forEach addMethodCall mcs s0)) = []).
Proof.
  intros Htruthy Hreg Hns H0 Hcall.
  cut (nodeMap (forEach addMethodCall mcs s0) = reg ∧
       nodes (forEach addMethodCall mcs s0) = ns ∧
       (i < length mcs →
        (∀ a t, resolvesMethodCall reg ns call a t →
           filter (hasEdgeId ("method-call-" +:+ pretty i))
             (edges (forEach addMethodCall mcs s0)) = [methodCallEdge i a t]) ∧
        ((∀ a t, ¬ resolvesMethodCall reg ns call a t) →
           filter (hasEdgeId ("method-call-" +:+ pretty i))
             (edges (forEach addMethodCall mcs s0)) = [])) ∧
       ((length mcs ≤ i)%nat →
        filter (hasEdgeId ("method-call-" +:+ pretty i))
          (edges (forEach addMethodCall mcs s0)) = [])).
  { intros (_ & _ & H & _). apply H. by eapply lookup_lt_Some. }
  apply (forEach_inv addMethodCall (λ j s,
    nodeMap s = reg ∧ nodes s = ns ∧
    (i < j →
     (∀ a t, resolvesMethodCall reg ns call a t →
        filter (hasEdgeId ("method-call-" +:+ pretty i)) (edges s) =
        [methodCallEdge i a t]) ∧
     ((∀ a t, ¬ resolvesMethodCall reg ns call a t) →
        filter (hasEdgeId ("method-call-" +:+ pretty i)) (edges s) = [])) ∧
    ((j ≤ i)%nat →
     filter (hasEdgeId ("method-call-" +:+ pretty i)) (edges s) = []))).
  { split_and!; [done|done|lia|done]. }
  intros j x s Hj (Hm & Hn & Hlt & Hge).
  destruct (addMethodCall_frame x j s) as (Hn' & Hm' & _).
  split; [congruence|]. split; [congruence|].
  assert (∀ k v, nodeMap s !! k = Some v → truthy v = true) as Htr.
  { rewrite Hm. exact Htruthy. }
  destruct (decide (j = i)) as [->|Hne].
  - assert (x = call) as -> by congruence.
    split; [intros _|lia].
    specialize (Hge (le_n i)).
    destruct (addMethodCall_edges_exact call i s Htr) as [(a & t & Hres & ->)|[Hnone ->]];
      rewrite Hm, Hn in *.
    + split.
      * intros a' t' Hres'.
        destruct (resolvesMethodCall_inj _ _ _ _ _ _ _ Hres' Hres) as [-> ->].
        rewrite filter_app, Hge. by rewrite filter_cons_True.
      * intros Hno. by destruct (Hno a t).
    + split; [|done]. intros a t Hres. by destruct (Hnone a t).
  - assert (filter (hasEdgeId ("method-call-" +:+ pretty i))
              (edges (addMethodCall x j s)) =
            filter (hasEdgeId ("method-call-" +:+ pretty i)) (edges s)) as ->.
    { destruct (addMethodCall_pushes x j s) as [->|(a & b & ->)]; [done|]. simpl.
      rewrite filter_app, filter_cons_False, filter_nil, app_nil_r; [done|].
      unfold hasEdgeId. simpl. intros Hid%String.app_inj%pretty_nat_inj. done. }
    split; intros ?; [apply Hlt|apply Hge]; lia.
Qed.

Lemma no_methodcall_id_before p st (i : nat) :
  filter (hasEdgeId ("method-call-" +:+ pretty i))
    (edges (forEach addFunctionCall (function_calls (relationships p))
              (buildEntities p st))) = [].
Proof.
  apply (forEach_preserve addFunctionCall
           (λ s, filter (hasEdgeId ("method-call-" +:+ pretty i)) (edges s) = [])).
  - apply filter_none. intros e He Hid. unfold hasEdgeId in Hid.
    destruct (wf_edges (WF_buildEntities p st) e He) as (Hform & _).
    destruct (buildEntities_edges p st e He) as [Hty|Hty]; by destruct Hform.
  - intros j x s _ Hs.
    destruct (addFunctionCall_pushes x j s) as [->|(a & b & ->)]; [done|]. simpl.
    by rewrite filter_app, Hs, filter_cons_False.
Qed.

Lemma function_calls_loop_frame p s :
  nodes (forEach addFunctionCall (function_calls (relationships p)) s) = nodes s ∧
  nodeMap (forEach addFunctionCall (function_calls (relationships p)) s) = nodeMap s.
Proof.
  apply (forEach_preserve _ (λ s', nodes s' = nodes s ∧ nodeMap s' = nodeMap s)); [done|].
  intros j x s' _ [Hn Hm].
  destruct (addFunctionCall_frame x j s') as (Hn' & Hm' & _). split; congruence.
Qed.

Lemma includes_methodId ci mi : includes (methodId ci mi) "method-" = true.
Proof.
  apply includes_iff. exists "", (pretty ci +:+ "-" +:+ pretty mi). reflexivity.
Qed.

Lemma find_is_Some {A} (P : A → bool) (l : list A) x :
  x ∈ l → P x = true → is_Some (List.find P l).
Proof.
  intros Hx HP. destruct (List.find P l) eqn:Hfind; [done|].
  apply list_elem_of_In in Hx. pose proof (find_none _ _ Hfind x Hx). congruence.
Qed.

(** X12. With [showRelationships = true] the [method_calls] record at index
    [i] yields an edge with id [method-call-i] exactly when its object is a
    non-empty name that the registry resolves, its method name is non-empty
    and some visible method bears that name.  The edge is then unique, leaves
    the object's node and targets the earliest pushed method node of that
    name, whichever class owns it: the owner is never compared with the
    object. *)
Theorem method_call_edge_iff p st (i : nat) call :
  showRelationships st = true →
  method_calls (relationships p) !! i = Some call →
  ((∃ e, e ∈ edges (transformDataToGraph p st) ∧
         e_id e = "method-call-" +:+ pretty i) ↔
   (∃ a, resolves (registry p st) (object call) a) ∧
   (∃ mn ci mi n, method call = Some mn ∧ mn ≠ "" ∧
                  nodeFor p st (OMethod ci mi) = Some n ∧ n_label n = mn)) ∧
  (∀ a t, resolvesMethodCall (registry p st)
            (nodes (transformDataToGraph p st)) call a t →
     filter (hasEdgeId ("method-call-" +:+ pretty i))
       (edges (transformDataToGraph p st)) = [methodCallEdge i a t]).
Proof.
  intros Hsr Hcall.
  rewrite nodes_transformDataToGraph.
  assert ((∀ a t, resolvesMethodCall (registry p st) (nodes (buildEntities p st)) call a t →
             filter (hasEdgeId ("method-call-" +:+ pretty i))
               (edges (transformDataToGraph p st)) = [methodCallEdge i a t]) ∧
          ((∀ a t, ¬ resolvesMethodCall (registry p st) (nodes (buildEntities p st))
                       call a t) →
             filter (hasEdgeId ("method-call-" +:+ pretty i))
               (edges (transformDataToGraph p st)) = [])) as [Hyes Hno].
  { unfold transformDataToGraph. rewrite Hsr. unfold buildRelationships.
    destruct (function_calls_loop_frame p (buildEntities p st)) as [Hn Hm].
    apply method_calls_loop; try done.
    - apply registry_truthy.
    - apply no_methodcall_id_before. }
  split; [|done].
  assert (∀ mn, mn ≠ "" →
            (∃ n, List.find (isMethodNamed mn) (nodes (buildEntities p st)) = Some n) ↔
            (∃ ci mi n, nodeFor p st (OMethod ci mi) = Some n ∧ n_label n = mn)) as Hfind.
  { intros mn _. rewrite <- nodes_transformDataToGraph. split.
    - intros (n & (Hin & Hty & Hname)%find_isMethodNamed).
      destruct (nodeFor_sound p st n Hin) as [([i'|ci|ci mi] & Ho)|(b & ->)]; [| | |done].
      + simpl in Ho. destruct (functions p !! i'); [|done]. simpl in Ho.
        case_match; [|done]. by simplify_eq.
      + simpl in Ho. destruct (classes p !! ci); [|done]. simpl in Ho.
        case_match; [|done]. by simplify_eq.
      + exists ci, mi, n. split; [done|].
        simpl in Ho. destruct (classes p !! ci) as [c|]; [|done]. simpl in Ho.
        destruct (c_methods c !! mi); [|done]. simpl in Ho.
        case_match; [|done]. by simplify_eq.
    - intros (ci & mi & n & Ho & Hname).
      pose proof (nodeFor_complete p st _ n Ho) as Hin.
      assert (isMethodNamed mn n = true) as Hp.
      { simpl in Ho. destruct (classes p !! ci) as [c|]; [|done]. simpl in Ho.
        destruct (c_methods c !! mi) as [m|]; [|done]. simpl in Ho.
        case_match; [|done]. simplify_eq. unfold isMethodNamed.
        change (n_id (methodNode ci mi m)) with (methodId ci mi).
        rewrite includes_methodId, !bool_decide_eq_true_2; done. }
      destruct (find_is_Some (isMethodNamed mn) _ n Hin Hp) as [n' Hn']. by exists n'. }
  split.
  - intros (e & He & Hid).
    assert (e ∈ filter (hasEdgeId ("method-call-" +:+ pretty i))
                  (edges (transformDataToGraph p st))) as Hin.
    { by apply list_elem_of_filter. }
    destruct (addMethodCall_edges_exact call i (buildEntities p st))
      as [(a & t & Hres & _)|[Hnone _]].
    { apply registry_truthy. }
    + destruct Hres as [Ha (mn & n & Hmn & Hne & Hn & _)].
      split; [by exists a|]. 
      destruct (proj1 (Hfind mn Hne)) as (ci & mi & n' & ? & ?); [by exists n|].
      by exists mn, ci, mi, n'.
    + rewrite (Hno Hnone) in Hin. by apply elem_of_nil in Hin.
  - intros [(a & Ha) (mn & ci & mi & n & Hmn & Hne & Ho & Hname)].
    destruct (proj2 (Hfind mn Hne)) as (n' & Hn'); [by exists ci, mi, n|].
    exists (methodCallEdge i a (n_id n')). split; [|done].
    eapply (proj1 (list_elem_of_filter (hasEdgeId ("method-call-" +:+ pretty i)) _ _)).
    rewrite (Hyes a (n_id n')); [apply list_elem_of_here|].
    split; [done|]. by exists mn, n'.
Qed.

(** ** Edges point at nodes that bear the referenced name *)

Lemma registryLabelled_pushNode n s :
  registryLabelled s → registryLabelled (pushNode n s).
Proof.
  intros H k v Hk. destruct (H k v Hk) as (m & Hm & ? & ?).
  exists m. split; [|done]. simpl. apply elem_of_app. by left.
Qed.

Lemma registryLabelled_register n s :
  registryLabelled s →
  registryLabelled (setName (n_label n) (n_id n) (pushNode n s)).
Proof.
  intros H k v. simpl. destruct (decide (n_label n = k)) as [<-|Hne].
  - rewrite lookup_insert_eq. intros [= <-]. exists n. split; [|done].
    apply elem_of_app. right. apply list_elem_of_here.
  - rewrite lookup_insert_ne by done. intros Hk.
    destruct (H k v Hk) as (m & Hm & ? & ?). exists m. split; [|done].
    apply elem_of_app. by left.
Qed.

Lemma registryLabelled_addFunction st f i s :
  registryLabelled s → registryLabelled (addFunction st f i s).
Proof.
  intros H. unfold addFunction. destruct (matchesSearch st (f_name f)); [|done].
  apply (registryLabelled_register (functionNode i f)), H.
Qed.

Lemma registryLabelled_addMethod st ci cid m mi s :
  registryLabelled s → registryLabelled (addMethod st ci cid m mi s).
Proof.
  intros H. unfold addMethod. destruct (matchesSearch st (f_name m)); [|done].
  apply (registryLabelled_pushNode (methodNode ci mi m)), H.
Qed.

Lemma registryLabelled_addClassMembers st c ci s :
  registryLabelled s → registryLabelled (addClassMembers st c ci s).
Proof.
  intros H. unfold addClassMembers.
  pose proof (registryLabelled_register (classNode ci c) s H) as H1.
  destruct (showMethods st); [|done].
  apply forEach_preserve; [done|]. intros. by apply registryLabelled_addMethod.
Qed.

(** The node that the inherits edge of [base] targets. *)
Lemma addBase_target p st cid base bi s :
  WF p st s → registryLabelled s →
  registryLabelled (addBase cid base bi s) ∧
  ∃ n, n ∈ nodes (addBase cid base bi s) ∧ n_label n = base ∧
       edges (addBase cid base bi s) = edges s ++ [inheritsEdge cid (n_id n) bi].
Proof.
  intros Hwf Hlab. rewrite addBase_edges. unfold addBase.
  destruct (List.find _ (nodes s)) as [n'|] eqn:Hfind; simpl.
  - split; [done|].
    unfold resolveBase in *. destruct (nodeMap s !! base) as [v|] eqn:Hv.
    + destruct (wf_reg Hwf base v Hv) as [Hreg _].
      rewrite (regEntry_truthy _ _ _ _ Hreg) in *.
      destruct (Hlab base v Hv) as (n & Hn & <- & Hl). by exists n.
    + apply find_some in Hfind as [Hin Hid]. apply list_elem_of_In in Hin.
      unfold hasId in Hid. apply bool_decide_eq_true in Hid.
      rewrite (nodeForm_base p st n' base (wf_nodes Hwf n' Hin) Hid) in Hin.
      by exists (stubNode (baseStubId base) base).
  - apply find_hasId_None in Hfind.
    pose proof (resolveBase_WF p st s base Hwf Hfind) as Hres. rewrite Hres.
    split.
    + apply (registryLabelled_register (stubNode (baseStubId base) base)), Hlab.
    + exists (stubNode (baseStubId base) base). split; [|done].
      apply elem_of_app. right. apply list_elem_of_here.
Qed.

Lemma inheritsLabelled_mono p s s' :
  (∀ n, n ∈ nodes s → n ∈ nodes s') →
  appends (λ e, e_type e ≠ Inherits) (edges s) (edges s') →
  inheritsLabelled p s → inheritsLabelled p s'.
Proof.
  intros Hn Ha H e He Hty.
  destruct (appends_new _ _ _ _ Ha He) as [Hold|Hnew]; [|done].
  destruct (H e Hold Hty) as (ci & c & bi & b & n & ? & ? & ? & ? & ?).
  exists ci, c, bi, b, n. split_and!; try done. by apply Hn.
Qed.

Lemma inheritsLabelled_addClass p st c ci s :
  WF p st s → classes p !! ci = Some c → showClasses st = true →
  registryLabelled s → inheritsLabelled p s →
  registryLabelled (addClass st c ci s) ∧ inheritsLabelled p (addClass st c ci s).
Proof.
  intros Hwf Hc Hsc Hlab Hinh. rewrite addClass_members.
  destruct (matchesSearch st (c_name c)) eqn:Hm; [|done].
  destruct (WF_addClassMembers p st c ci s Hwf Hc Hsc Hm) as [Hwf2 Hcid].
  assert (inheritsLabelled p (addClassMembers st c ci s)) as Hinh2.
  { eapply inheritsLabelled_mono; [| |done].
    - intros n Hn. eapply appends_elem; [apply addClassMembers_nodes|].
      apply elem_of_app. by left.
    - eapply appends_mono; [|apply addClassMembers_edges]. intros e [? _]. congruence. }
  cut (WF p st (forEach (addBase (classId ci)) (c_bases c) (addClassMembers st c ci s)) ∧
       classId ci ∈ ids (nodes (forEach (addBase (classId ci)) (c_bases c)
                                  (addClassMembers st c ci s))) ∧
       registryLabelled
         (forEach (addBase (classId ci)) (c_bases c) (addClassMembers st c ci s)) ∧
       inheritsLabelled p
         (forEach (addBase (classId ci)) (c_bases c) (addClassMembers st c ci s))).
  { by intros (_ & _ & ? & ?). }
  apply (forEach_preserve _ (λ s', WF p st s' ∧ classId ci ∈ ids (nodes s') ∧
                                   registryLabelled s' ∧ inheritsLabelled p s')).
  - split_and!; [done|done|by apply registryLabelled_addClassMembers|done].
  - intros k b s' Hb (Hwf' & Hcid' & Hlab' & Hinh').
    destruct (WF_addBase p st ci c b k s') as [? ?]; try done.
    { by eapply list_elem_of_lookup_2. }
    destruct (addBase_target p st (classId ci) b k s' Hwf' Hlab')
      as (Hlab'' & n & Hn & Hl & Hedges).
    split_and!; [done|done|done|].
    intros e He Hty. rewrite Hedges in He.
    apply elem_of_app in He as [He|He].
    2: { apply list_elem_of_singleton in He as ->. by exists ci, c, k, b, n. }
    destruct (Hinh' e He Hty) as (ci' & c' & bi' & b' & n' & ? & ? & ? & ? & ?).
    exists ci', c', bi', b', n'. split_and!; try done.
    eapply appends_elem; [apply addBase_nodes|done].
Qed.

Lemma labelled_buildEntities p st :
  registryLabelled (buildEntities p st) ∧ inheritsLabelled p (buildEntities p st).
Proof.
  rewrite buildEntities_unfold.
  assert (registryLabelled (functionsPass p st) ∧
          inheritsLabelled p (functionsPass p st)) as [H1 H2].
  { split.
    - unfold functionsPass. destruct (showFunctions st).
      + apply forEach_preserve; [|intros; by apply registryLabelled_addFunction].
        intros k v Hk. simpl in Hk. by rewrite lookup_empty in Hk.
      + intros k v Hk. simpl in Hk. by rewrite lookup_empty in Hk.
    - intros e He. destruct (functionsPass_frame p st) as [_ Hnil].
      rewrite Hnil in He. by apply elem_of_nil in He. }
  destruct (showClasses st) eqn:Hsc; [|done].
  cut (WF p st (forEach (addClass st) (classes p) (functionsPass p st)) ∧
       registryLabelled (forEach (addClass st) (classes p) (functionsPass p st)) ∧
       inheritsLabelled p (forEach (addClass st) (classes p) (functionsPass p st))).
  { by intros (_ & ? & ?). }
  apply (forEach_inv (addClass st) (λ j s,
           WF p st s ∧ registryLabelled s ∧ inheritsLabelled p s)).
  - split_and!; [apply WF_functionsPass|done|done].
  - intros j c s Hc (Hwf & Hlab & Hinh).
    destruct (inheritsLabelled_addClass p st c j s) as [? ?]; try done.
    split_and!; [by apply WF_addClass|done|done].
Qed.

(** X13. Every inherits edge of a build leaves the node of a parsed class
    and targets a node of the same build whose label is the base name it
    stands for, be that node a parsed class, a function of that name or a
    stub; the edge carries the base's index in its id. *)
Theorem inherits_edges_target_the_named_base p st e :
  e ∈ edges (transformDataToGraph p st) → e_type e = Inherits →
  ∃ ci c bi b n,
    classes p !! ci = Some c ∧ c_bases c !! bi = Some b ∧
    n ∈ nodes (transformDataToGraph p st) ∧ n_label n = b ∧
    e = inheritsEdge (classId ci) (n_id n) bi.
Proof.
  destruct (labelled_buildEntities p st) as [_ Hinh].
  cut (inheritsLabelled p (transformDataToGraph p st)). { intros H. apply H. }
  unfold transformDataToGraph. destruct (showRelationships st); [|done].
  destruct (buildRelationships_frame p (buildEntities p st)) as (Hn & _ & Ha).
  eapply inheritsLabelled_mono; [| |done].
  - intros n. by rewrite Hn.
  - eapply appends_mono; [|done]. intros e' ?. congruence.
Qed.

(** X14. The calls edge of a [function_calls] record joins nodes that bear
    the record's names: its source is a node labelled with the caller and
    its target a node labelled with the callee. *)
Theorem call_edges_join_the_named_nodes p st (i : nat) call e :
  showRelationships st = true →
  function_calls (relationships p) !! i = Some call →
  e ∈ edges (transformDataToGraph p st) → e_id e = "call-" +:+ pretty i →
  e_type e = Calls ∧
  ∃ ns nt, ns ∈ nodes (transformDataToGraph p st) ∧
           nt ∈ nodes (transformDataToGraph p st) ∧
           e_source e = n_id ns ∧ caller call = Some (n_label ns) ∧
           e_target e = n_id nt ∧ callee call = Some (n_label nt).
Proof.
  intros Hsr Hcall He Hid.
  destruct (call_edges_of_build p st i call Hsr Hcall) as [Hyes Hno].
  assert (e ∈ filter (hasEdgeId ("call-" +:+ pretty i))
                (edges (transformDataToGraph p st))) as Hin.
  { by apply list_elem_of_filter. }
  destruct (resolvesCall_dec (registry p st) call) as [(a & b & Hres)|Hnone].
  2: { rewrite (Hno Hnone) in Hin. by apply elem_of_nil in Hin. }
  rewrite (Hyes a b Hres) in Hin. apply list_elem_of_singleton in Hin as ->.
  split; [done|].
  destruct Hres as ((ka & Hka & _ & Ha) & (kb & Hkb & _ & Hb) & _).
  destruct (labelled_buildEntities p st) as [Hlab _].
  destruct (Hlab ka a Ha) as (ns & Hns & <- & <-).
  destruct (Hlab kb b Hb) as (nt & Hnt & <- & <-).
  exists ns, nt. rewrite nodes_transformDataToGraph. by split_and!.
Qed.

(** ** Sizes and colours *)

Lemma node_sizes_are_bounded type nodeData :
  (40 ≤ nodeWidth type nodeData ≤ 120)%nat ∧
  (35 ≤ nodeHeight type nodeData ≤ 80)%nat.
Proof.
  unfold nodeWidth, nodeHeight. repeat case_match; lia.
Qed.

(** X15. In a built graph every node is between 45 and 120 wide and between
    35 and 80 high, function and method nodes are always 35 high, the large
    font is used exactly for the class nodes with more than five methods, and
    a synthetic stub is always drawn 60 by 45 in the small font. *)
Theorem node_sizes_in_build p st n :
  n ∈ nodes (transformDataToGraph p st) →
  (45 ≤ nodeWidth (nodeTypeName (n_type n)) (n_nodeData n) ≤ 120)%nat ∧
  (35 ≤ nodeHeight (nodeTypeName (n_type n)) (n_nodeData n) ≤ 80)%nat ∧
  (n_type n ≠ TClass → nodeHeight (nodeTypeName (n_type n)) (n_nodeData n) = 35) ∧
  (fontSize (nodeTypeName (n_type n)) (n_nodeData n) = "14px" ↔
   ∃ c, n_type n = TClass ∧ n_nodeData n = ClassData c ∧
        (5 < length (c_methods c))%nat) ∧
  (isStubId (n_id n) = true →
   nodeWidth (nodeTypeName (n_type n)) (n_nodeData n) = 60 ∧
   nodeHeight (nodeTypeName (n_type n)) (n_nodeData n) = 45 ∧
   fontSize (nodeTypeName (n_type n)) (n_nodeData n) = "12px").
Proof.
  intros Hn.
  pose proof (node_sizes_are_bounded (nodeTypeName (n_type n)) (n_nodeData n))
    as [[_ Hw] Hh].
  split; [|split; [done|]].
  { split; [|done].
    destruct (wf_nodes (WF_transformDataToGraph p st) n Hn);
      unfold nodeWidth; simpl; lia. }
  clear Hw Hh.
  destruct (wf_nodes (WF_transformDataToGraph p st) n Hn) as [i f|ci c|ci c mi m|ci c b].
  - split_and!; try done.
    split; [done|]. by intros (c & ? & _).
  - split_and!; try done.
    unfold fontSize. simpl. destruct (Nat.ltb_spec 5 (length (c_methods c))).
    + split; [|done]. intros _. by exists c.
    + split; [done|]. intros (c' & _ & [= <-] & ?). lia.
  - split_and!; try done.
    split; [done|]. by intros (c' & ? & _).
  - split_and!; try done.
    split; [done|]. intros (c' & _ & [= <-] & Hlen). simpl in Hlen. lia.
Qed.

(** X16. Edge styling is consistent: the arrow head has the line's colour
    for every type value, the three edge kinds have three different colours
    and never the grey fallback, and the contains edges are exactly the dashed
    ones and exactly the ones without an arrow head. *)
Theorem edge_style_is_consistent :
  (∀ type, targetArrowColor type = lineColor type) ∧
  (∀ t1 t2, lineColor (edgeTypeName t1) = lineColor (edgeTypeName t2) → t1 = t2) ∧
  (∀ t, lineColor (edgeTypeName t) ≠ "#6B7280") ∧
  (∀ t, lineStyle (edgeTypeName t) = "dashed" ↔ t = Contains) ∧
  (∀ t, targetArrowShape (edgeTypeName t) = "none" ↔ t = Contains).
Proof.
  split_and!.
  - done.
  - by intros [] [].
  - by intros [].
  - by intros []; split.
  - by intros []; split.
Qed.

(** ** The page and the graph view *)

Lemma buildRelationships_default p s :
  relationships p = defaultRelationships → buildRelationships p s = s.
Proof. unfold buildRelationships. by intros ->. Qed.

(** X17. As the page mounts the component (no [relationships] prop), the
    relationship passes have nothing to iterate over: the graph is the one of
    the entity passes alone and has no calls edge, whatever relationship
    records the parse result holds and whatever the flags are. *)
Theorem graph_view_has_no_calls_edges r st :
  transformDataToGraph (graphViewProps r) st = buildEntities (graphViewProps r) st ∧
  ∀ e, e ∈ edges (transformDataToGraph (graphViewProps r) st) →
       e_type e = Inherits ∨ e_type e = Contains.
Proof.
  assert (transformDataToGraph (graphViewProps r) st =
          buildEntities (graphViewProps r) st) as Heq.
  { unfold transformDataToGraph. destruct (showRelationships st); [|done].
    by apply buildRelationships_default. }
  split; [done|]. rewrite Heq. apply buildEntities_edges.
Qed.

Lemma foldl_totalMethods a cs :
  foldl (λ sum cls, sum + length (c_methods cls)) a cs =
  a + sum_list ((λ c, length (c_methods c)) <$> cs).
Proof.
  revert a. induction cs as [|c cs IH]; intros a.
  - simpl. by rewrite Nat.add_0_r.
  - rewrite fmap_cons. simpl. by rewrite IH, Nat.add_assoc.
Qed.

Lemma length_concat_imap {A B : Type} (g : nat → A → list B) (h : A → nat) l :
  (∀ i x, length (g i x) = h x) →
  length (concat (imap g l)) = sum_list (h <$> l).
Proof.
  revert g. induction l as [|x l IH]; intros g Hg; [done|].
  rewrite imap_cons. simpl. rewrite length_app, Hg, (IH (g ∘ S)); [done|].
  intros i y. apply Hg.
Qed.

Lemma containsCI_empty name : containsCI name "" = true.
Proof. unfold containsCI. rewrite toLowerCase_empty. apply includes_empty. Qed.

(** X18. With an empty search term and the class and method boxes checked
    (as on the first render), the number of method nodes of the graph is the
    "Total Methods" figure that the text view computes from the same
    classes. *)
Theorem method_nodes_match_total_methods p st :
  searchTerm st = "" → showClasses st = true → showMethods st = true →
  length (nodesOfType TMethod (nodes (transformDataToGraph p st))) =
  totalMethods (classes p).
Proof.
  intros Hs Hsc Hsm. rewrite method_nodes_table_aux, Hs, Hsc, Hsm. simpl.
  unfold totalMethods. rewrite foldl_totalMethods. simpl.
  apply length_concat_imap. intros i c. rewrite containsCI_empty.
  rewrite filter_all by (intros n _; apply containsCI_empty).
  unfold methodTable. apply length_imap.
Qed.

(** ** The controls and the selection *)

Lemma handle_showRelationships u ev :
  showRelationships (filterState (handle u ev)) = showRelationships (filterState u).
Proof. by destruct ev. Qed.

(** X19. No control of the component touches [showRelationships]: in every
    state reachable from the initial one by any sequence of control changes
    and taps, the flag still has its initial value [true]. *)
Theorem showRelationships_is_never_cleared evs :
  showRelationships (filterState (foldl handle initialUi evs)) = true.
Proof.
  cut (∀ u, showRelationships (filterState (foldl handle u evs)) =
            showRelationships (filterState u)).
  { intros H. by rewrite H. }
  induction evs as [|ev evs IH]; intros u; simpl; [done|].
  by rewrite IH, handle_showRelationships.
Qed.

(** X20. The selection survives every rebuild: a sequence of control
    changes and edge taps (no tap on a node or on the background) leaves the
    selected payload as it was, also when the new search term or flags
    remove the selected node from the graph. *)
Theorem selection_survives_filter_changes u evs :
  Forall (λ ev, isSelectionTap ev = false) evs →
  selectedNode (foldl handle u evs) = selectedNode u.
Proof.
  revert u. induction evs as [|ev evs IH]; intros u Hevs; simpl; [done|].
  apply Forall_cons in Hevs as [Hev Hevs]. rewrite IH by done.
  by destruct ev.
Qed.

End Graph.

(** * The properties at sample inputs

    The sample inputs are ASCII, where lower-casing is [asciiLowerCase]. *)

#[global] Existing Instance asciiLowerCase.

(** ** The scenarios of the specification, evaluated *)

Example scenario_two_functions :
  let g := transformDataToGraph
             {| functions := [mkFunction "f"; mkFunction "g"]; classes := [];
                relationships := noRelationships |} (allOn "") in
  nodes g = [functionNode 0 (mkFunction "f"); functionNode 1 (mkFunction "g")] ∧
  ids (nodes g) = ["func-0"; "func-1"] ∧ edges g = [].
Proof. by vm_compute. Qed.

Example scenario_class_with_base :
  let g := transformDataToGraph sampleMethodCall (allOn "") in
  ids (nodes g) = ["class-0"; "method-0-0"; "base-A"] ∧
  n_label <$> nodes g = ["B"; "m"; "A"] ∧
  edges g = [containsEdge "class-0" "method-0-0";
             inheritsEdge "class-0" "base-A" 0;
             methodCallEdge 0 "class-0" "method-0-0"].
Proof. by vm_compute. Qed.

Example scenario_search_keeps_ids :
  ids (nodes (transformDataToGraph sample (allOn "G"))) = ["func-1"].
Proof. by vm_compute. Qed.

Example scenario_shadowed_base :
  let g := transformDataToGraph sampleShadowed (allOn "") in
  ids (nodes g) = ["func-0"; "class-0"] ∧
  edges g = [inheritsEdge "class-0" "func-0" 0].
Proof. by vm_compute. Qed.

Lemma edge_endpoints_are_nodes_witness :
  callEdge 0 "func-0" "func-1" ∈ edges (transformDataToGraph sample (allOn "")) ∧
  "func-0" ∈ ids (nodes (transformDataToGraph sample (allOn ""))) ∧
  "func-1" ∈ ids (nodes (transformDataToGraph sample (allOn ""))).
Proof.
  split; [elem_by_compute|].
  apply (edge_endpoints_are_nodes sample (allOn "") (callEdge 0 "func-0" "func-1")).
  elem_by_compute.
Defined.

Lemma calls_edges_have_no_self_loop_witness :
  callEdge 0 "func-0" "func-1" ∈ edges (transformDataToGraph sample (allOn "")) ∧
  e_type (callEdge 0 "func-0" "func-1") = Calls ∧
  e_source (callEdge 0 "func-0" "func-1") ≠ e_target (callEdge 0 "func-0" "func-1").
Proof.
  split; [elem_by_compute|]. split; [reflexivity|].
  apply (calls_edges_have_no_self_loop sample (allOn "") (callEdge 0 "func-0" "func-1")).
  - elem_by_compute.
  - reflexivity.
Defined.

Lemma hidden_classes_suppress_class_branch_witness :
  showClasses classesHidden = false ∧
  (∀ n, n ∈ nodes (transformDataToGraph sample classesHidden) → n_type n = TFunction) ∧
  (∀ e, e ∈ edges (transformDataToGraph sample classesHidden) → e_type e = Calls).
Proof.
  split; [reflexivity|].
  apply (hidden_classes_suppress_class_branch sample classesHidden). reflexivity.
Defined.

Lemma node_id_depends_on_position_only_witness :
  functionNode 1 (mkFunction "g") ∈ nodes (transformDataToGraph sample (allOn "")) ∧
  functionNode 1 (mkFunction "g") ∈ nodes (transformDataToGraph sample (allOn "G")) ∧
  n_id (functionNode 1 (mkFunction "g")) = n_id (functionNode 1 (mkFunction "g")) ∧
  n_id (functionNode 1 (mkFunction "g")) = "func-1".
Proof.
  apply (proj2 (node_id_depends_on_position_only sample (allOn "") (allOn "G"))
           (OFunction 1)); reflexivity.
Defined.

Lemma contains_edges_follow_methods_witness :
  length (filter (λ e, e_type e = Contains)
            (edges (transformDataToGraph sample (allOn "")))) = 1 ∧
  classNode 0 (mkClass "B" ["A"] [mkFunction "m"]) ∈
    nodes (transformDataToGraph sample methodsHidden).
Proof.
  split.
  - apply (proj1 (contains_edges_follow_methods sample (allOn ""))). reflexivity.
  - apply (proj2 (contains_edges_follow_methods sample methodsHidden)); reflexivity.
Defined.

(** C2, as stated, fails: the stub pushed for an unparsed base is a node of
    kind class too.  With the single class [C] deriving from [Unknown] and
    the search term [c], the class-kind nodes are [class-0] and
    [base-Unknown], while [C] is the only parsed class whose name contains
    the term. *)
Lemma class_nodes_match_search_counterexample :
  filter (λ n, n_type n = TClass) (nodes (transformDataToGraph sampleUnknown (allOn "c"))) ≠
  filter (λ n, containsCI (n_label n) "c" = true) (imap classNode (classes sampleUnknown)).
Proof. vm_compute. discriminate. Qed.

Lemma class_nodes_match_search_witness :
  showClasses (allOn "c") = true ∧
  filter isParsedClassNode (nodes (transformDataToGraph sampleUnknown (allOn "c"))) =
  filter (λ n, containsCI (n_label n) (searchTerm (allOn "c")) = true)
    (imap classNode (classes sampleUnknown)).
Proof.
  split; [reflexivity|].
  apply (class_nodes_match_search sampleUnknown (allOn "c")). reflexivity.
Defined.

(** C3, as stated, fails: no parsed class is named [Unknown] in
    [sampleShadowed], yet the build has no node [base-Unknown], because the
    base name resolves through the registry to the function of that name
    (the inherits edge of [class-0] targets [func-0]). *)
Lemma stub_for_unparsed_base_counterexample :
  ¬ ((∀ c, c ∈ classes sampleShadowed → c_name c ≠ "Unknown") →
     length (filter (λ n, n_id n = baseStubId "Unknown")
               (nodes (transformDataToGraph sampleShadowed (allOn "")))) = 1).
Proof.
  intros H.
  assert (∀ c, c ∈ classes sampleShadowed → c_name c ≠ "Unknown") as Hcls.
  { intros c Hc%list_elem_of_singleton. by subst. }
  specialize (H Hcls). vm_compute in H. discriminate.
Qed.

Lemma stub_for_unparsed_base_witness :
  filter (λ n, n_id n = baseStubId "Unknown")
    (nodes (transformDataToGraph sampleUnknown (allOn ""))) =
    [stubNode (baseStubId "Unknown") "Unknown"] ∧
  filter (inheritsFrom 0) (edges (transformDataToGraph sampleUnknown (allOn ""))) =
    [inheritsEdge (classId 0) (baseStubId "Unknown") 0].
Proof.
  apply (proj1 (stub_for_unparsed_base sampleUnknown (allOn "")) 0
           (mkClass "C" ["Unknown"] []) "Unknown"); try reflexivity.
  - intros c Hc%list_elem_of_singleton. by subst.
  - intros f Hf. by apply elem_of_nil in Hf.
Defined.

Lemma function_call_edge_iff_witness :
  filter (hasEdgeId ("call-" +:+ pretty 0))
    (edges (transformDataToGraph sampleCalls (allOn ""))) =
  [callEdge 0 "func-0" "func-1"].
Proof.
  apply (proj2 (proj1 function_call_edge_iff sampleCalls (allOn "") 0 (mkCall "f" "g")
                  eq_refl eq_refl)).
  split_and!.
  - exists "f". split_and!; [reflexivity|discriminate|reflexivity].
  - exists "g". split_and!; [reflexivity|discriminate|reflexivity].
  - discriminate.
Defined.

Lemma search_term_case_is_irrelevant_witness :
  transformDataToGraph sample (setSearchTerm "G" (allOn "")) =
  transformDataToGraph sample (setSearchTerm "g" (allOn "")).
Proof. apply (search_term_case_is_irrelevant sample (allOn "") "G" "g"). reflexivity. Defined.

Lemma narrowing_search_keeps_entities_witness :
  functionNode 0 (mkFunction "Unknown") ∈
    nodes (transformDataToGraph sampleShadowed (setSearchTerm "KN" (allOn ""))).
Proof.
  apply (narrowing_search_keeps_entities sampleShadowed (allOn "") "KN" "nkno"
           (functionNode 0 (mkFunction "Unknown"))).
  - reflexivity.
  - elem_by_compute.
  - reflexivity.
Defined.

Lemma registry_last_class_wins_witness :
  registry sample (allOn "") !! "B" = Some "class-0".
Proof.
  apply (registry_last_class_wins sample (allOn "") 0
           (mkClass "B" ["A"] [mkFunction "m"])); try reflexivity.
  intros cj c' Hlt Hc'. destruct cj as [|cj]; [lia|done].
Defined.

Lemma registry_last_function_wins_witness :
  registry sample (allOn "") !! "g" = Some "func-1".
Proof.
  apply (registry_last_function_wins sample (allOn "") 1 (mkFunction "g"));
    try reflexivity.
  - intros i' f' Hlt Hf'. destruct i' as [|[|i']]; [lia|lia|done].
  - intros c Hc%list_elem_of_singleton. by subst.
Defined.

(** Class [B] derives from [A], which is declared after it. *)
Lemma stub_for_forward_reference_witness :
  stubNode (baseStubId "A") "A" ∈
    nodes (transformDataToGraph
             {| functions := []; classes := [mkClass "B" ["A"] []; mkClass "A" [] []];
                relationships := noRelationships |} (allOn "")) ∧
  inheritsEdge (classId 0) (baseStubId "A") 0 ∈
    edges (transformDataToGraph
             {| functions := []; classes := [mkClass "B" ["A"] []; mkClass "A" [] []];
                relationships := noRelationships |} (allOn "")).
Proof.
  apply (stub_for_forward_reference
           {| functions := []; classes := [mkClass "B" ["A"] []; mkClass "A" [] []];
              relationships := noRelationships |} (allOn "") 0 (mkClass "B" ["A"] []) 0 "A");
    try reflexivity.
  - intros f Hf. by apply elem_of_nil in Hf.
  - intros cj c' Hle Hc' _. destruct cj as [|cj]; [|lia].
    simpl in Hc'. by simplify_eq.
Defined.

Lemma method_call_edge_iff_witness :
  filter (hasEdgeId ("method-call-" +:+ pretty 0))
    (edges (transformDataToGraph sampleMethodCall (allOn ""))) =
  [methodCallEdge 0 "class-0" "method-0-0"].
Proof.
  apply (proj2 (method_call_edge_iff sampleMethodCall (allOn "") 0
                  {| caller := None; callee := None; object := Some "B";
                     method := Some "m"; attribute := None; r_type := method_call |}
                  eq_refl eq_refl)).
  split.
  - exists "B". split_and!; [reflexivity|discriminate|reflexivity].
  - exists "m", (methodNode 0 0 (mkFunction "m")).
    split_and!; [reflexivity|discriminate|reflexivity|reflexivity].
Defined.

Lemma inherits_edges_target_the_named_base_witness :
  ∃ ci c bi b n,
    classes sample !! ci = Some c ∧ c_bases c !! bi = Some b ∧
    n ∈ nodes (transformDataToGraph sample (allOn "")) ∧ n_label n = b ∧
    inheritsEdge "class-0" "base-A" 0 = inheritsEdge (classId ci) (n_id n) bi.
Proof.
  apply (inherits_edges_target_the_named_base sample (allOn "")
           (inheritsEdge "class-0" "base-A" 0)).
  - elem_by_compute.
  - reflexivity.
Defined.

Lemma call_edges_join_the_named_nodes_witness :
  e_type (callEdge 0 "func-0" "func-1") = Calls ∧
  ∃ ns nt, ns ∈ nodes (transformDataToGraph sampleCalls (allOn "")) ∧
           nt ∈ nodes (transformDataToGraph sampleCalls (allOn "")) ∧
           e_source (callEdge 0 "func-0" "func-1") = n_id ns ∧
           caller (mkCall "f" "g") = Some (n_label ns) ∧
           e_target (callEdge 0 "func-0" "func-1") = n_id nt ∧
           callee (mkCall "f" "g") = Some (n_label nt).
Proof.
  apply (call_edges_join_the_named_nodes sampleCalls (allOn "") 0 (mkCall "f" "g")
           (callEdge 0 "func-0" "func-1")); try reflexivity.
  elem_by_compute.
Defined.

Lemma node_sizes_in_build_witness :
  (45 ≤ nodeWidth "class" (ClassData (stubPayload "A")) ≤ 120)%nat ∧
  (35 ≤ nodeHeight "class" (ClassData (stubPayload "A")) ≤ 80)%nat ∧
  (TClass ≠ TClass → nodeHeight "class" (ClassData (stubPayload "A")) = 35) ∧
  (fontSize "class" (ClassData (stubPayload "A")) = "14px" ↔
   ∃ c, TClass = TClass ∧ ClassData (stubPayload "A") = ClassData c ∧
        (5 < length (c_methods c))%nat) ∧
  (isStubId "base-A" = true →
   nodeWidth "class" (ClassData (stubPayload "A")) = 60 ∧
   nodeHeight "class" (ClassData (stubPayload "A")) = 45 ∧
   fontSize "class" (ClassData (stubPayload "A")) = "12px").
Proof.
  apply (node_sizes_in_build sample (allOn "") (stubNode (baseStubId "A") "A")).
  elem_by_compute.
Defined.

Lemma method_nodes_match_total_methods_witness :
  length (nodesOfType TMethod (nodes (transformDataToGraph sample (allOn "")))) =
  totalMethods (classes sample).
Proof.
  apply (method_nodes_match_total_methods sample (allOn "")); reflexivity.
Defined.

Lemma selection_survives_filter_changes_witness :
  selectedNode
    (foldl handle (handle initialUi (TapNode (functionNode 0 (mkFunction "f"))))
       [TypeSearch "g"; CheckFunctions false]) =
  selectedNode (handle initialUi (TapNode (functionNode 0 (mkFunction "f")))).
Proof.
  apply (selection_survives_filter_changes
           (handle initialUi (TapNode (functionNode 0 (mkFunction "f"))))
           [TypeSearch "g"; CheckFunctions false]).
  repeat constructor.
Defined.
